(** * Path-integral QMC: the annealing engines of [sa.pyx] and [qmc.pyx]

    A shallow embedding of the four annealing entry points ([Anneal],
    [Anneal_parallel], [Anneal_multispin], [QuantumAnneal]), of the quantum
    Metropolis kernel ([QuantumMetropolisAccept]) and of the energy function
    ([ClassicalIsingEnergy]), followed by the properties of the
    specification that concern them and by further properties of the code.

    Modelling conventions.
    - Floating-point numbers are exact rationals ([Qc]); rounding (and with
      it the widths of the accumulators, a C [float] in [Anneal] and doubles
      in [Anneal_parallel] and [Anneal_multispin]), NaN and infinities are
      outside the model.  [sa.pyx] sets [cdivision], so a division by zero
      there gives such a value; [qmc.pyx] does not, and its division by a
      zero temperature raises: the call has no result ([None]).  The
      transcendental functions ([exp], [log], [tanh]) are an interface
      ([LibM]).
    - The random sources are interfaces with explicit state passing: the
      generator object [rng] handed to the engines ([NumpyRandom]) and the
      C library generator behind [crand()] ([LibC]).
    - Arrays are lists.  The source disables bounds checks, so an access
      out of range has no defined result: reads and writes are fallible
      ([None]).  The accesses out of range that every call of
      [Anneal_multispin] makes, in the last iteration of its unpacking loop,
      are also followed in memory, for a C-contiguous matrix
      ([unpack_contiguous]).
    - 64-bit unsigned words are integers with the wrap-around written out. *)

From Stdlib Require Import ZArith QArith Qcanon Lia.
From stdpp Require Import base option list numbers.

Local Open Scope Z_scope.

(** ** Numbers *)

Definition half : Qc := Q2Qc (1 # 2).

(** [int(x)]: conversion of a float to an integer truncates toward zero. *)
Definition int_of_float (x : Qc) : Z := Z.quot (Qnum x) (Zpos (Qden x)).

(** [float(n)] for an integer [n]. *)
Definition float_of_int (n : Z) : Qc := Qc_of_Z n.

(** ** Interfaces of the environment *)

(** The generator object [rng]: [rng.permutation(l)], [rng.rand(n)] and
    [rng.uniform(lo, hi)], each returning its value and the generator's next
    state. *)
Class NumpyRandom (R : Type) := {
  permutation : R → list nat → list nat * R;
  rand : R → nat → list Qc * R;
  uniform : R → Qc → Qc → Qc * R
}.

(** The C library generator: [rand()] and [RAND_MAX]. *)
Class LibC (C : Type) := {
  crand : C → Z * C;
  RAND_MAX : Z
}.

(** The mathematical functions of libm and numpy. *)
Class LibM := {
  exp : Qc → Qc;
  log : Qc → Qc;
  tanh : Qc → Qc
}.

(** ** Arrays *)

(** [a[i]] for a C integer index, bounds checks and wrap-around disabled. *)
Definition aget {A} (a : list A) (i : Z) : option A :=
  if decide (0 ≤ i) then a !! Z.to_nat i else None.

(** [a[i] = x] at a loop index. *)
Definition aset {A} (a : list A) (i : nat) (x : A) : option (list A) :=
  if decide (i < length a)%nat then Some (<[i := x]> a) else None.

(** [m[i, j] = x] on a two-dimensional array stored as a list of rows. *)
Definition aset2 {A} (m : list (list A)) (i j : nat) (x : A)
  : option (list (list A)) :=
  row ← m !! i;
  row' ← aset row j x;
  Some (<[i := row']> m).

(** [xrange(n)] for a C integer [n]: empty when [n] is not positive. *)
Definition xrange (n : Z) : list nat := seq 0 (Z.to_nat n).

(** A [for] loop whose body may fail. *)
Fixpoint for_each {I S} (body : S → I → option S) (l : list I) (s : S)
  : option S :=
  match l with
  | [] => Some s
  | i :: l' => s' ← body s i; for_each body l' s'
  end.

(** The coupling graph [nbs]: for each spin, its row of neighbour slots,
    each slot the pair [(nbs[sidx, si, 0], nbs[sidx, si, 1])] of the
    neighbour index (stored as a float) and the coupling value.  The array is
    rectangular, so iterating [si] over [xrange(maxnb)] is iterating over the
    row. *)
Abbreviation graph := (list (list (Qc * Qc))).

Section Classical.
Context {R C : Type} `{!NumpyRandom R, !LibC C, !LibM}.
Local Open Scope Qc_scope.

(** *** [Anneal]: the sequential classical annealer *)

(** One pass of the loop over the neighbour slots (lines 80-90). *)
Definition nb_step (svec : list Qc) (sidx : nat) (ediff : Qc)
    (nb : Qc * Qc) : option Qc :=
  let spinidx := int_of_float nb.1 in
  let jval := nb.2 in
  if decide (spinidx = Z.of_nat sidx) then
    s ← svec !! sidx;
    Some (ediff + (-2) * s * jval)
  else
    s ← svec !! sidx;
    sn ← aget svec spinidx;
    Some (ediff + (-2) * s * (jval * sn)).

Definition ediff_loop (svec : list Qc) (sidx : nat) (row : list (Qc * Qc))
    (ediff : Qc) : option Qc :=
  for_each (nb_step svec sidx) row ediff.

(** [svec[sidx] *= -1]. *)
Definition flip (svec : list Qc) (sidx : nat) : option (list Qc) :=
  s ← svec !! sidx;
  aset svec sidx (s * (-1)).

(** [crand()/float(RAND_MAX)]. *)
Definition cdraw (c : C) : Qc * C :=
  let '(r, c') := crand c in
  (float_of_int r / float_of_int RAND_MAX, c').

(** Metropolis accept or reject (lines 92-95). *)
Definition metropolis (temp ediff : Qc) (svec : list Qc) (sidx : nat)
    (c : C) : option (list Qc * C) :=
  if decide (0 ≤ ediff) then
    svec' ← flip svec sidx; Some (svec', c)
  else
    let '(u, c') := cdraw c in
    if decide (u < exp (ediff / temp)) then
      svec' ← flip svec sidx; Some (svec', c')
    else Some (svec, c').

(** The body of the loop over spins (lines 78-97). *)
Definition anneal_spin (nbs : graph) (temp : Qc) (st : list Qc * C)
    (sidx : nat) : option (list Qc * C) :=
  let '(svec, c) := st in
  row ← nbs !! sidx;
  ediff ← ediff_loop svec sidx row 0;
  metropolis temp ediff svec sidx c.

(** One Monte Carlo step: a sweep in the current order, then a reshuffle
    (lines 76-98). *)
Definition anneal_step (nbs : graph) (temp : Qc)
    (st : list Qc * C * (list nat * R)) (step : nat)
  : option (list Qc * C * (list nat * R)) :=
  let '(sc, (sidx_shuff, rng)) := st in
  sc' ← for_each (anneal_spin nbs temp) sidx_shuff sc;
  Some (sc', permutation rng sidx_shuff).

(** One schedule value (lines 72-98). *)
Definition anneal_temp (nbs : graph) (mcsteps : Z)
    (st : list Qc * C * (list nat * R)) (temp : Qc)
  : option (list Qc * C * (list nat * R)) :=
  for_each (anneal_step nbs temp) (xrange mcsteps) st.

Definition Anneal (sched : list Qc) (mcsteps : Z) (svec : list Qc)
    (nbs : graph) (rng : R) (c : C) : option (list Qc * C * R) :=
  let nspins := length svec in
  let shuff := permutation rng (seq 0 nspins) in
  '(sc, (_, rng')) ← for_each (anneal_temp nbs mcsteps) sched (svec, c, shuff);
  Some (sc, rng').

(** *** [Anneal_parallel]: the thread-parallel classical annealer

    The model runs the static partition of [prange(nspins)] in ascending
    index order, which is what a single worker does; the interleaving of
    several workers is outside the model.  Every energy difference lives in
    its own slot of the scratch array [ediffs]. *)

(** One pass of the loop over the neighbour slots (lines 151-160). *)
Definition par_nb_step (svec : list Qc) (sidx : nat) (ediffs : list Qc)
    (nb : Qc * Qc) : option (list Qc) :=
  let spinidx := int_of_float nb.1 in
  let jval := nb.2 in
  if decide (spinidx = Z.of_nat sidx) then
    e ← ediffs !! sidx;
    s ← svec !! sidx;
    aset ediffs sidx (e + (-2) * s * jval)
  else
    e ← ediffs !! sidx;
    s ← svec !! sidx;
    sn ← aget svec spinidx;
    aset ediffs sidx (e + (-2) * s * (jval * sn)).

(** Accept or reject (lines 162-165). *)
Definition par_metropolis (temp ediff : Qc) (svec : list Qc) (sidx : nat)
    (c : C) : option (list Qc * C) :=
  if decide (0 < ediff) then
    svec' ← flip svec sidx; Some (svec', c)
  else
    let '(u, c') := cdraw c in
    if decide (u < exp (ediff / temp)) then
      svec' ← flip svec sidx; Some (svec', c')
    else Some (svec, c').

(** The body of the [prange] loop (lines 148-165). *)
Definition par_spin (nbs : graph) (temp : Qc)
    (st : list Qc * C * list Qc) (sidx : nat)
  : option (list Qc * C * list Qc) :=
  let '(svec, c, ediffs) := st in
  ediffs0 ← aset ediffs sidx 0;
  row ← nbs !! sidx;
  ediffs' ← for_each (par_nb_step svec sidx) row ediffs0;
  e ← ediffs' !! sidx;
  '(svec', c') ← par_metropolis temp e svec sidx c;
  Some (svec', c', ediffs').

Definition par_step (nbs : graph) (temp : Qc) (nspins : nat)
    (st : list Qc * C * list Qc) (step : nat)
  : option (list Qc * C * list Qc) :=
  for_each (par_spin nbs temp) (seq 0 nspins) st.

Definition par_temp (nbs : graph) (mcsteps : Z) (nspins : nat)
    (st : list Qc * C * list Qc) (temp : Qc)
  : option (list Qc * C * list Qc) :=
  for_each (par_step nbs temp nspins) (xrange mcsteps) st.

Definition Anneal_parallel (sched : list Qc) (mcsteps : Z)
    (svec : list Qc) (nbs : graph) (nthreads : Z) (c : C)
  : option (list Qc * C) :=
  let nspins := length svec in
  let ediffs := replicate nspins 0 in
  '(sc, _) ← for_each (par_temp nbs mcsteps nspins) sched (svec, c, ediffs);
  Some sc.

End Classical.

(** ** [Anneal_multispin]: the multispin-encoded annealer *)

(** The outcome of a run that may access an array out of range: where it
    first does, [OutOfRange] holds the caller's buffer as it was when the
    access was attempted.  (What the run makes of the buffer after that is
    followed, for the unpacking loop, by [unpack_contiguous] below.) *)
Inductive outcome (S : Type) : Type :=
  | Finished (s : S)
  | OutOfRange (s : S).
Arguments Finished {S} s.
Arguments OutOfRange {S} s.

Definition buffer {S} (o : outcome S) : S :=
  match o with Finished s | OutOfRange s => s end.

(** A [for] loop over a body with such outcomes. *)
Fixpoint loop_o {I S} (body : S → I → outcome S) (l : list I) (s : S)
  : outcome S :=
  match l with
  | [] => Finished s
  | i :: l' =>
      match body s i with
      | Finished s' => loop_o body l' s'
      | OutOfRange s' => OutOfRange s'
      end
  end.

(** A [uint64] value after a left shift by one. *)
Definition shl1 (w : Z) : Z := Z.shiftl w 1 `mod` 2 ^ 64.

(** [getbit(s, k)]: [(s >> k) & 1] as a C boolean.  The shift of a
    [uint64] is defined in C for [0 <= k < 64] only, which is where the
    engine calls it ([63 - k] for [k] in [xrange(64)]); the definition is
    meant for that range. *)
Definition getbit (s k : Z) : bool := negb (Z.land (Z.shiftr s k) 1 =? 0).

(** [bin(w)[2:]] for a non-negative [w]: its binary digits, most
    significant first, ['1'] as [true]. *)
Fixpoint pos_digits (p : positive) : list bool :=
  match p with
  | xH => [true]
  | xO p' => false :: pos_digits p'
  | xI p' => true :: pos_digits p'
  end.

Definition bin (w : Z) : list bool :=
  match w with
  | Zpos p => reverse (pos_digits p)
  | _ => [false]
  end.

(** [s.rjust(n, fill)]. *)
Definition rjust {A} (n : nat) (fill : A) (s : list A) : list A :=
  replicate (n - length s) fill ++ s.

(** [float(ch)] for a binary digit. *)
Definition float_of_digit (b : bool) : Qc := if b then Q2Qc 1 else Q2Qc 0.

(** The replica matrix [svec_mat]: a list of rows, one row per replica. *)
Abbreviation matrix := (list (list Qc)).

(** [svec_mat.shape[1]]. *)
Definition shape1 (m : matrix) : nat :=
  match m with [] => 0%nat | r :: _ => length r end.

Section Multispin.
Context {R : Type} `{!NumpyRandom R, !LibM}.
Local Open Scope Qc_scope.

(** Encoding of one matrix entry (lines 224-227). *)
Definition pack_step (svec_mat : matrix) (si : nat) (svec : list Z)
    (k : nat) : option (list Z) :=
  w ← svec !! si;
  x ← svec_mat !! k ≫= (.!! si);
  let w1 := shl1 w in
  aset svec si (if decide (x ≠ 0) then Z.lxor w1 1 else w1).

Definition pack_col (svec_mat : matrix) (svec : list Z) (si : nat)
  : option (list Z) :=
  for_each (pack_step svec_mat si) (seq 0 (length svec_mat)) svec.

Definition pack (svec_mat : matrix) (svec : list Z) : option (list Z) :=
  for_each (pack_col svec_mat) (seq 0 (shape1 svec_mat)) svec.

(** The loop over bits (lines 245-250 and 256-261). *)
Definition bit_step (w : Z) (jval : Qc) (ediffs : list Qc) (k : nat)
  : option (list Qc) :=
  e ← ediffs !! k;
  if negb (getbit w (63 - Z.of_nat k)) then aset ediffs k (e - 2 * jval)
  else aset ediffs k (e + 2 * jval).

Definition bit_loop (w : Z) (jval : Qc) (ediffs : list Qc)
  : option (list Qc) :=
  for_each (bit_step w jval) (xrange 64) ediffs.

(** One pass of the loop over the neighbour slots (lines 237-261). *)
Definition ms_nb_step (svec : list Z) (sidx : nat) (ediffs : list Qc)
    (nb : Qc * Qc) : option (list Qc) :=
  let spinidx := int_of_float nb.1 in
  let jval := nb.2 in
  if decide (spinidx = Z.of_nat sidx) then
    w ← svec !! sidx;
    bit_loop w jval ediffs
  else
    w ← svec !! sidx;
    wn ← aget svec spinidx;
    let flipmask := Z.lxor w wn in
    bit_loop flipmask jval ediffs.

(** [np.exp(ediffs/temp) > rands], element by element (line 264). *)
Definition signs (temp : Qc) (ediffs rands : list Qc) : list bool :=
  zip_with (λ e r, bool_decide (r < exp (e / temp))) ediffs rands.

(** The flip mask (lines 266-273). *)
Definition mask_step (sign : list bool) (flipmask : Z) (k : nat)
  : option Z :=
  let flipmask := shl1 flipmask in
  b ← sign !! k;
  Some (if b : bool then Z.lxor flipmask 1 else flipmask).

Definition build_mask (sign : list bool) : option Z :=
  b0 ← sign !! 0%nat;
  for_each (mask_step sign) (seq 1 63) (if b0 : bool then 1%Z else 0%Z).

(** The body of the loop over spins (lines 235-279).  The state is the
    packed words, the accumulators, the current batch of draws and the
    generator. *)
Definition ms_spin (nbs : graph) (temp : Qc)
    (st : list Z * list Qc * list Qc * R) (sidx : nat)
  : option (list Z * list Qc * list Qc * R) :=
  let '(svec, ediffs, rands, rng) := st in
  row ← nbs !! sidx;
  ediffs' ← for_each (ms_nb_step svec sidx) row ediffs;
  flipmask ← build_mask (signs temp ediffs' rands);
  w ← svec !! sidx;
  svec' ← aset svec sidx (Z.lxor w flipmask);
  let '(rands', rng') := rand rng 64 in
  Some (svec', (λ _, 0) <$> ediffs', rands', rng').

Definition ms_step (nbs : graph) (temp : Qc)
    (st : list Z * list Qc * list Qc * R * list nat) (step : nat)
  : option (list Z * list Qc * list Qc * R * list nat) :=
  let '(s, sidx_shuff) := st in
  '(svec, ediffs, rands, rng) ← for_each (ms_spin nbs temp) sidx_shuff s;
  let '(shuff', rng') := permutation rng sidx_shuff in
  Some (svec, ediffs, rands, rng', shuff').

Definition ms_temp (nbs : graph) (mcsteps : Z)
    (st : list Z * list Qc * list Qc * R * list nat) (temp : Qc)
  : option (list Z * list Qc * list Qc * R * list nat) :=
  for_each (ms_step nbs temp) (xrange mcsteps) st.

(** Decoding of one matrix entry (lines 285-286). *)
Definition unpack_cell (state : list bool) (sidx : nat) (m : matrix)
    (k : nat) : outcome matrix :=
  match state !! k with
  | None => OutOfRange m
  | Some b =>
      match aset2 m k sidx (float_of_digit b) with
      | Some m' => Finished m'
      | None => OutOfRange m
      end
  end.

(** The body of the unpacking loop (lines 284-286). *)
Definition unpack_col (svec : list Z) (m : matrix) (sidx : nat)
  : outcome matrix :=
  match svec !! sidx with
  | None => OutOfRange m
  | Some w =>
      let state := rjust 64 false (bin w) in
      loop_o (unpack_cell state sidx) (seq 0 (length state)) m
  end.

(** The unpacking loop (line 283): [xrange(svec.size+1)]. *)
Definition unpack_range (svec : list Z) : list nat :=
  xrange (Z.of_nat (length svec) + 1).

Definition unpack (svec : list Z) (m : matrix) : outcome matrix :=
  loop_o (unpack_col svec) (unpack_range svec) m.

(** Everything before the unpacking (lines 201-281). *)
Definition ms_run (sched : list Qc) (mcsteps : Z) (svec_mat : matrix)
    (nbs : graph) (rng : R) : option (list Z) :=
  let nspins := shape1 svec_mat in
  let svec := replicate nspins 0%Z in
  let ediffs := replicate 64 0 in
  let '(rands, rng1) := rand rng 64 in
  let '(shuff, rng2) := permutation rng1 (seq 0 nspins) in
  svec ← pack svec_mat svec;
  '(svec', _, _, _, _) ←
    for_each (ms_temp nbs mcsteps) sched (svec, ediffs, rands, rng2, shuff);
  Some svec'.

Definition Anneal_multispin (sched : list Qc) (mcsteps : Z)
    (svec_mat : matrix) (nbs : graph) (rng : R) : outcome matrix :=
  match ms_run sched mcsteps svec_mat nbs rng with
  | None => OutOfRange svec_mat
  | Some svec => unpack svec svec_mat
  end.

(** *** The unpacking loop in memory

    [unpack] records where the loop first leaves its arrays.  With bounds
    checks disabled the loop itself goes on, and what the call leaves in
    [svec_mat] depends on the memory that holds the arrays.  The
    definitions below follow the loop on a C-contiguous [svec_mat] (the
    layout of the arrays that [np.zeros], [np.ones] and [np.array] return):
    element [k, j] of a matrix of [cols] columns is at offset
    [k * cols + j] of its buffer.  The word that lies behind the packed
    array in memory is an input, [behind]. *)

(** [svec_mat[k, j] = x] without bounds check: the store goes to offset
    [k * cols + j], which is element
    [(k * cols + j) / cols, (k * cols + j) mod cols] of the matrix when it
    is inside the buffer.  A store behind the buffer does not reach the
    matrix; what it overwrites there is outside the model. *)
Definition store_contiguous (cols : nat) (m : matrix) (k j : nat) (x : Qc)
  : matrix :=
  let off := (k * cols + j)%nat in
  alter (λ row : list Qc, <[(off `mod` cols)%nat := x]> row)
        (off `div` cols)%nat m.

(** [svec[sidx]] without bounds check, for [sidx <= svec.size]: at
    [sidx = svec.size] the load returns the word behind the array. *)
Definition load_contiguous (behind : Z) (svec : list Z) (sidx : nat) : Z :=
  default behind (svec !! sidx).

(** Decoding of one matrix entry (lines 285-286). *)
Definition unpack_cell_contiguous (cols : nat) (state : list bool)
    (sidx : nat) (m : matrix) (k : nat) : matrix :=
  match state !! k with
  | Some b => store_contiguous cols m k sidx (float_of_digit b)
  | None => m
  end.

(** The body of the unpacking loop (lines 284-286). *)
Definition unpack_col_contiguous (behind : Z) (cols : nat) (svec : list Z)
    (m : matrix) (sidx : nat) : matrix :=
  let state := rjust 64 false (bin (load_contiguous behind svec sidx)) in
  foldl (unpack_cell_contiguous cols state sidx) m (seq 0 (length state)).

(** The unpacking loop (lines 283-286), all its iterations. *)
Definition unpack_contiguous (behind : Z) (svec : list Z) (m : matrix)
  : matrix :=
  foldl (unpack_col_contiguous behind (shape1 m) svec) m (unpack_range svec).

(** The matrix that a call leaves in a C-contiguous [svec_mat]. *)
Definition Anneal_multispin_contiguous (behind : Z) (sched : list Qc)
    (mcsteps : Z) (svec_mat : matrix) (nbs : graph) (rng : R)
  : option matrix :=
  svec ← ms_run sched mcsteps svec_mat nbs rng;
  Some (unpack_contiguous behind svec svec_mat).

End Multispin.

(** ** [QuantumMetropolisAccept] and [QuantumAnneal] *)

Section Quantum.
Context {R : Type} `{!NumpyRandom R, !LibM}.
Local Open Scope Qc_scope.

(** One pass of the loop over the neighbour pairs (lines 55-64). *)
Definition q_nb_step (svec : list Qc) (sidx : nat) (ediff : Qc)
    (nb : Qc * Qc) : option Qc :=
  let spinidx := int_of_float nb.1 in
  let jval := nb.2 in
  if decide (spinidx = Z.of_nat sidx) then
    s ← svec !! sidx;
    Some (ediff + (-2) * s * jval)
  else
    s ← svec !! sidx;
    sn ← aget svec spinidx;
    Some (ediff + (-2) * s * (jval * sn)).

(** Periodic boundaries (lines 66-74): the left and right slices of
    [tidx] among [P] slices. *)
Definition trotter_neighbours (P tidx : Z) : Z * Z :=
  if decide (tidx = 0)%Z then (P - 1, 1)%Z
  else if decide (tidx = P - 1)%Z then (P - 2, 0)%Z
  else (tidx - 1, tidx + 1)%Z.

(** The energy difference (lines 47-77). *)
Definition q_ediff (svec tvec : list Qc) (sidx tidx : nat)
    (nb_pairs : list (Qc * Qc)) (jperp : Qc) : option Qc :=
  let P := Z.of_nat (length tvec) in
  ediff ← for_each (q_nb_step svec sidx) nb_pairs 0;
  let '(tleft, tright) := trotter_neighbours P (Z.of_nat tidx) in
  s ← svec !! sidx;
  tl ← aget tvec tleft;
  let ediff := ediff + (-2) * s * (jperp * tl) in
  tr ← aget tvec tright;
  Some (ediff + (-2) * s * (jperp * tr)).

(** The decision (lines 79-84).  [qmc.pyx] does not set [cdivision], so
    the division [ediff/T] of line 81, which is evaluated before the draw,
    raises [ZeroDivisionError] when [T] is zero: the call has no result. *)
Definition q_decide (rng : R) (ediff T : Qc) : option (bool * R) :=
  if decide (0 < ediff) then Some (true, rng)
  else if decide (T = 0) then None
  else
    let '(u, rng') := uniform rng 0 1 in
    if decide (u < exp (ediff / T)) then Some (true, rng')
    else Some (false, rng').

Definition QuantumMetropolisAccept (rng : R) (svec tvec : list Qc)
    (sidx tidx : nat) (nb_pairs : list (Qc * Qc)) (jperp T : Qc)
  : option (bool * R) :=
  ediff ← q_ediff svec tvec sidx tidx nb_pairs jperp;
  q_decide rng ediff T.

(** [configurations[:, islice]]. *)
Definition column (m : matrix) (j : nat) : option (list Qc) :=
  mapM (.!! j) m.

(** The body of the loop over spins (lines 126-136). *)
Definition qa_spin (neighbors : graph) (T perpJ : Qc)
    (islice : nat) (st : matrix * R) (ispin : nat) : option (matrix * R) :=
  let '(configurations, rng) := st in
  svec ← column configurations islice;
  tvec ← configurations !! ispin;
  nb_pairs ← neighbors !! ispin;
  '(accept, rng') ←
    QuantumMetropolisAccept rng svec tvec ispin islice nb_pairs perpJ T;
  if accept : bool then
    x ← tvec !! islice;
    configurations' ← aset2 configurations ispin islice (x * (-1));
    Some (configurations', rng')
  else Some (configurations, rng').

(** The body of the loop over Trotter slices (lines 124-136). *)
Definition qa_slice (neighbors : graph) (T perpJ : Qc)
    (nSpins : Z) (st : matrix * R) (islice : nat) : option (matrix * R) :=
  let '(configurations, rng) := st in
  let '(order, rng') := permutation rng (xrange nSpins) in
  for_each (qa_spin neighbors T perpJ islice) order (configurations, rng').

(** One Monte Carlo step (lines 122-136). *)
Definition qa_step (neighbors : graph) (T perpJ : Qc)
    (trotterSlices nSpins : Z) (st : matrix * R) (step : nat)
  : option (matrix * R) :=
  let '(configurations, rng) := st in
  let '(order, rng') := permutation rng (xrange trotterSlices) in
  for_each (qa_slice neighbors T perpJ nSpins) order (configurations, rng').

(** The coefficient of the Ising chain along the Trotter dimension
    (lines 119-121). *)
Definition perp_coupling (trotterSlices : Z) (T field : Qc) : Qc :=
  - half * float_of_int trotterSlices * T
    * log (tanh (field / (float_of_int trotterSlices * T))).

(** One value of the transverse field (lines 117-136). *)
Definition qa_field (neighbors : graph) (mcSteps : Z)
    (trotterSlices : Z) (T : Qc) (nSpins : Z) (st : matrix * R)
    (field : Qc) : option (matrix * R) :=
  let perpJ := perp_coupling trotterSlices T field in
  for_each (qa_step neighbors T perpJ trotterSlices nSpins)
    (xrange mcSteps) st.

Definition QuantumAnneal (annealingSchedule : list Qc) (mcSteps : Z)
    (trotterSlices : Z) (annealingTemperature : Qc) (nSpins : Z)
    (configurations : matrix) (neighbors : graph)
    (rng : R) : option (matrix * R) :=
  for_each
    (qa_field neighbors mcSteps trotterSlices annealingTemperature nSpins)
    annealingSchedule (configurations, rng).

End Quantum.

(** ** A concrete environment, to run the model

    A scripted generator: its state is the list of draws still to come;
    [permutation] reverses its argument and [rand]/[uniform] read the
    script, with [0] once it is exhausted and in the place of a value
    outside the half-open unit interval. *)

Definition unit_draw (u : Qc) : Qc :=
  if decide (0 ≤ u ∧ u < 1)%Qc then u else Q2Qc 0.

Definition script_take (n : nat) (s : list Qc) : list Qc :=
  unit_draw <$> take n (s ++ replicate n (Q2Qc 0)).

#[export] Instance script_rng : NumpyRandom (list Qc) := {
  permutation s l := (reverse l, s);
  rand s n := (script_take n s, drop n s);
  uniform s lo hi := ((lo + (hi - lo) * unit_draw (hd (Q2Qc 0) s))%Qc, tl s)
}.

(** A scripted [rand()]: the state is the list of values still to come. *)
#[export] Instance script_libc : LibC (list Z) := {
  crand s := (hd 0 s, tl s);
  RAND_MAX := 2147483647
}.

(** Rational stand-ins for the mathematical functions: [exp_q] agrees with
    the exponential at [0], is at least [1] on non-negative arguments and
    below [1] on negative ones. *)
Definition exp_q (x : Qc) : Qc :=
  if decide (0 ≤ x)%Qc then (1 + x + half * x * x)%Qc
  else (/ (1 - x + half * x * x))%Qc.
Definition log_q (x : Qc) : Qc := (x - 1)%Qc.
Definition tanh_q (x : Qc) : Qc := (x / (1 + x * x))%Qc.

#[export] Instance approx_libm : LibM := {
  exp := exp_q;
  log := log_q;
  tanh := tanh_q
}.

(** Floats written as fractions. *)
Definition fl (n : Z) (d : positive) : Qc := Q2Qc (n # d).

(** ** Notions used to state the properties *)

(** The spin a bit stands for (bit 0 is +1, bit 1 is -1). *)
Definition spin_of_bit (b : bool) : Qc := if b then (- 1)%Qc else 1%Qc.

(** Replica [k] lives in bit [63 - k] of every packed word. *)
Definition replica_spin (k : nat) (w : Z) : Qc :=
  spin_of_bit (Z.testbit w (63 - Z.of_nat k)).

Definition replica (k : nat) (svec : list Z) : list Qc :=
  replica_spin k <$> svec.

(** The spin a matrix entry stands for: the packing sets the bit of every
    non-zero entry. *)
Definition spin_of_entry (x : Qc) : Qc :=
  spin_of_bit (bool_decide (x ≠ Q2Qc 0)).

Definition replica_config (k : nat) (m : matrix) : option (list Qc) :=
  fmap (M:=list) spin_of_entry <$> m !! k.

(** A configuration of spins: every entry is +1 or -1. *)
Definition is_spin (x : Qc) : Prop := x = 1%Qc ∨ x = (- 1)%Qc.
Definition spins (svec : list Qc) : Prop := Forall is_spin svec.
Definition spins2 (m : matrix) : Prop := Forall spins m.

(** A matrix of [rows] rows and [cols] columns. *)
Definition has_shape (rows cols : nat) (m : matrix) : Prop :=
  length m = rows ∧ Forall (λ r, length r = cols) m.

(** Every entry is 0 or 1. *)
Definition binary (m : matrix) : Prop :=
  Forall (Forall (λ x, x = Q2Qc 0 ∨ x = Q2Qc 1)) m.

(** A 64-bit unsigned word. *)
Definition is_word (w : Z) : Prop := 0 ≤ w < 2 ^ 64.

(** The neighbour indices of a row are indices of [n] spins. *)
Definition valid_row (n : nat) (row : list (Qc * Qc)) : Prop :=
  Forall (λ nb, 0 ≤ int_of_float nb.1 < Z.of_nat n) row.

(** A coupling graph over [n] spins. *)
Definition valid_graph (n : nat) (nbs : graph) : Prop :=
  length nbs = n ∧ Forall (valid_row n) nbs.

(** A run as the list of the states it goes through, one per step. *)
Inductive run_of {S} (step : S → S → Prop) : S → list S → S → Prop :=
  | run_nil s : run_of step s [] s
  | run_cons s s' l s'' :
      step s s' → run_of step s' l s'' → run_of step s (s' :: l) s''.

(** An update of one entry: unchanged, or multiplied by -1 in place. *)
Definition flip_or_keep (a b : list Qc) : Prop :=
  b = a ∨ ∃ i s, a !! i = Some s ∧ b = <[i := (s * (- 1))%Qc]> a.

Definition flip_or_keep2 (a b : matrix) : Prop :=
  b = a ∨ ∃ i j row x, a !! i = Some row ∧ row !! j = Some x ∧
            b = <[i := <[j := (x * (- 1))%Qc]> row]> a.

(** *** The energy difference in the words of the specification *)

Section EnergyDifference.
Local Open Scope Qc_scope.

(** What one neighbour pair of spin [sidx], of value [s], contributes;
    [value_of] gives the value of a neighbour. *)
Definition pair_contribution (value_of : Z → Qc) (sidx : nat) (s : Qc)
    (nb : Qc * Qc) : Qc :=
  if decide (int_of_float nb.1 = Z.of_nat sidx) then (-2) * s * nb.2
  else (-2) * s * nb.2 * value_of (int_of_float nb.1).

Definition sum_list (l : list Qc) : Qc := foldr Qcplus 0 l.

Definition neighbour_sum (value_of : Z → Qc) (sidx : nat) (s : Qc)
    (row : list (Qc * Qc)) : Qc :=
  sum_list (pair_contribution value_of sidx s <$> row).

(** The value of entry [i] of a configuration. *)
Definition value (svec : list Qc) (i : Z) : Qc := default 0 (aget svec i).

End EnergyDifference.

(** *** The per-spin logic of [Anneal] with the draw supplied *)

Section Logic.
Context `{!LibM}.
Local Open Scope Qc_scope.

(** Lines 78-97 for the visit [(temp, sidx)], with [u] the value of
    [crand()/float(RAND_MAX)] should the visit ask for it. *)
Definition anneal_logic (nbs : graph) (svec : list Qc)
    (ev : Qc * nat * Qc) : option (list Qc) :=
  let '(temp, sidx, u) := ev in
  row ← nbs !! sidx;
  ediff ← ediff_loop svec sidx row 0;
  if decide (0 ≤ ediff) then flip svec sidx
  else if decide (u < exp (ediff / temp)) then flip svec sidx
  else Some svec.

End Logic.

(** *** The visits and the draws of a multispin run *)

Section Tape.
Context {R : Type} `{!NumpyRandom R, !LibM}.
Local Open Scope Qc_scope.

(** The update of the packed words at one visit [(temp, sidx)] with the
    batch [rands] (lines 235-275, the accumulators starting at zero). *)
Definition ms_update (nbs : graph) (svec : list Z)
    (ev : Qc * nat * list Qc) : option (list Z) :=
  let '(temp, sidx, rands) := ev in
  row ← nbs !! sidx;
  ediffs ← for_each (ms_nb_step svec sidx) row (replicate 64 0);
  flipmask ← build_mask (signs temp ediffs rands);
  w ← svec !! sidx;
  aset svec sidx (Z.lxor w flipmask).

(** The visits of one sweep, each with the batch of draws it uses. *)
Fixpoint sweep_tape (temp : Qc) (shuff : list nat) (rands : list Qc)
    (rng : R) : list (Qc * nat * list Qc) * (list Qc * R) :=
  match shuff with
  | [] => ([], (rands, rng))
  | sidx :: rest =>
      let '(rands', rng') := rand rng 64 in
      let '(t, fin) := sweep_tape temp rest rands' rng' in
      ((temp, sidx, rands) :: t, fin)
  end.

Fixpoint steps_tape (temp : Qc) (nsteps : nat) (shuff : list nat)
    (rands : list Qc) (rng : R)
  : list (Qc * nat * list Qc) * (list nat * (list Qc * R)) :=
  match nsteps with
  | O => ([], (shuff, (rands, rng)))
  | S n =>
      let '(t1, (rands1, rng1)) := sweep_tape temp shuff rands rng in
      let '(shuff', rng2) := permutation rng1 shuff in
      let '(t2, fin) := steps_tape temp n shuff' rands1 rng2 in
      (t1 ++ t2, fin)
  end.

Fixpoint sched_tape (sched : list Qc) (nsteps : nat) (shuff : list nat)
    (rands : list Qc) (rng : R) : list (Qc * nat * list Qc) :=
  match sched with
  | [] => []
  | temp :: rest =>
      let '(t1, (shuff', (rands', rng'))) :=
        steps_tape temp nsteps shuff rands rng in
      t1 ++ sched_tape rest nsteps shuff' rands' rng'
  end.

(** The tape of [Anneal_multispin] on [nspins] spins. *)
Definition ms_tape (sched : list Qc) (mcsteps : Z) (nspins : nat) (rng : R)
  : list (Qc * nat * list Qc) :=
  let '(rands, rng1) := rand rng 64 in
  let '(shuff, rng2) := permutation rng1 (seq 0 nspins) in
  sched_tape sched (Z.to_nat mcsteps) shuff rands rng2.

(** What replica [k] sees of a tape: its own draw of every batch. *)
Definition replica_tape (k : nat) (t : list (Qc * nat * list Qc))
  : list (Qc * nat * Qc) :=
  (λ '(temp, sidx, rands), (temp, sidx, default 0 (rands !! k))) <$> t.

(** The laws of a generator object: permutations are permutations, a batch
    has the size asked for and its draws are below 1. *)
Definition generator_laws : Prop :=
  (∀ (r : R) l, (permutation r l).1 ≡ₚ l) ∧
  (∀ (r : R) n, length (rand r n).1 = n) ∧
  (∀ (r : R) n u, u ∈ (rand r n).1 → u < 1).

End Tape.

(** The exponential is at least 1 on non-negative arguments. *)
Definition exp_law `{!LibM} : Prop := ∀ x, (0 ≤ x → 1 ≤ exp x)%Qc.

(** *** The packing and the unpacking in closed form *)

(** Appending one binary digit to a word. *)
Definition push_bit (w : Z) (b : bool) : Z :=
  if b then Z.lxor (shl1 w) 1 else shl1 w.

(** The word whose binary digits, most significant first, are [bits]. *)
Definition word_of_bits (bits : list bool) : Z := foldl push_bit 0 bits.

(** The bit the packing stores for a matrix entry. *)
Definition entry_bit (x : Qc) : bool := bool_decide (x ≠ Q2Qc 0).

(** The bits of column [si], first row first. *)
Definition column_bits (m : matrix) (si : nat) : list bool :=
  (λ row, entry_bit (default (Q2Qc 0) (row !! si))) <$> m.

(** The packed array of a matrix of [cols] columns. *)
Definition packed (m : matrix) (cols : nat) : list Z :=
  (λ si, word_of_bits (column_bits m si)) <$> seq 0 cols.

(** The matrix the unpacking writes for the packed array [svec]. *)
Definition decode_words (svec : list Z) : matrix :=
  (λ k, (λ w, float_of_digit (Z.testbit w (63 - Z.of_nat k))) <$> svec)
    <$> seq 0 64.

(** A matrix with column 0 of the rows after the first overwritten by the
    leading binary digits of the 64-bit word [w], the first digit in
    row 1. *)
Definition overwritten (w : Z) (m : matrix) : matrix :=
  imap (λ r (row : list Qc),
          match r with
          | O => row
          | S r' =>
              <[0%nat := float_of_digit (Z.testbit w (63 - Z.of_nat r'))]>
                row
          end) m.

(** What packing then unpacking makes of a matrix entry, and of a matrix. *)
Definition roundtrip_entry (x : Qc) : Qc := float_of_digit (entry_bit x).

Definition roundtrip (m : matrix) : matrix :=
  fmap (M:=list) roundtrip_entry <$> m.

(** *** Kernel applications, and the laws of a generator *)

Section Updates.
Context {R C : Type} `{!NumpyRandom R, !LibC C, !LibM}.

(** One application of the sequential kernel takes configuration [a] to
    [b]. *)
Definition spin_update (nbs : graph) (a b : list Qc) : Prop :=
  ∃ temp sidx (c c' : C), anneal_spin nbs temp (a, c) sidx = Some (b, c').

(** One application of the quantum kernel and of the flip it decides. *)
Definition q_update (neighbors : graph) (a b : matrix) : Prop :=
  ∃ T perpJ islice ispin (rng rng' : R),
    qa_spin neighbors T perpJ islice (a, rng) ispin = Some (b, rng').

(** Permutations are permutations. *)
Definition permutation_law : Prop :=
  ∀ (r : R) l, (permutation r l).1 ≡ₚ l.

End Updates.

(** A visit of a tape over [cols] spins: a positive temperature, a spin
    index, and a batch of 64 draws below 1. *)
Definition valid_visit (cols : nat) (ev : Qc * nat * list Qc) : Prop :=
  (0 < ev.1.1)%Qc ∧ (ev.1.2 < cols)%nat ∧ length ev.2 = 64%nat
  ∧ Forall (λ u, u < 1)%Qc ev.2.

(** A batch of 64 draws below 1. *)
Definition valid_batch (rands : list Qc) : Prop :=
  length rands = 64%nat ∧ Forall (λ u, u < 1)%Qc rands.

(** Entry by entry, [b] is [a] up to sign. *)
Definition same_up_to_sign (a b : list Qc) : Prop :=
  Forall2 (λ x y, y = x ∨ y = (- x)%Qc) a b.


(** ** [ClassicalIsingEnergy]

    The dense matrix [np.asarray(J.todense())] is a list of rows and
    [spins] a list.  numpy raises when the sizes of a product disagree, so
    the products are fallible ([None]).  (A matrix without rows has no
    column count in this representation.) *)

Section Energy.
Local Open Scope Qc_scope.

(** [np.dot] of two vectors: the sizes must agree. *)
Definition dot_vv (a b : list Qc) : option Qc :=
  if decide (length a = length b) then Some (sum_list (zip_with Qcmult a b))
  else None.

(** [np.dot] of a matrix and a vector. *)
Definition dot_mv (m : matrix) (v : list Qc) : option (list Qc) :=
  mapM (λ row, dot_vv row v) m.

(** [np.diag] of a matrix: its main diagonal. *)
Definition diag_of (m : matrix) : list Qc :=
  omap id (imap (λ i (row : list Qc), row !! i) m).

(** [np.diag] of a vector: the square matrix with the vector on its
    diagonal. *)
Definition diag_matrix (v : list Qc) : matrix :=
  imap (λ i x, <[i := x]> (replicate (length v) 0)) v.

(** [np.fill_diagonal(J, x)]. *)
Definition fill_diagonal (m : matrix) (x : Qc) : matrix :=
  imap (λ i (row : list Qc), <[i := x]> row) m.

(** The energy of the configuration [spins] for the couplings [J], whose
    diagonal holds the biases (lines 31-34). *)
Definition ClassicalIsingEnergy (spins : list Qc) (J : matrix) : option Qc :=
  let d := diag_matrix (diag_of J) in
  let J := fill_diagonal J 0 in
  q ← (Jv ← dot_mv J spins; dot_vv spins Jv);
  l ← dot_mv d spins;
  Some (- q - sum_list l).

(** *** Notions for the properties of the energy *)

(** The sum of [f 0], ..., [f (n - 1)]. *)
Definition bigsum (n : nat) (f : nat → Qc) : Qc := sum_list (f <$> seq 0 n).

(** Entry [i, j] of a matrix and entry [i] of a vector. *)
Definition entry (m : matrix) (i j : nat) : Qc :=
  default 0 (m !! i ≫= (.!! j)).
Definition at_index (v : list Qc) (i : nat) : Qc := default 0 (v !! i).

(** The Ising energy as a sum: every ordered pair of distinct spins with
    its coupling, every spin with its bias. *)
Definition ising_sum (n : nat) (J : matrix) (s : list Qc) : Qc :=
  - bigsum n (λ i, bigsum n (λ j,
        if decide (i = j) then 0
        else at_index s i * (entry J i j * at_index s j)))
  - bigsum n (λ i, entry J i i * at_index s i).

(** The neighbour row of spin [i] for the couplings [J]: every other spin
    [j] with [J[i,j] + J[j,i]], and [i] itself with the bias [J[i,i]]. *)
Definition coupling_row (J : matrix) (i : nat) : list (Qc * Qc) :=
  imap (λ j x, (float_of_int (Z.of_nat j),
                if decide (j = i) then x else x + entry J j i))
       (default [] (J !! i)).

End Energy.

(** ** Inputs of the examples *)

Definition ex_svec : list Qc := [fl 1 1; fl (-1) 1].
Definition ex_row : list (Qc * Qc) := [(fl 0 1, fl 1 2); (fl 1 1, fl 3 1)].
Definition ex_ring : list Qc := [fl 1 1; fl (-1) 1; fl 1 1; fl (-1) 1].

(** One spin and two spins without bias or coupling. *)
Definition free_spin : graph := [[(fl 0 1, fl 0 1)]].
Definition two_free_spins : graph :=
  [[(fl 1 1, fl 0 1)]; [(fl 0 1, fl 0 1)]].

(** 64 replicas of two spins in the 0/1 encoding. *)
Definition ex_matrix : matrix := replicate 64 [fl 0 1; fl 1 1].

(** Two spins with a ferromagnetic coupling. *)
Definition ex_graph : graph := [[(fl 1 1, fl 1 1)]; [(fl 0 1, fl 1 1)]].

(** A script of draws all equal to one half. *)
Definition half_script : list Qc := replicate 200 half.

(** 64 replicas of two spins, every spin -1 (entry 1). *)
Definition ex_ones : matrix := replicate 64 [fl 1 1; fl 1 1].


(** [ex_matrix] with another second replica. *)
Definition ex_matrix' : matrix := <[1%nat := [fl 1 1; fl 1 1]]> ex_matrix.

(** One spin whose neighbour slot names a second spin. *)
Definition ex_stray_graph : graph := [[(fl 1 1, fl 1 1)]].

(** Couplings of two spins: a bond of strength 1, without and with a bias
    on the first spin. *)
Definition ex_bonds : matrix := [[fl 0 1; fl 1 1]; [fl 1 1; fl 0 1]].
Definition ex_couplings : matrix := [[fl 1 2; fl 1 1]; [fl 1 1; fl 0 1]].

(** * Properties *)

Section Loops.
Context {I S : Type}.
Implicit Types (body : S → I → option S) (l : list I) (s : S).

Lemma for_each_app body l1 l2 s :
  for_each body (l1 ++ l2) s = for_each body l1 s ≫= for_each body l2.
Proof.
  revert s; induction l1 as [|i l1 IH]; intros s; simpl; [done|].
  destruct (body s i); simpl; auto.
Qed.

Lemma for_each_invariant (P : S → Prop) body l s s' :
  (∀ a i b, i ∈ l → P a → body a i = Some b → P b) →
  P s → for_each body l s = Some s' → P s'.
Proof.
  revert s; induction l as [|i l IH]; intros s Hstep Hs Hrun; simpl in *.
  - by simplify_eq.
  - destruct (body s i) as [s1|] eqn:Hb; simplify_eq/=.
    eapply IH; [|eapply Hstep; [left|done..]|done].
    intros a j b Hj; apply Hstep; by right.
Qed.

Lemma for_each_ext body1 body2 l s :
  (∀ a i, i ∈ l → body1 a i = body2 a i) →
  for_each body1 l s = for_each body2 l s.
Proof.
  revert s; induction l as [|i l IH]; intros s Hext; simpl; [done|].
  rewrite Hext by left. destruct (body2 s i); simpl; [|done].
  apply IH. intros a j Hj; apply Hext; by right.
Qed.

End Loops.

Lemma aget_valid {A} (a : list A) (i : Z) :
  0 ≤ i < Z.of_nat (length a) → ∃ x, aget a i = Some x ∧ a !! Z.to_nat i = Some x.
Proof.
  intros Hi. unfold aget. rewrite decide_True by lia.
  destruct (lookup_lt_is_Some_2 a (Z.to_nat i)) as [x Hx]; [lia|]. eauto.
Qed.

Lemma aget_of_nat {A} (a : list A) (i : nat) : aget a (Z.of_nat i) = a !! i.
Proof. unfold aget. rewrite decide_True by lia. by rewrite Nat2Z.id. Qed.

Lemma aget_fmap {A B} (f : A → B) (a : list A) (i : Z) :
  aget (f <$> a) i = f <$> aget a i.
Proof. unfold aget. case_decide; [apply list_lookup_fmap|done]. Qed.

Section SequentialSum.
Local Open Scope Qc_scope.

Lemma sum_list_cons x l : sum_list (x :: l) = x + sum_list l.
Proof. done. Qed.

Lemma nb_step_contribution svec sidx s e nb :
  svec !! sidx = Some s →
  (0 ≤ int_of_float nb.1 < Z.of_nat (length svec))%Z →
  nb_step svec sidx e nb = Some (e + pair_contribution (value svec) sidx s nb).
Proof.
  intros Hs Hnb. unfold nb_step, pair_contribution, value.
  destruct (aget_valid svec _ Hnb) as (sn & -> & _).
  rewrite Hs. case_decide; simpl; f_equal; ring.
Qed.

Lemma ediff_loop_sum svec sidx s row e :
  svec !! sidx = Some s → valid_row (length svec) row →
  ediff_loop svec sidx row e = Some (e + neighbour_sum (value svec) sidx s row).
Proof.
  intros Hs Hrow. revert e. unfold ediff_loop, neighbour_sum.
  induction Hrow as [|nb row Hnb Hrow IH]; intros e.
  - simpl. f_equal. unfold sum_list; simpl. ring.
  - rewrite fmap_cons, sum_list_cons. cbn [for_each].
    rewrite (nb_step_contribution _ _ s) by done. simpl.
    rewrite IH. f_equal. ring.
Qed.

End SequentialSum.

Lemma aset_Some {A} (a : list A) i x :
  (i < length a)%nat → aset a i x = Some (<[i := x]> a).
Proof. intros. unfold aset. by rewrite decide_True. Qed.

(** A loop that updates slot [k] at iteration [k]. *)
Lemma for_each_update {A} (f : nat → A → A) (a n : nat) (l : list A) :
  (a + n ≤ length l)%nat →
  ∃ l', for_each (λ l k, x ← l !! k; aset l k (f k x)) (seq a n) l = Some l' ∧
        length l' = length l ∧
        ∀ k, l' !! k =
             (λ x, if decide (a ≤ k < a + n)%nat then f k x else x) <$> l !! k.
Proof.
  revert a l; induction n as [|n IH]; intros a l Hlen; simpl.
  - exists l; split_and!; [done..|]. intros k.
    destruct (l !! k); simpl; [|done]. by rewrite decide_False by lia.
  - destruct (lookup_lt_is_Some_2 l a) as [x Hx]; [lia|].
    rewrite Hx; simpl. rewrite aset_Some by lia; simpl.
    destruct (IH (Datatypes.S a) (<[a := f a x]> l)) as (l' & Hrun & Hl' & Hlook).
    { rewrite length_insert. lia. }
    exists l'; split_and!; [done|by rewrite Hl', length_insert|].
    intros k. rewrite Hlook. destruct (decide (k = a)) as [->|Hne].
    + rewrite list_lookup_insert_eq by lia. rewrite Hx; simpl.
      rewrite decide_False by lia. by rewrite decide_True by lia.
    + rewrite list_lookup_insert_ne by done. destruct (l !! k); simpl; [|done].
      f_equal. repeat case_decide; done || lia.
Qed.

Lemma getbit_testbit s k : 0 ≤ k → getbit s k = Z.testbit s k.
Proof.
  intros Hk. unfold getbit.
  change 1 with (Z.ones 1). rewrite Z.land_ones by lia.
  rewrite <- Z.bit0_mod, Z.shiftr_spec, Z.add_0_l by lia.
  by destruct (Z.testbit s k).
Qed.

Section KernelSums.
Local Open Scope Qc_scope.

(** The loop over bits adds, in slot [k], the term of the bit of
    replica [k]. *)
Lemma bit_loop_spec w jval ediffs :
  length ediffs = 64%nat →
  ∃ ediffs', bit_loop w jval ediffs = Some ediffs' ∧ length ediffs' = 64%nat ∧
    ∀ k, (k < 64)%nat →
      ediffs' !! k =
        (λ e, e + (-2) * replica_spin k w * jval) <$> ediffs !! k.
Proof.
  intros Hlen. unfold bit_loop.
  destruct (for_each_update
    (λ k e, if negb (getbit w (63 - Z.of_nat k)) then e - 2 * jval
            else e + 2 * jval) 0 64 ediffs) as (l' & Hrun & Hl' & Hlook);
    [lia|].
  exists l'. split_and!; [|lia|].
  - rewrite <- Hrun. apply for_each_ext. intros a k _. unfold bit_step.
    destruct (a !! k); simpl; [|done]. by destruct (negb _).
  - intros k Hk. rewrite Hlook. destruct (ediffs !! k); simpl; [|done].
    rewrite decide_True by lia. f_equal.
    unfold replica_spin. rewrite getbit_testbit by lia.
    destruct (Z.testbit w _); simpl; ring.
Qed.

Lemma replica_lookup k words i :
  replica k words !! i = replica_spin k <$> words !! i.
Proof. apply list_lookup_fmap. Qed.

Lemma replica_length k words : length (replica k words) = length words.
Proof. apply length_fmap. Qed.

Lemma spin_of_bit_xor a b :
  spin_of_bit (xorb a b) = spin_of_bit a * spin_of_bit b.
Proof. destruct a, b; simpl; ring. Qed.

Lemma spin_of_bit_square b : spin_of_bit b * spin_of_bit b = 1.
Proof. destruct b; simpl; ring. Qed.

(** One neighbour slot of the multispin kernel adds, in slot [k], what the
    pair contributes in replica [k]. *)
Lemma ms_nb_step_spec words sidx w ediffs nb :
  length ediffs = 64%nat → words !! sidx = Some w →
  (0 ≤ int_of_float nb.1 < Z.of_nat (length words))%Z →
  ∃ ediffs', ms_nb_step words sidx ediffs nb = Some ediffs' ∧
    length ediffs' = 64%nat ∧
    ∀ k, (k < 64)%nat →
      ediffs' !! k =
        (λ e, e + pair_contribution (value (replica k words)) sidx
                    (replica_spin k w) nb) <$> ediffs !! k.
Proof.
  intros Hlen Hw Hnb. unfold ms_nb_step, pair_contribution.
  rewrite Hw; simpl. destruct (aget_valid words _ Hnb) as (wn & Hwn & _).
  case_decide as Hself.
  - destruct (bit_loop_spec w nb.2 ediffs Hlen) as (e' & -> & ? & Hlook).
    exists e'; split_and!; [done..|]. intros k Hk. by rewrite Hlook.
  - rewrite Hwn; simpl.
    destruct (bit_loop_spec (Z.lxor w wn) nb.2 ediffs Hlen)
      as (e' & -> & ? & Hlook).
    exists e'; split_and!; [done..|]. intros k Hk. rewrite Hlook by done.
    destruct (ediffs !! k); simpl; [|done]. f_equal. f_equal.
    unfold value, replica. rewrite aget_fmap, Hwn; simpl.
    unfold replica_spin. rewrite Z.lxor_spec, spin_of_bit_xor. ring.
Qed.

Lemma ms_nb_loop_spec words sidx w row ediffs :
  length ediffs = 64%nat → words !! sidx = Some w →
  valid_row (length words) row →
  ∃ ediffs', for_each (ms_nb_step words sidx) row ediffs = Some ediffs' ∧
    length ediffs' = 64%nat ∧
    ∀ k, (k < 64)%nat →
      ediffs' !! k =
        (λ e, e + neighbour_sum (value (replica k words)) sidx
                    (replica_spin k w) row) <$> ediffs !! k.
Proof.
  intros Hlen Hw Hrow. revert ediffs Hlen.
  induction Hrow as [|nb row Hnb Hrow IH]; intros ediffs Hlen.
  - exists ediffs; split_and!; [done..|]. intros k Hk.
    destruct (ediffs !! k); simpl; [|done]. f_equal.
    unfold neighbour_sum, sum_list; simpl. ring.
  - destruct (ms_nb_step_spec words sidx w ediffs nb Hlen Hw Hnb)
      as (e1 & Hstep & Hlen1 & Hlook1).
    destruct (IH e1 Hlen1) as (e2 & Hrun & Hlen2 & Hlook2).
    exists e2; split_and!; [|done|].
    + cbn [for_each]. by rewrite Hstep.
    + intros k Hk. rewrite Hlook2, Hlook1 by done.
      destruct (ediffs !! k); simpl; [|done]. f_equal.
      unfold neighbour_sum. rewrite fmap_cons, sum_list_cons. ring.
Qed.

(** The scratch slot of the parallel kernel accumulates the same sum. *)
Lemma par_nb_loop_spec svec sidx s row ediffs e :
  svec !! sidx = Some s → valid_row (length svec) row →
  ediffs !! sidx = Some e →
  for_each (par_nb_step svec sidx) row ediffs =
    Some (<[sidx := e + neighbour_sum (value svec) sidx s row]> ediffs).
Proof.
  intros Hs Hrow. revert ediffs e.
  induction Hrow as [|nb row Hnb Hrow IH]; intros ediffs e He.
  - simpl. f_equal. unfold neighbour_sum, sum_list; simpl.
    rewrite Qcplus_0_r. by rewrite list_insert_id.
  - cbn [for_each]. unfold par_nb_step at 1.
    destruct (aget_valid svec _ Hnb) as (sn & Hsn & _).
    assert (sidx < length ediffs)%nat by (by eapply lookup_lt_Some).
    assert (par_nb_step svec sidx ediffs nb =
      Some (<[sidx := e + pair_contribution (value svec) sidx s nb]> ediffs))
      as ->.
    { unfold par_nb_step, pair_contribution, value. rewrite He, Hs, Hsn.
      case_decide; simpl; rewrite aset_Some by done; do 2 f_equal; ring. }
    simpl. erewrite IH; [|by rewrite list_lookup_insert_eq].
    rewrite list_insert_insert_eq. do 2 f_equal.
    unfold neighbour_sum. rewrite fmap_cons, sum_list_cons. ring.
Qed.

End KernelSums.

Section EnergyClaim.
Local Open Scope Qc_scope.

(** C1.  In every kernel the energy difference of the visited spin is the
    sum, over its whole neighbour row, of what each pair contributes:
    [-2 * s * j] for a pair whose neighbour index is the spin's own (the
    spin's value once), [-2 * s * j * s_nb] for any other pair.  This is the
    value of [ediff] in the sequential kernel, of the spin's scratch slot in
    the parallel kernel, of the loop over the neighbour pairs in the quantum
    kernel (to which C7 adds the two slice terms), and of slot [k] of the
    multispin accumulators for the spins that replica [k] encodes. *)
Theorem C1_energy_difference (svec : list Qc) (sidx : nat) (s : Qc)
    (row : list (Qc * Qc)) :
  svec !! sidx = Some s → valid_row (length svec) row →
  let total := neighbour_sum (value svec) sidx s row in
  ediff_loop svec sidx row 0 = Some total
  ∧ (∀ ediffs, (sidx < length ediffs)%nat →
       for_each (par_nb_step svec sidx) row (<[sidx := 0]> ediffs)
         ≫= (.!! sidx) = Some total)
  ∧ for_each (q_nb_step svec sidx) row 0 = Some total
  ∧ (∀ words k, (k < 64)%nat → replica k words = svec →
       for_each (ms_nb_step words sidx) row (replicate 64 0)
         ≫= (.!! k) = Some total).
Proof.
  intros Hs Hrow total. split_and!.
  - rewrite (ediff_loop_sum _ _ s) by done. f_equal. apply Qcplus_0_l.
  - intros ediffs Hlt.
    rewrite (par_nb_loop_spec _ _ s _ _ 0) by
      (done || by rewrite list_lookup_insert_eq).
    simpl. rewrite list_lookup_insert_eq by (by rewrite length_insert).
    f_equal. apply Qcplus_0_l.
  - change (ediff_loop svec sidx row 0 = Some total).
    rewrite (ediff_loop_sum _ _ s) by done. f_equal. apply Qcplus_0_l.
  - intros words k Hk <-.
    rewrite replica_lookup in Hs. destruct (words !! sidx) as [w|] eqn:Hw;
      [|done]. apply (inj Some) in Hs as <-.
    rewrite replica_length in Hrow.
    destruct (ms_nb_loop_spec words sidx w row (replicate 64 0))
      as (e' & -> & _ & Hlook); [by rewrite length_replicate|done..|].
    cbn [mbind option_bind]. rewrite Hlook, lookup_replicate_2 by done.
    cbn [fmap option_fmap option_map]. f_equal. apply Qcplus_0_l.
Qed.

(** C1 on a spin with a bias and one neighbour. *)
Lemma C1_energy_difference_witness :
  ediff_loop ex_svec 0 ex_row 0 =
    Some (neighbour_sum (value ex_svec) 0 (fl 1 1) ex_row).
Proof.
  refine (proj1 (C1_energy_difference ex_svec 0 (fl 1 1) ex_row _ _)).
  - reflexivity.
  - repeat constructor; vm_compute; congruence.
Defined.

End EnergyClaim.

Section Decisions.
Context {R C : Type} `{!NumpyRandom R, !LibC C, !LibM}.
Local Open Scope Qc_scope.

Lemma flip_Some svec sidx s :
  svec !! sidx = Some s → flip svec sidx = Some (<[sidx := s * (-1)]> svec).
Proof.
  intros Hs. unfold flip. rewrite Hs; simpl.
  apply aset_Some. by eapply lookup_lt_Some.
Qed.

(** The sequential decision: without a draw when [ediff >= 0]. *)
Lemma metropolis_nonneg temp ediff svec sidx s (c : C) :
  0 ≤ ediff → svec !! sidx = Some s →
  metropolis temp ediff svec sidx c = Some (<[sidx := s * (-1)]> svec, c).
Proof.
  intros He Hs. unfold metropolis. rewrite decide_True by done.
  by rewrite (flip_Some _ _ s).
Qed.

(** The sequential decision: one draw when [ediff < 0]. *)
Lemma metropolis_neg temp ediff svec sidx s (c : C) :
  ediff < 0 → svec !! sidx = Some s →
  metropolis temp ediff svec sidx c =
    Some (if decide ((cdraw c).1 < exp (ediff / temp))
          then <[sidx := s * (-1)]> svec else svec, (cdraw c).2).
Proof.
  intros He Hs. unfold metropolis.
  rewrite decide_False by (by apply Qclt_not_le).
  destruct (cdraw c) as [u c']; simpl. case_decide; [|done].
  by rewrite (flip_Some _ _ s).
Qed.

(** The parallel decision is the sequential one away from [ediff = 0]. *)
Lemma par_metropolis_nonzero temp ediff svec sidx (c : C) :
  ediff ≠ 0 →
  par_metropolis temp ediff svec sidx c = metropolis temp ediff svec sidx c.
Proof.
  intros Hne. unfold par_metropolis, metropolis.
  destruct (decide (0 < ediff)) as [Hlt|Hnlt].
  - by rewrite decide_True by (by apply Qclt_le_weak).
  - rewrite decide_False; [done|]. intros Hle.
    apply Qcle_lt_or_eq in Hle as [?|?]; done.
Qed.

(** At [ediff = 0] the parallel decision and the quantum decision go
    through the draw. *)
Lemma par_metropolis_zero temp svec sidx s (c : C) :
  svec !! sidx = Some s →
  par_metropolis temp 0 svec sidx c =
    Some (if decide ((cdraw c).1 < exp (0 / temp))
          then <[sidx := s * (-1)]> svec else svec, (cdraw c).2).
Proof.
  intros Hs. unfold par_metropolis.
  rewrite decide_False by (intros Hlt; by apply Qclt_not_eq in Hlt).
  destruct (cdraw c) as [u c']; simpl. case_decide; [|done].
  by rewrite (flip_Some _ _ s).
Qed.

Lemma q_decide_zero (rng : R) T :
  T ≠ 0 →
  q_decide rng 0 T =
    Some (bool_decide ((uniform rng 0 1).1 < exp (0 / T)),
          (uniform rng 0 1).2).
Proof.
  intros HT. unfold q_decide.
  rewrite decide_False by (intros Hlt; by apply Qclt_not_eq in Hlt).
  rewrite decide_False by done.
  destruct (uniform rng 0 1) as [u rng']; simpl.
  by case_decide; [rewrite bool_decide_true|rewrite bool_decide_false].
Qed.

End Decisions.

Section Divergences.
Local Open Scope Qc_scope.

(** C2, where the code departs from it.  At [ediff = 0] only the sequential
    engine accepts without a draw.  One spin of value 1 with a zero bias,
    temperature 1, [crand()] returning [RAND_MAX]: [Anneal_parallel]
    compares [exp(0/1)] with the draw 1, consumes it and leaves the spin
    unflipped, where [Anneal] flips it and leaves the generator alone; the
    quantum decision at [ediff = 0] also takes its draw from the generator. *)
Theorem C2_parallel_draws_at_zero :
  Anneal_parallel [fl 1 1] 1 [fl 1 1] free_spin 1 [RAND_MAX]
    = Some ([fl 1 1], [])
  ∧ Anneal [fl 1 1] 1 [fl 1 1] free_spin ([] : list Qc) [RAND_MAX]
    = Some ([fl (-1) 1], [RAND_MAX], [])
  ∧ q_decide [fl 1 2] 0 (fl 1 1) = Some (true, []).
Proof. by vm_compute. Qed.

(** C4, where the code departs from it.  Same spin value, neighbour list,
    temperature and draw: the energy difference is 0, the sequential update
    flips the spin without a draw and the parallel update, given the draw 1,
    leaves it. *)
Theorem C4_parallel_update_differs :
  ediff_loop [fl 1 1; fl 1 1] 0 [(fl 1 1, fl 0 1)] 0 = Some 0
  ∧ anneal_spin two_free_spins (fl 1 1) ([fl 1 1; fl 1 1], [RAND_MAX]) 0
    = Some ([fl (-1) 1; fl 1 1], [RAND_MAX])
  ∧ par_spin two_free_spins (fl 1 1)
      ([fl 1 1; fl 1 1], [RAND_MAX], [0; 0]) 0
    = Some ([fl 1 1; fl 1 1], [], [0; 0]).
Proof. by vm_compute. Qed.

End Divergences.

Section TrotterRing.
Local Open Scope Qc_scope.

Lemma trotter_neighbours_ring (P tidx : Z) :
  (2 ≤ P → 0 ≤ tidx ≤ P - 1 →
   trotter_neighbours P tidx = ((tidx - 1) `mod` P, (tidx + 1) `mod` P))%Z.
Proof.
  intros HP Ht. unfold trotter_neighbours. repeat case_decide; subst.
  - change (0 - 1)%Z with (- 1)%Z. f_equal.
    + replace (-1)%Z with (P - 1 + (-1) * P)%Z by lia.
      rewrite Z.mod_add by lia. by rewrite Z.mod_small by lia.
    + by rewrite Z.mod_small by lia.
  - f_equal.
    + rewrite Z.mod_small by lia. lia.
    + replace (P - 1 + 1)%Z with P by lia. by rewrite Z.mod_same by lia.
  - by rewrite !Z.mod_small by lia.
Qed.

(** C7.  For [P >= 2] slices and a slice index in [0, P-1], the quantum
    kernel takes the left and right neighbour slices on the periodic ring:
    [(P-1, 1)] at slice 0, [(P-2, 0)] at slice [P-1], [(tidx-1, tidx+1)] in
    between; the energy difference is the neighbour sum plus
    [-2 * s * (jperp * v)] for the value [v] of the same spin in each of the
    two slices. *)
Theorem C7_trotter_ring (svec tvec : list Qc) (sidx tidx : nat) (s : Qc)
    (nb_pairs : list (Qc * Qc)) (jperp : Qc) :
  let P := Z.of_nat (length tvec) in
  (2 ≤ P)%Z → (0 ≤ Z.of_nat tidx ≤ P - 1)%Z →
  svec !! sidx = Some s → valid_row (length svec) nb_pairs →
  ∃ tleft tright vl vr,
    trotter_neighbours P (Z.of_nat tidx) = (tleft, tright)
    ∧ (Z.of_nat tidx = 0 → tleft = P - 1 ∧ tright = 1)%Z
    ∧ (Z.of_nat tidx = P - 1 → tleft = P - 2 ∧ tright = 0)%Z
    ∧ (0 < Z.of_nat tidx < P - 1 →
         tleft = Z.of_nat tidx - 1 ∧ tright = Z.of_nat tidx + 1)%Z
    ∧ aget tvec tleft = Some vl ∧ aget tvec tright = Some vr
    ∧ q_ediff svec tvec sidx tidx nb_pairs jperp =
        Some (neighbour_sum (value svec) sidx s nb_pairs
              + (-2) * s * (jperp * vl) + (-2) * s * (jperp * vr)).
Proof.
  intros P HP Ht Hs Hrow.
  destruct (trotter_neighbours P (Z.of_nat tidx)) as [tleft tright] eqn:Hn.
  assert ((0 ≤ tleft < P) ∧ (0 ≤ tright < P))%Z as [Hl Hr].
  { rewrite trotter_neighbours_ring in Hn by done. simplify_eq.
    split; apply Z.mod_pos_bound; lia. }
  destruct (aget_valid tvec tleft Hl) as (vl & Hvl & _).
  destruct (aget_valid tvec tright Hr) as (vr & Hvr & _).
  exists tleft, tright, vl, vr. split_and!; [done|..|done|done|].
  - intros H0. unfold trotter_neighbours in Hn.
    rewrite decide_True in Hn by done. by simplify_eq.
  - intros HP1. unfold trotter_neighbours in Hn.
    rewrite decide_False, decide_True in Hn by lia. by simplify_eq.
  - intros Hmid. unfold trotter_neighbours in Hn.
    rewrite !decide_False in Hn by lia. by simplify_eq.
  - unfold q_ediff. fold P. rewrite Hn.
    change (for_each (q_nb_step svec sidx) nb_pairs 0)
      with (ediff_loop svec sidx nb_pairs 0).
    rewrite (ediff_loop_sum _ _ s) by done. simpl.
    rewrite Hs, Hvl, Hvr. simpl. f_equal. ring.
Qed.

(** C7 on a ring of four slices, at slice 0. *)
Lemma C7_trotter_ring_witness :
  ∃ tleft tright vl vr,
    trotter_neighbours 4 0 = (tleft, tright)
    ∧ aget ex_ring tleft = Some vl ∧ aget ex_ring tright = Some vr
    ∧ q_ediff ex_svec ex_ring 0 0 ex_row (fl 1 2) =
        Some (neighbour_sum (value ex_svec) 0 (fl 1 1) ex_row
              + (-2) * fl 1 1 * (fl 1 2 * vl) + (-2) * fl 1 1 * (fl 1 2 * vr)).
Proof.
  destruct (C7_trotter_ring ex_svec ex_ring 0 0 (fl 1 1) ex_row (fl 1 2))
    as (tl & tr & vl & vr & H1 & _ & _ & _ & H2 & H3 & H4).
  - simpl; lia.
  - simpl; lia.
  - reflexivity.
  - repeat constructor; vm_compute; congruence.
  - exists tl, tr, vl, vr. exact (conj H1 (conj H2 (conj H3 H4))).
Defined.

End TrotterRing.

Lemma push_bit_small w b :
  0 ≤ w < 2 ^ 63 → push_bit w b = 2 * w + Z.b2z b.
Proof.
  intros Hw. unfold push_bit, shl1.
  rewrite Z.shiftl_mul_pow2, Z.mod_small by lia.
  change (2 ^ 1) with 2. destruct b; simpl; [|lia].
  rewrite <- Z.add_nocarry_lxor; [lia|].
  change 1 with (Z.ones 1). rewrite Z.land_ones by lia.
  apply Z.mod_mul. lia.
Qed.

Lemma word_of_bits_snoc bits b :
  word_of_bits (bits ++ [b]) = push_bit (word_of_bits bits) b.
Proof. unfold word_of_bits. by rewrite foldl_app. Qed.

Lemma word_of_bits_spec bits :
  (length bits ≤ 64)%nat →
  0 ≤ word_of_bits bits < 2 ^ Z.of_nat (length bits) ∧
  ∀ j, (j < length bits)%nat →
    bits !! (length bits - 1 - j)%nat
      = Some (Z.testbit (word_of_bits bits) (Z.of_nat j)).
Proof.
  induction bits as [|b bits IH] using rev_ind; intros Hlen.
  - split; [done|]. simpl; lia.
  - rewrite length_app in *. simpl in *.
    destruct IH as [Hrange Hbits]; [lia|].
    rewrite word_of_bits_snoc, push_bit_small; last first.
    { split; [lia|]. eapply Z.lt_le_trans; [apply Hrange|].
      apply Z.pow_le_mono_r; lia. }
    split.
    + replace (Z.of_nat (length bits + 1)) with (Z.succ (Z.of_nat (length bits)))
        by lia.
      rewrite Z.pow_succ_r by lia. destruct b; simpl; lia.
    + intros j Hj. destruct j as [|j].
      * rewrite Z.testbit_0_r.
        rewrite lookup_app_r by lia.
        by replace (length bits + 1 - 1 - 0 - length bits)%nat with 0%nat by lia.
      * rewrite Nat2Z.inj_succ, Z.testbit_succ_r by lia.
        rewrite lookup_app_l by lia. rewrite <- Hbits by lia.
        f_equal. lia.
Qed.

Lemma word_of_bits_word bits :
  (length bits ≤ 64)%nat → is_word (word_of_bits bits).
Proof.
  intros Hlen. destruct (word_of_bits_spec bits Hlen) as [[H0 Hlt] _].
  split; [done|]. eapply Z.lt_le_trans; [done|].
  apply Z.pow_le_mono_r; lia.
Qed.

(** The digit of replica [k] in a word of 64 digits. *)
Lemma word_of_bits_replica bits k :
  length bits = 64%nat → (k < 64)%nat →
  bits !! k = Some (Z.testbit (word_of_bits bits) (63 - Z.of_nat k)).
Proof.
  intros Hlen Hk.
  destruct (word_of_bits_spec bits) as [_ Hbits]; [lia|].
  replace (63 - Z.of_nat k) with (Z.of_nat (63 - k)) by lia.
  rewrite <- Hbits by lia. f_equal. lia.
Qed.

(** A loop that reads digit [k] at iteration [k] and appends it. *)
Lemma for_each_push_bits (bits : list bool) (a n : nat) (w : Z) :
  (a + n ≤ length bits)%nat →
  for_each (λ w k, b ← bits !! k; Some (push_bit w b)) (seq a n) w
    = Some (foldl push_bit w (take n (drop a bits))).
Proof.
  revert a w; induction n as [|n IH]; intros a w Hlen; simpl; [done|].
  destruct (lookup_lt_is_Some_2 bits a) as [b Hb]; [lia|].
  rewrite Hb; simpl. rewrite IH by lia.
  rewrite (drop_S _ _ _ Hb). done.
Qed.

Lemma build_mask_spec (sign : list bool) :
  length sign = 64%nat → build_mask sign = Some (word_of_bits sign).
Proof.
  intros Hlen. unfold build_mask.
  destruct sign as [|b0 sign]; [done|]. simpl.
  transitivity (for_each (λ w k, b ← (b0 :: sign) !! k; Some (push_bit w b))
                  (seq 1 63) (push_bit 0 b0)).
  - by destruct b0.
  - rewrite for_each_push_bits by (simpl in *; lia).
    f_equal. unfold word_of_bits. cbn [foldl drop].
    rewrite drop_0, take_ge; [done|]. cbn [length] in Hlen. lia.
Qed.

Lemma for_each_ext_inv {I S} (P : S → Prop) (body1 body2 : S → I → option S)
    l s :
  P s →
  (∀ a i b, i ∈ l → P a → body2 a i = Some b → P b) →
  (∀ a i, i ∈ l → P a → body1 a i = body2 a i) →
  for_each body1 l s = for_each body2 l s.
Proof.
  revert s; induction l as [|i l IH]; intros s Hs Hpres Hext; simpl; [done|].
  rewrite Hext by (done || left).
  destruct (body2 s i) as [s1|] eqn:Hb; simpl; [|done].
  apply IH.
  - eapply Hpres; [left|done..].
  - intros a j b Hj. apply Hpres. by right.
  - intros a j Hj. apply Hext. by right.
Qed.

Lemma has_shape_lookup rows cols (m : matrix) k :
  has_shape rows cols m → (k < rows)%nat →
  ∃ row, m !! k = Some row ∧ length row = cols.
Proof.
  intros [Hlen Hrows] Hk.
  destruct (lookup_lt_is_Some_2 m k) as [row Hrow]; [lia|].
  exists row; split; [done|]. by eapply (Forall_lookup_1 _ _ _ _ Hrows).
Qed.

Lemma has_shape_shape1 rows cols (m : matrix) :
  has_shape rows cols m → (0 < rows)%nat → shape1 m = cols.
Proof.
  intros Hm Hr. destruct (has_shape_lookup _ _ _ 0 Hm Hr) as (row & H0 & Hl).
  destruct m; simplify_eq/=. done.
Qed.

Lemma column_bits_length m si : length (column_bits m si) = length m.
Proof. apply length_fmap. Qed.

Lemma column_bits_lookup (m : matrix) si k row x :
  m !! k = Some row → row !! si = Some x →
  column_bits m si !! k = Some (entry_bit x).
Proof.
  intros Hrow Hx. unfold column_bits.
  rewrite list_lookup_fmap, Hrow. simpl. by rewrite Hx.
Qed.

(** Packing one column appends the bits of its entries to the word. *)
Lemma pack_col_steps rows cols m si (a n : nat) svec w :
  has_shape rows cols m → (si < cols)%nat → (a + n ≤ rows)%nat →
  svec !! si = Some w →
  for_each (pack_step m si) (seq a n) svec
    = Some (<[si := foldl push_bit w (take n (drop a (column_bits m si)))]> svec).
Proof.
  intros Hm Hsi. revert a svec w.
  induction n as [|n IH]; intros a svec w Han Hw.
  - simpl. by rewrite list_insert_id.
  - cbn [seq for_each].
    destruct (has_shape_lookup _ _ _ a Hm) as (row & Hrow & Hlen); [lia|].
    destruct (lookup_lt_is_Some_2 row si) as [x Hx]; [lia|].
    assert (pack_step m si svec a = Some (<[si := push_bit w (entry_bit x)]> svec))
      as ->.
    { unfold pack_step. rewrite Hw, Hrow. simpl. rewrite Hx. simpl.
      rewrite aset_Some by (by eapply lookup_lt_Some).
      do 2 f_equal. unfold push_bit, entry_bit.
      by destruct (decide (x ≠ Q2Qc 0)); [rewrite bool_decide_true|rewrite bool_decide_false]. }
    simpl. assert (si < length svec)%nat by (by eapply lookup_lt_Some).
    rewrite (IH _ _ (push_bit w (entry_bit x))) by
      (lia || by rewrite list_lookup_insert_eq).
    rewrite list_insert_insert_eq. do 2 f_equal.
    rewrite (drop_S _ (entry_bit x) a) by (by eapply column_bits_lookup).
    reflexivity.
Qed.

Lemma pack_col_spec rows cols m si svec w :
  has_shape rows cols m → (si < cols)%nat → svec !! si = Some w →
  pack_col m svec si
    = Some (<[si := foldl push_bit w (column_bits m si)]> svec).
Proof.
  intros Hm Hsi Hw. unfold pack_col.
  rewrite (pack_col_steps rows cols _ _ _ _ _ w) by (done || destruct Hm; lia).
  rewrite drop_0, take_ge; [done|]. rewrite column_bits_length. lia.
Qed.

(** The packed array of a matrix: word [i] holds the bits of column [i]. *)
Lemma pack_spec rows cols m :
  has_shape rows cols m → (0 < rows)%nat →
  pack m (replicate (shape1 m) 0)
    = Some ((λ si, word_of_bits (column_bits m si)) <$> seq 0 cols).
Proof.
  intros Hm Hr. unfold pack. rewrite (has_shape_shape1 _ _ _ Hm Hr).
  destruct (for_each_update (λ si w, foldl push_bit w (column_bits m si))
              0 cols (replicate cols 0)) as (svec & Hrun & Hlen & Hlook).
  { by rewrite length_replicate. }
  rewrite length_replicate in Hlen.
  rewrite (for_each_ext_inv (λ svec, length svec = cols) _
     (λ l k, x ← l !! k; aset l k (foldl push_bit x (column_bits m k)))).
  - rewrite Hrun. f_equal. apply list_eq. intros i.
    rewrite Hlook, list_lookup_fmap.
    destruct (decide (i < cols)%nat) as [Hi|Hi].
    + rewrite lookup_replicate_2, lookup_seq_lt by done. simpl.
      by rewrite decide_True by lia.
    + rewrite (proj1 (lookup_replicate_None _ _ _)), lookup_seq_ge by lia.
      done.
  - by rewrite length_replicate.
  - intros a i b _ Ha Hb. destruct (a !! i); simplify_eq/=.
    unfold aset in Hb. case_decide; simplify_eq. by rewrite length_insert.
  - intros a i Hi%elem_of_seq Ha.
    destruct (lookup_lt_is_Some_2 a i) as [w Hw]; [lia|].
    rewrite Hw. simpl. rewrite aset_Some by lia.
    apply (pack_col_spec rows cols); [done|lia|done].
Qed.

Lemma pos_digits_testbit p j :
  default false (pos_digits p !! j) = Z.testbit (Zpos p) (Z.of_nat j).
Proof.
  revert j; induction p as [p IH|p IH|]; intros [|j]; simpl pos_digits.
  - by rewrite Pos2Z.inj_xI, Z.testbit_odd_0.
  - rewrite Pos2Z.inj_xI. rewrite Nat2Z.inj_succ.
    rewrite Z.testbit_odd_succ by lia. apply IH.
  - by rewrite Pos2Z.inj_xO, Z.testbit_even_0.
  - rewrite Pos2Z.inj_xO. rewrite Nat2Z.inj_succ.
    rewrite Z.testbit_even_succ by lia. apply IH.
  - done.
  - rewrite Nat2Z.inj_succ.
    change 1 with (2 * 0 + 1). rewrite Z.testbit_odd_succ by lia.
    by rewrite Z.testbit_0_l.
Qed.

Lemma pos_digits_top p :
  pos_digits p !! (length (pos_digits p) - 1)%nat = Some true.
Proof.
  induction p as [p IH|p IH|]; simpl; [| |done].
  - destruct (pos_digits p) eqn:E; [by destruct p|]. simpl in *.
    by rewrite Nat.sub_0_r in IH.
  - destruct (pos_digits p) eqn:E; [by destruct p|]. simpl in *.
    by rewrite Nat.sub_0_r in IH.
Qed.

Lemma testbit_word_high w j : is_word w → 64 ≤ j → Z.testbit w j = false.
Proof.
  intros [H0 Hlt] Hj. rewrite <- (Z.mod_small w (2 ^ 64)) by lia.
  apply Z.mod_pow2_bits_high. lia.
Qed.

Lemma pos_digits_length p :
  is_word (Zpos p) → (1 ≤ length (pos_digits p) ≤ 64)%nat.
Proof.
  intros Hw. split; [destruct p; simpl; lia|].
  destruct (decide (length (pos_digits p) ≤ 64)%nat) as [|Hgt]; [done|].
  pose proof (pos_digits_testbit p (length (pos_digits p) - 1)) as Hbit.
  rewrite pos_digits_top in Hbit. simpl in Hbit.
  rewrite testbit_word_high in Hbit by (done || lia). done.
Qed.

(** The 64 characters of [bin(w)[2:].rjust(64, '0')]. *)
Lemma bin_state w :
  is_word w →
  length (rjust 64 false (bin w)) = 64%nat ∧
  ∀ k, (k < 64)%nat →
    rjust 64 false (bin w) !! k = Some (Z.testbit w (63 - Z.of_nat k)).
Proof.
  intros Hw. unfold rjust. destruct w as [|p|p]; [| |destruct Hw; lia].
  - split; [done|]. intros k Hk. rewrite Z.testbit_0_l.
    change (replicate (64 - length (bin 0)) false ++ bin 0)
      with (replicate 64 false). by apply lookup_replicate_2.
  - pose proof (pos_digits_length p Hw) as Hlen. simpl bin.
    rewrite length_app, length_replicate, length_reverse.
    split; [lia|]. intros k Hk.
    destruct (decide (k < 64 - length (pos_digits p))%nat) as [Hlow|Hhigh].
    + rewrite lookup_app_l by (rewrite length_replicate; lia).
      rewrite lookup_replicate_2 by done. f_equal.
      replace (63 - Z.of_nat k) with (Z.of_nat (63 - k)) by lia.
      rewrite <- pos_digits_testbit.
      by rewrite lookup_ge_None_2 by lia.
    + rewrite lookup_app_r by (rewrite length_replicate; lia).
      rewrite length_replicate, reverse_lookup by lia.
      replace (63 - Z.of_nat k) with (Z.of_nat (63 - k)) by lia.
      rewrite <- pos_digits_testbit.
      replace (length (pos_digits p)
                 - S (k - (64 - length (pos_digits p))))%nat
        with (63 - k)%nat by lia.
      destruct (lookup_lt_is_Some_2 (pos_digits p) (63 - k)) as [b ->];
        [lia|done].
Qed.

Lemma loop_o_app {I S} (body : S → I → outcome S) l1 l2 s :
  loop_o body (l1 ++ l2) s =
    match loop_o body l1 s with
    | Finished s' => loop_o body l2 s'
    | OutOfRange s' => OutOfRange s'
    end.
Proof.
  revert s; induction l1 as [|i l1 IH]; intros s; simpl; [done|].
  destruct (body s i); auto.
Qed.

(** A loop with outcomes whose body never leaves the array. *)
Lemma loop_o_for_each {I S} (body_o : S → I → outcome S)
    (body : S → I → option S) l s s' :
  (∀ a i, body_o a i =
          match body a i with Some b => Finished b | None => OutOfRange a end) →
  for_each body l s = Some s' → loop_o body_o l s = Finished s'.
Proof.
  intros Hb. revert s; induction l as [|i l IH]; intros s Hrun; simpl in *.
  - by simplify_eq.
  - rewrite Hb. destruct (body s i); simplify_eq/=. by apply IH.
Qed.

Lemma has_shape_insert rows cols (m : matrix) k row :
  has_shape rows cols m → length row = cols →
  has_shape rows cols (<[k := row]> m).
Proof.
  intros [Hlen Hrows] Hrow. split; [by rewrite length_insert|].
  by apply Forall_insert.
Qed.

(** Unpacking one word writes its 64 digits down column [sidx]. *)
Lemma unpack_col_spec cols svec (m : matrix) sidx w :
  has_shape 64 cols m → (sidx < cols)%nat →
  svec !! sidx = Some w → is_word w →
  unpack_col svec m sidx =
    Finished (imap (λ k row,
      <[sidx := float_of_digit (Z.testbit w (63 - Z.of_nat k))]> row) m).
Proof.
  intros Hm Hsidx Hw Hword. unfold unpack_col. rewrite Hw.
  destruct (bin_state w Hword) as [Hlen Hstate]. rewrite Hlen.
  set (state := rjust 64 false (bin w)) in *.
  set (f := λ (k : nat) (row : list Qc),
         <[sidx := float_of_digit (Z.testbit w (63 - Z.of_nat k))]> row).
  apply (loop_o_for_each _
           (λ m k, b ← state !! k; aset2 m k sidx (float_of_digit b))).
  { intros a i. unfold unpack_cell. destruct (state !! i); simpl; [|done].
    by destruct (aset2 _ _ _ _). }
  destruct (for_each_update f 0 64 m) as (m' & Hrun & Hlen' & Hlook).
  { destruct Hm; lia. }
  rewrite (for_each_ext_inv (has_shape 64 cols) _
             (λ l k, x ← l !! k; aset l k (f k x))).
  - rewrite Hrun. f_equal. apply list_eq. intros k.
    rewrite Hlook, list_lookup_imap.
    destruct (m !! k) eqn:Hk; simpl; [|done].
    apply lookup_lt_Some in Hk. destruct Hm. by rewrite decide_True by lia.
  - done.
  - intros a i b _ Ha Hb. destruct (a !! i) as [row|] eqn:Hrow; [|done].
    cbn [mbind option_bind] in Hb.
    unfold aset in Hb. case_decide; [|done]. apply (inj Some) in Hb as <-.
    apply has_shape_insert; [done|]. unfold f. rewrite length_insert.
    destruct Ha as [_ Ha]. by eapply (Forall_lookup_1 _ _ _ _ Ha).
  - intros a i Hi%elem_of_seq Ha.
    rewrite Hstate by lia. simpl. unfold aset2.
    destruct (has_shape_lookup _ _ _ i Ha) as (row & -> & Hrow); [lia|].
    simpl. rewrite !aset_Some by (destruct Ha; lia). done.
Qed.

Lemma matrix_eq rows cols (a b : matrix) :
  has_shape rows cols a → has_shape rows cols b →
  (∀ k i, (k < rows)%nat → (i < cols)%nat →
     a !! k ≫= (.!! i) = b !! k ≫= (.!! i)) →
  a = b.
Proof.
  intros Ha Hb Heq. apply list_eq. intros k.
  destruct (decide (k < rows)%nat) as [Hk|Hk].
  - destruct (has_shape_lookup _ _ _ k Ha Hk) as (ra & Hra & Hla).
    destruct (has_shape_lookup _ _ _ k Hb Hk) as (rb & Hrb & Hlb).
    rewrite Hra, Hrb. f_equal. apply list_eq. intros i.
    destruct (decide (i < cols)%nat) as [Hi|Hi].
    + specialize (Heq k i Hk Hi). by rewrite Hra, Hrb in Heq.
    + by rewrite !lookup_ge_None_2 by lia.
  - destruct Ha, Hb. by rewrite !lookup_ge_None_2 by lia.
Qed.

Lemma decode_words_shape svec : has_shape 64 (length svec) (decode_words svec).
Proof.
  split; [done|]. unfold decode_words. apply Forall_fmap, Forall_forall.
  intros k _. simpl. by rewrite length_fmap.
Qed.

Lemma decode_words_lookup svec k i :
  (k < 64)%nat →
  decode_words svec !! k ≫= (.!! i)
    = (λ w, float_of_digit (Z.testbit w (63 - Z.of_nat k))) <$> svec !! i.
Proof.
  intros Hk. unfold decode_words.
  rewrite list_lookup_fmap, lookup_seq_lt by done. simpl.
  by rewrite list_lookup_fmap.
Qed.

(** The unpacking loop over the columns [a, a + c). *)
Lemma unpack_cols cols svec c a (m : matrix) :
  length svec = cols → Forall is_word svec →
  (a + c ≤ cols)%nat → has_shape 64 cols m →
  ∃ m', loop_o (unpack_col svec) (seq a c) m = Finished m' ∧
    has_shape 64 cols m' ∧
    ∀ k i, (k < 64)%nat →
      m' !! k ≫= (.!! i) =
        if decide (a ≤ i < a + c)%nat
        then (λ w, float_of_digit (Z.testbit w (63 - Z.of_nat k))) <$> svec !! i
        else m !! k ≫= (.!! i).
Proof.
  intros Hlen Hwords. revert a m.
  induction c as [|c IH]; intros a m Hac Hm.
  - exists m. split_and!; [done..|]. intros k i Hk.
    by rewrite decide_False by lia.
  - destruct (lookup_lt_is_Some_2 svec a) as [w Hw]; [lia|].
    assert (is_word w) as Hword by (by eapply (Forall_lookup_1 _ _ _ _ Hwords)).
    cbn [seq loop_o].
    rewrite (unpack_col_spec cols _ _ _ w) by (done || lia).
    set (m1 := imap _ m).
    assert (has_shape 64 cols m1) as Hm1.
    { destruct Hm as [Hl Hrows]. split; [unfold m1; by rewrite length_imap|].
      apply Forall_lookup_2. intros k row. unfold m1.
      rewrite list_lookup_imap. destruct (m !! k) as [r|] eqn:Hr; [|done].
      simpl. intros [= <-]. rewrite length_insert.
      by eapply (Forall_lookup_1 _ _ _ _ Hrows). }
    destruct (IH (S a) m1) as (m' & Hrun & Hm' & Hlook); [lia|done|].
    exists m'. split_and!; [done..|]. intros k i Hk.
    rewrite Hlook by done.
    destruct (decide (i = a)) as [->|Hne].
    + rewrite decide_False, decide_True by lia. unfold m1.
      rewrite list_lookup_imap.
      destruct (has_shape_lookup _ _ _ k Hm Hk) as (row & -> & Hrow).
      simpl. rewrite list_lookup_insert_eq by lia. by rewrite Hw.
    + destruct (decide (S a ≤ i < S a + c)%nat).
      * by rewrite decide_True by lia.
      * rewrite decide_False by lia. unfold m1.
        rewrite list_lookup_imap. destruct (m !! k); simpl; [|done].
        by rewrite list_lookup_insert_ne.
Qed.

(** The unpacking loop decodes every word, then reads one word too far. *)
Lemma unpack_spec cols svec (m : matrix) :
  length svec = cols → Forall is_word svec → has_shape 64 cols m →
  unpack svec m = OutOfRange (decode_words svec).
Proof.
  intros Hlen Hwords Hm. unfold unpack, unpack_range, xrange.
  replace (Z.to_nat (Z.of_nat (length svec) + 1)) with (cols + 1)%nat by lia.
  rewrite seq_app, loop_o_app.
  destruct (unpack_cols cols svec cols 0 m) as (m' & -> & Hm' & Hlook);
    [done..|].
  simpl. unfold unpack_col. rewrite lookup_ge_None_2 by lia. f_equal.
  apply (matrix_eq 64 cols); [done|rewrite <- Hlen; apply decode_words_shape|].
  intros k i Hk Hi. rewrite Hlook, decode_words_lookup by done.
  by rewrite decide_True by lia.
Qed.

(** The unpacking loop always ends out of range. *)
Lemma unpack_out_of_range svec (m : matrix) :
  ∃ m', unpack svec m = OutOfRange m'.
Proof.
  unfold unpack, unpack_range, xrange.
  replace (Z.to_nat (Z.of_nat (length svec) + 1))
    with (length svec + 1)%nat by lia.
  rewrite seq_app, loop_o_app.
  destruct (loop_o _ (seq 0 (length svec)) m) as [m'|m']; [|by eauto].
  exists m'. simpl. unfold unpack_col. by rewrite lookup_ge_None_2.
Qed.

Lemma roundtrip_entry_fixed x :
  roundtrip_entry x = x ↔ x = Q2Qc 0 ∨ x = Q2Qc 1.
Proof.
  unfold roundtrip_entry, entry_bit. split.
  - intros <-. destruct (bool_decide _); auto.
  - intros [->| ->]; [by rewrite bool_decide_false by (by intros [])|].
    by rewrite bool_decide_true.
Qed.

(** Packing then decoding normalises every entry. *)
Lemma decode_pack cols (m : matrix) :
  has_shape 64 cols m →
  pack m (replicate (shape1 m) 0) = Some (packed m cols)
  ∧ length (packed m cols) = cols
  ∧ Forall is_word (packed m cols)
  ∧ decode_words (packed m cols) = roundtrip m.
Proof.
  intros Hm. split_and!.
  - apply (pack_spec 64); [done|lia].
  - unfold packed. by rewrite length_fmap, length_seq.
  - apply Forall_fmap, Forall_forall. intros si _. simpl.
    apply word_of_bits_word. rewrite column_bits_length. destruct Hm; lia.
  - apply (matrix_eq 64 cols).
    + pose proof (decode_words_shape (packed m cols)) as H.
      unfold packed in H at 1. by rewrite length_fmap, length_seq in H.
    + destruct Hm as [Hl Hrows]. unfold roundtrip.
      split; [by rewrite length_fmap|].
      apply Forall_fmap. revert Hrows. apply Forall_impl.
      intros row Hrow. simpl. by rewrite length_fmap.
    + intros k i Hk Hi. rewrite decode_words_lookup by done.
      unfold packed, roundtrip.
      rewrite !list_lookup_fmap, lookup_seq_lt by done. simpl.
      destruct (has_shape_lookup _ _ _ k Hm Hk) as (row & Hrow & Hlen).
      destruct (lookup_lt_is_Some_2 row i) as [x Hx]; [lia|].
      rewrite Hrow. simpl. rewrite list_lookup_fmap, Hx. simpl.
      f_equal. unfold roundtrip_entry. f_equal. symmetry.
      apply (inj Some). rewrite <- word_of_bits_replica;
        [symmetry; by eapply column_bits_lookup
        |rewrite column_bits_length; by destruct Hm|done].
Qed.

Lemma fmap_fixed {A} (f : A → A) (l : list A) :
  f <$> l = l ↔ Forall (λ x, f x = x) l.
Proof.
  induction l as [|x l IH]; simpl.
  - split; [constructor|done].
  - split.
    + intros [= Hx Hl]. constructor; [done|by apply IH].
    + inversion_clear 1. f_equal; [done|by apply IH].
Qed.

Lemma for_each_total {I S} (P : S → Prop) (body : S → I → option S) l s :
  P s → (∀ a i, i ∈ l → P a → ∃ b, body a i = Some b ∧ P b) →
  ∃ s', for_each body l s = Some s' ∧ P s'.
Proof.
  revert s; induction l as [|i l IH]; intros s Hs Hbody; simpl; [by eauto|].
  destruct (Hbody s i) as (b & -> & Hb); [left|done|]. simpl.
  apply IH; [done|]. intros a j Hj. apply Hbody. by right.
Qed.

Lemma for_each_skip {I S} (body : S → I → option S) l s :
  (∀ a i, i ∈ l → body a i = Some a) → for_each body l s = Some s.
Proof.
  induction l as [|i l IH]; intros Hb; simpl; [done|].
  rewrite Hb by left. simpl. apply IH. intros a j Hj. apply Hb. by right.
Qed.

Lemma xrange_nonpos n : n ≤ 0 → xrange n = [].
Proof. intros. unfold xrange. by replace (Z.to_nat n) with 0%nat by lia. Qed.

Section Frames.
Context {R C : Type} `{!NumpyRandom R, !LibC C, !LibM}.
Local Open Scope Qc_scope.

Lemma ms_run_empty_schedule mcsteps (m : matrix) nbs (rng : R) :
  ms_run [] mcsteps m nbs rng = pack m (replicate (shape1 m) 0%Z).
Proof.
  unfold ms_run. destruct (rand rng 64) as [rands rng1].
  destruct (permutation rng1 _) as [shuff rng2]. simpl.
  by destruct (pack m _).
Qed.

Lemma ms_run_no_sweeps sched mcsteps (m : matrix) nbs (rng : R) :
  (mcsteps ≤ 0)%Z →
  ms_run sched mcsteps m nbs rng = ms_run [] mcsteps m nbs rng.
Proof.
  intros Hn. unfold ms_run. destruct (rand rng 64) as [rands rng1].
  destruct (permutation rng1 _) as [shuff rng2].
  destruct (pack m _) as [svec|]; simpl; [|done].
  rewrite for_each_skip; [done|]. intros a temp _.
  unfold ms_temp. by rewrite xrange_nonpos.
Qed.

(** With an empty schedule and a 64-row matrix, the multispin engine leaves
    in the buffer the matrix normalised by the encoding. *)
Lemma multispin_empty_schedule cols mcsteps (m : matrix) nbs (rng : R) :
  has_shape 64 cols m →
  Anneal_multispin [] mcsteps m nbs rng = OutOfRange (roundtrip m).
Proof.
  intros Hm. unfold Anneal_multispin. rewrite ms_run_empty_schedule.
  destruct (decode_pack cols m Hm) as (-> & Hlen & Hwords & <-).
  by apply (unpack_spec cols).
Qed.

Lemma roundtrip_fixed (m : matrix) : roundtrip m = m ↔ binary m.
Proof.
  unfold roundtrip, binary. rewrite fmap_fixed. apply Forall_iff.
  intros row. rewrite fmap_fixed. apply Forall_iff.
  intros x. apply roundtrip_entry_fixed.
Qed.

(** C6, where the code departs from it.  The unpacking loop of
    [Anneal_multispin] runs over [xrange(svec.size + 1)]: it reaches the
    index [svec.size], where the packed array has no entry, so the loop, and
    with it every run of [Anneal_multispin], ends by an access out of
    range. *)
Theorem C6_unpacking_leaves_the_array :
  (∀ (svec : list Z) (m : matrix),
     length svec ∈ unpack_range svec ∧ svec !! length svec = None
     ∧ ∃ m', unpack svec m = OutOfRange m')
  ∧ (∀ sched mcsteps (m : matrix) nbs (rng : R),
       ∃ m', Anneal_multispin sched mcsteps m nbs rng = OutOfRange m').
Proof.
  split.
  - intros svec m. split_and!.
    + unfold unpack_range, xrange. apply elem_of_seq. lia.
    + by apply lookup_ge_None_2.
    + apply unpack_out_of_range.
  - intros. unfold Anneal_multispin.
    destruct (ms_run _ _ _ _ _); [apply unpack_out_of_range|by eauto].
Qed.

End Frames.

Section Runs.
Context {S : Type} (step : S → S → Prop).

Lemma run_of_app s l1 s' l2 s'' :
  run_of step s l1 s' → run_of step s' l2 s'' → run_of step s (l1 ++ l2) s''.
Proof. induction 1; simpl; [done|]. intros. econstructor; eauto. Qed.

Lemma run_of_invariant (P : S → Prop) s l s' :
  (∀ a b, step a b → P a → P b) →
  P s → run_of step s l s' → Forall P l ∧ P s'.
Proof.
  intros Hstep Hs Hrun. induction Hrun as [|s s1 l s2 H1 Hrun IH]; [by split|].
  destruct IH as [Hl Hs2]; [by eapply Hstep|]. split; [|done].
  constructor; [by eapply Hstep|done].
Qed.

(** A loop whose body goes through runs goes through a run. *)
Lemma for_each_run {I T} (proj : T → S) (body : T → I → option T) l t t' :
  (∀ a i b, body a i = Some b → ∃ tr, run_of step (proj a) tr (proj b)) →
  for_each body l t = Some t' → ∃ tr, run_of step (proj t) tr (proj t').
Proof.
  intros Hbody. revert t. induction l as [|i l IH]; intros t Hrun; simpl in *.
  - simplify_eq. exists []. constructor.
  - destruct (body t i) as [t1|] eqn:Hb; [|done]. simpl in Hrun.
    destruct (Hbody _ _ _ Hb) as [tr1 H1]. destruct (IH _ Hrun) as [tr2 H2].
    exists (tr1 ++ tr2). by eapply run_of_app.
Qed.

End Runs.

Section SpinInvariant.
Context {R C : Type} `{!NumpyRandom R, !LibC C, !LibM}.
Local Open Scope Qc_scope.

Lemma is_spin_flip x : is_spin x → is_spin (x * (- 1)).
Proof.
  intros [->| ->]; [right|left]; apply Qc_is_canon; reflexivity.
Qed.

Lemma flip_or_keep_spins a b : flip_or_keep a b → spins a → spins b.
Proof.
  intros [->|(i & s & Hs & ->)] Ha; [done|].
  apply Forall_insert; [done|]. apply is_spin_flip.
  by eapply (Forall_lookup_1 _ _ _ _ Ha).
Qed.

Lemma flip_or_keep2_spins a b : flip_or_keep2 a b → spins2 a → spins2 b.
Proof.
  intros [->|(i & j & row & x & Hrow & Hx & ->)] Ha; [done|].
  pose proof (Forall_lookup_1 _ _ _ _ Ha Hrow) as Hr.
  apply Forall_insert; [done|]. apply Forall_insert; [done|].
  apply is_spin_flip. by eapply (Forall_lookup_1 _ _ _ _ Hr).
Qed.

Lemma flip_flip_or_keep svec sidx svec' :
  flip svec sidx = Some svec' → flip_or_keep svec svec'.
Proof.
  unfold flip, aset. intros Hf. destruct (svec !! sidx) as [s|] eqn:Hs; [|done].
  simpl in Hf. case_decide; [|done]. right. exists sidx, s. by simplify_eq.
Qed.

Lemma spin_update_flip_or_keep nbs a b :
  spin_update (C:=C) nbs a b → flip_or_keep a b.
Proof.
  intros (temp & sidx & c & c' & Hup). unfold anneal_spin in Hup.
  destruct (nbs !! sidx) as [row|]; [|done]. simpl in Hup.
  destruct (ediff_loop a sidx row 0) as [ediff|]; [|done]. simpl in Hup.
  unfold metropolis in Hup. case_decide.
  - destruct (flip a sidx) as [a'|] eqn:Hf; [|done]. simpl in Hup.
    simplify_eq. by eapply flip_flip_or_keep.
  - destruct (cdraw c) as [u c1]. case_decide.
    + destruct (flip a sidx) as [a'|] eqn:Hf; [|done]. simpl in Hup.
      simplify_eq. by eapply flip_flip_or_keep.
    + simplify_eq. by left.
Qed.

Lemma q_update_flip_or_keep2 neighbors a b :
  q_update (R:=R) neighbors a b → flip_or_keep2 a b.
Proof.
  intros (T & perpJ & islice & ispin & rng & rng' & Hup).
  unfold qa_spin in Hup.
  destruct (column a islice) as [svec|]; [|done]. simpl in Hup.
  destruct (a !! ispin) as [tvec|] eqn:Ht; [|done]. simpl in Hup.
  destruct (neighbors !! ispin) as [nb|]; [|done]. simpl in Hup.
  destruct (QuantumMetropolisAccept _ _ _ _ _ _ _ _) as [[acc rng1]|];
    [|done]. simpl in Hup. destruct acc; [|simplify_eq; by left].
  destruct (tvec !! islice) as [x|] eqn:Hx; [|done]. simpl in Hup.
  unfold aset2 in Hup. rewrite Ht in Hup. simpl in Hup.
  unfold aset in Hup. case_decide; [|done]. simpl in Hup. simplify_eq.
  right. by exists ispin, islice, tvec, x.
Qed.

Lemma Anneal_run sched mcsteps svec nbs (rng : R) (c : C) svec' c' rng' :
  Anneal sched mcsteps svec nbs rng c = Some (svec', c', rng') →
  ∃ tr, run_of (spin_update (C:=C) nbs) svec tr svec'.
Proof.
  unfold Anneal. intros Hrun.
  destruct (for_each _ sched _) as [[[sF cF] [shF rF]]|] eqn:Hloop; [|done].
  simpl in Hrun. simplify_eq.
  apply (for_each_run (spin_update (C:=C) nbs) (λ st : list Qc * C * (list nat * R), st.1.1)) in Hloop;
    [done|].
  intros a temp b Hb. unfold anneal_temp in Hb.
  apply (for_each_run (spin_update (C:=C) nbs) (λ st : list Qc * C * (list nat * R), st.1.1)) in Hb;
    [done|].
  clear. intros [[a c] [shuff rng]] step b Hb. unfold anneal_step in Hb.
  destruct (for_each _ shuff _) as [[a' c']|] eqn:Hsweep; [|done].
  simpl in Hb. simplify_eq. simpl.
  apply (for_each_run (spin_update (C:=C) nbs) (λ st : list Qc * C, st.1)) in Hsweep; [done|].
  clear. intros [a c] sidx [b c'] Hb. exists [b]. simpl.
  econstructor; [|constructor]. by exists temp, sidx, c, c'.
Qed.

Lemma QuantumAnneal_run sched mcSteps trotterSlices T nSpins conf neighbors
    (rng : R) conf' rng' :
  QuantumAnneal sched mcSteps trotterSlices T nSpins conf neighbors rng
    = Some (conf', rng') →
  ∃ tr, run_of (q_update (R:=R) neighbors) conf tr conf'.
Proof.
  unfold QuantumAnneal. intros Hrun.
  apply (for_each_run (q_update (R:=R) neighbors) (λ st : matrix * R, st.1)) in Hrun; [done|].
  clear. intros a field b Hb. unfold qa_field in Hb.
  apply (for_each_run (q_update (R:=R) neighbors) (λ st : matrix * R, st.1)) in Hb; [done|].
  clear. intros [a rng] step b Hb. unfold qa_step in Hb.
  destruct (permutation rng _) as [order rng1].
  apply (for_each_run (q_update (R:=R) neighbors) (λ st : matrix * R, st.1)) in Hb; [done|].
  clear. intros [a rng] islice b Hb. unfold qa_slice in Hb.
  destruct (permutation rng _) as [order rng1].
  apply (for_each_run (q_update (R:=R) neighbors) (λ st : matrix * R, st.1)) in Hb; [done|].
  clear. intros [a rng] ispin [b rng'] Hb. exists [b]. simpl.
  econstructor; [|constructor].
  by exists T, (perp_coupling trotterSlices T field), islice, ispin, rng, rng'.
Qed.

(** C8.  Every application of the sequential kernel, and of the quantum
    kernel with the flip it decides, leaves the configuration unchanged or
    multiplies one entry by -1 in place.  A run of [Anneal] or of
    [QuantumAnneal] is a sequence of such applications and nothing else, so
    from a configuration of spins every configuration the run goes through,
    and the final one, is a configuration of spins. *)
Theorem C8_spins_stay_spins :
  (∀ nbs a b, spin_update (C:=C) nbs a b → flip_or_keep a b)
  ∧ (∀ neighbors a b, q_update (R:=R) neighbors a b → flip_or_keep2 a b)
  ∧ (∀ sched mcsteps svec nbs (rng : R) (c : C) svec' c' rng',
       spins svec →
       Anneal sched mcsteps svec nbs rng c = Some (svec', c', rng') →
       ∃ tr, run_of (spin_update (C:=C) nbs) svec tr svec'
             ∧ Forall spins tr ∧ spins svec')
  ∧ (∀ sched mcSteps trotterSlices T nSpins conf neighbors (rng : R)
       conf' rng',
       spins2 conf →
       QuantumAnneal sched mcSteps trotterSlices T nSpins conf neighbors rng
         = Some (conf', rng') →
       ∃ tr, run_of (q_update (R:=R) neighbors) conf tr conf'
             ∧ Forall spins2 tr ∧ spins2 conf').
Proof.
  split_and!.
  - apply spin_update_flip_or_keep.
  - apply q_update_flip_or_keep2.
  - intros * Hs Hrun. destruct (Anneal_run _ _ _ _ _ _ _ _ _ Hrun) as [tr Htr].
    exists tr. split; [done|].
    eapply run_of_invariant; [|done..].
    intros a b Hab. apply flip_or_keep_spins.
    by eapply spin_update_flip_or_keep.
  - intros * Hs Hrun.
    destruct (QuantumAnneal_run _ _ _ _ _ _ _ _ _ _ Hrun) as [tr Htr].
    exists tr. split; [done|].
    eapply run_of_invariant; [|done..].
    intros a b Hab. apply flip_or_keep2_spins.
    by eapply q_update_flip_or_keep2.
Qed.

End SpinInvariant.

Section Counts.
Context {R C : Type} `{!NumpyRandom R, !LibC C, !LibM}.
Local Open Scope Qc_scope.

Lemma permutation_nil (r : R) :
  permutation_law (R:=R) → ∃ r', permutation r [] = ([], r').
Proof.
  intros Hlaw. specialize (Hlaw r []).
  destruct (permutation r []) as [l r']. simpl in Hlaw.
  apply Permutation_nil_r in Hlaw as ->. by exists r'.
Qed.

(** C9, amended.  No entry point checks its counts.  With a non-positive
    sweep count [Anneal], [Anneal_parallel] and [QuantumAnneal] return
    normally with the configuration unchanged, as does [QuantumAnneal] with
    a non-positive slice count or spin count (for a generator that returns
    permutations); [Anneal_multispin] with a non-positive sweep count
    behaves as with an empty schedule. *)
Theorem C9_counts_are_not_checked :
  (∀ sched mcsteps svec nbs (rng : R) (c : C),
     (mcsteps ≤ 0)%Z →
     ∃ rng', Anneal sched mcsteps svec nbs rng c = Some (svec, c, rng'))
  ∧ (∀ sched mcsteps svec nbs nthreads (c : C),
       (mcsteps ≤ 0)%Z →
       Anneal_parallel sched mcsteps svec nbs nthreads c = Some (svec, c))
  ∧ (∀ sched mcSteps trotterSlices T nSpins conf neighbors (rng : R),
       (mcSteps ≤ 0)%Z →
       QuantumAnneal sched mcSteps trotterSlices T nSpins conf neighbors rng
         = Some (conf, rng))
  ∧ (∀ sched mcSteps trotterSlices T nSpins conf neighbors (rng : R),
       permutation_law (R:=R) →
       (trotterSlices ≤ 0 ∨ nSpins ≤ 0)%Z →
       ∃ rng',
         QuantumAnneal sched mcSteps trotterSlices T nSpins conf neighbors rng
           = Some (conf, rng'))
  ∧ (∀ sched mcsteps (m : matrix) nbs (rng : R),
       (mcsteps ≤ 0)%Z →
       Anneal_multispin sched mcsteps m nbs rng
         = Anneal_multispin [] mcsteps m nbs rng).
Proof.
  split_and!.
  - intros * Hn. unfold Anneal.
    destruct (permutation rng _) as [shuff rng'] eqn:Hp. exists rng'.
    rewrite for_each_skip; [done|].
    intros a temp _. unfold anneal_temp. by rewrite xrange_nonpos.
  - intros * Hn. unfold Anneal_parallel.
    rewrite for_each_skip; [done|].
    intros a temp _. unfold par_temp. by rewrite xrange_nonpos.
  - intros * Hn. unfold QuantumAnneal.
    rewrite for_each_skip; [done|].
    intros a field _. unfold qa_field. by rewrite xrange_nonpos.
  - intros * Hlaw Hn. unfold QuantumAnneal.
    destruct (for_each_total (λ st : matrix * R, st.1 = conf)
      (qa_field neighbors mcSteps trotterSlices T nSpins) sched (conf, rng))
      as ([conf' rng'] & Hrun & Hconf); [done| |simpl in Hconf; subst; eauto].
    intros st field _ Hst. unfold qa_field.
    apply for_each_total; [done|]. clear st Hst.
    intros [a rng0] step _ Ha. simpl in Ha. subst a. unfold qa_step.
    destruct Hn as [Hn|Hn].
    + rewrite xrange_nonpos by done.
      destruct (permutation_nil rng0 Hlaw) as [r' ->]. simpl. by eauto.
    + destruct (permutation rng0 _) as [order rng1].
      apply for_each_total; [done|].
      intros [a rng2] islice _ Ha. simpl in Ha. subst a. unfold qa_slice.
      rewrite xrange_nonpos by done.
      destruct (permutation_nil rng2 Hlaw) as [r' ->]. simpl. by eauto.
  - intros * Hn. unfold Anneal_multispin. by rewrite ms_run_no_sweeps.
Qed.

End Counts.

(** C9 with a sweep count of -1. *)
Lemma C9_counts_are_not_checked_witness :
  ∃ rng', Anneal [fl 1 1] (-1) ex_svec ex_graph ([] : list Qc) ([] : list Z)
            = Some (ex_svec, [], rng').
Proof.
  refine (proj1 (C9_counts_are_not_checked (R:=list Qc) (C:=list Z))
            [fl 1 1] (-1)%Z ex_svec ex_graph [] [] _).
  lia.
Defined.

(** C9 as stated fails: with a sweep count of -1, and with a spin count of
    0, the engines return normally and the configuration is unmodified. *)
Lemma C9_counterexample :
  Anneal [fl 1 1] (-1) ex_svec ex_graph ([] : list Qc) ([] : list Z)
    = Some (ex_svec, [], [])
  ∧ QuantumAnneal [fl 1 1] 1 2 (fl 1 1) 0 [ex_svec] ex_graph ([] : list Qc)
    = Some ([ex_svec], []).
Proof. by vm_compute. Qed.

(** C8 on a run of two ferromagnetic spins. *)
Lemma C8_spins_stay_spins_witness :
  ∃ tr, run_of (spin_update (C:=list Z) ex_graph) ex_svec tr
          [fl (-1) 1; fl 1 1]
        ∧ Forall spins tr ∧ spins [fl (-1) 1; fl 1 1].
Proof.
  refine (proj1 (proj2 (proj2 (C8_spins_stay_spins (R:=list Qc) (C:=list Z))))
            [fl 1 1000] 1%Z ex_svec ex_graph [] [] _ [] [] _ _).
  - repeat apply Forall_cons_2; [by left|by right|apply Forall_nil_2].
  - vm_compute. reflexivity.
Defined.

Lemma word_bound w :
  0 ≤ w → (∀ j, 64 ≤ j → Z.testbit w j = false) → is_word w.
Proof.
  intros H0 Hhigh. split; [done|].
  destruct (decide (w = 0)) as [->|Hne]; [done|].
  apply Z.log2_lt_pow2; [lia|].
  destruct (decide (Z.log2 w < 64)) as [|Hge]; [done|].
  pose proof (Z.bit_log2 w ltac:(lia)) as Hbit.
  rewrite Hhigh in Hbit by lia. done.
Qed.

Lemma lxor_word a b : is_word a → is_word b → is_word (Z.lxor a b).
Proof.
  intros Ha Hb. apply word_bound.
  - apply Z.lxor_nonneg. destruct Ha, Hb. tauto.
  - intros j Hj. rewrite Z.lxor_spec.
    by rewrite !testbit_word_high by done.
Qed.

Lemma fmap_const_replicate {A B} (x : B) (l : list A) :
  (λ _, x) <$> l = replicate (length l) x.
Proof. induction l; simpl; [done|]. by f_equal. Qed.

Section Simulation.
Context `{!LibM}.
Local Open Scope Qc_scope.

Lemma spin_of_entry_digit b : spin_of_entry (float_of_digit b) = spin_of_bit b.
Proof.
  unfold spin_of_entry. destruct b; cbn [float_of_digit].
  - by rewrite bool_decide_true.
  - by rewrite bool_decide_false by (by intros []).
Qed.

(** With a positive temperature and a draw below 1, the comparison of the
    multispin kernel accepts every non-negative energy difference. *)
Lemma accept_nonneg temp ediff u :
  exp_law → 0 < temp → u < 1 → 0 ≤ ediff → u < exp (ediff / temp).
Proof.
  intros Hexp Htemp Hu He.
  eapply Qclt_le_trans; [done|]. apply Hexp.
  unfold Qcdiv. apply Qcmult_nonneg_nonneg; [done|].
  apply Qclt_le_weak. by apply Qcinv_pos.
Qed.

Lemma signs_length temp ediffs rands :
  length ediffs = 64%nat → length rands = 64%nat →
  length (signs temp ediffs rands) = 64%nat.
Proof. intros He Hr. unfold signs. rewrite length_zip_with. lia. Qed.

Lemma signs_lookup temp ediffs rands k e u :
  ediffs !! k = Some e → rands !! k = Some u →
  signs temp ediffs rands !! k = Some (bool_decide (u < exp (e / temp))).
Proof.
  intros He Hu. unfold signs. rewrite lookup_zip_with, He. simpl.
  by rewrite Hu.
Qed.

(** One visit of the multispin kernel is, in every replica, the visit of
    the sequential logic with that replica's draw. *)
Lemma ms_update_simulation cols nbs svec temp sidx rands :
  exp_law → valid_graph cols nbs →
  length svec = cols → Forall is_word svec →
  (sidx < cols)%nat → 0 < temp →
  length rands = 64%nat → Forall (λ u, u < 1) rands →
  ∃ svec', ms_update nbs svec (temp, sidx, rands) = Some svec'
    ∧ length svec' = cols ∧ Forall is_word svec'
    ∧ ∀ k, (k < 64)%nat →
        anneal_logic nbs (replica k svec) (temp, sidx, default 0 (rands !! k))
          = Some (replica k svec').
Proof.
  intros Hexp [Hnbs Hrows] Hlen Hwords Hsidx Htemp Hrl Hru.
  destruct (lookup_lt_is_Some_2 nbs sidx) as [row Hrow]; [lia|].
  destruct (lookup_lt_is_Some_2 svec sidx) as [w Hw]; [lia|].
  assert (valid_row cols row) as Hvalid
    by (by eapply (Forall_lookup_1 _ _ _ _ Hrows)).
  destruct (ms_nb_loop_spec svec sidx w row (replicate 64 0))
    as (ediffs & Hloop & Hel & Hlook);
    [by rewrite length_replicate|done|by rewrite Hlen|].
  pose proof (signs_length temp ediffs rands Hel Hrl) as Hsl.
  set (fm := word_of_bits (signs temp ediffs rands)).
  assert (is_word fm) as Hfm by (apply word_of_bits_word; lia).
  exists (<[sidx := Z.lxor w fm]> svec). split_and!.
  - unfold ms_update. rewrite Hrow. cbn [mbind option_bind].
    rewrite Hloop. cbn [mbind option_bind].
    rewrite build_mask_spec by done. cbn [mbind option_bind].
    rewrite Hw. cbn [mbind option_bind]. apply aset_Some. lia.
  - by rewrite length_insert.
  - apply Forall_insert; [done|]. apply lxor_word; [|done].
    by eapply (Forall_lookup_1 _ _ _ _ Hwords).
  - intros k Hk.
    destruct (lookup_lt_is_Some_2 rands k) as [u Hu]; [lia|].
    assert (u < 1) as Hu1 by (by eapply (Forall_lookup_1 _ _ _ _ Hru)).
    rewrite Hu. simpl.
    pose proof (Hlook k Hk) as He. rewrite lookup_replicate_2 in He by done.
    simpl in He. rewrite Qcplus_0_l in He.
    set (s := replica_spin k w) in *.
    set (e := neighbour_sum (value (replica k svec)) sidx s row) in *.
    assert (replica k svec !! sidx = Some s) as Hs
      by (by rewrite replica_lookup, Hw).
    unfold anneal_logic. rewrite Hrow. simpl.
    rewrite (ediff_loop_sum _ _ s) by (done || by rewrite replica_length, Hlen).
    simpl. rewrite Qcplus_0_l. fold e.
    assert (Z.testbit fm (63 - Z.of_nat k)
            = bool_decide (u < exp (e / temp))) as Hbit.
    { apply (inj Some). unfold fm.
      rewrite <- word_of_bits_replica by done. by apply signs_lookup. }
    assert (replica k (<[sidx := Z.lxor w fm]> svec)
            = <[sidx := s * spin_of_bit (bool_decide (u < exp (e / temp)))]>
                (replica k svec)) as ->.
    { unfold replica. rewrite list_fmap_insert. f_equal.
      unfold replica_spin at 1. by rewrite Z.lxor_spec, spin_of_bit_xor, Hbit. }
    assert (0 ≤ e → u < exp (e / temp)) as Hacc by (by apply accept_nonneg).
    destruct (decide (0 ≤ e)) as [Hpos|Hneg].
    + rewrite bool_decide_true by auto. by apply flip_Some.
    + destruct (decide (u < exp (e / temp))) as [Hlt|Hge].
      * rewrite bool_decide_true by done. by apply flip_Some.
      * rewrite bool_decide_false by done. simpl.
        rewrite Qcmult_1_r. by rewrite list_insert_id.
Qed.

End Simulation.

Section Flatten.
Context {R : Type} `{!NumpyRandom R, !LibM}.
Local Open Scope Qc_scope.

Lemma aset_length {A} (a : list A) i x a' :
  aset a i x = Some a' → length a' = length a.
Proof.
  unfold aset. case_decide; [|done]. intros [= <-]. apply length_insert.
Qed.

Lemma bit_loop_length w jval ediffs ediffs' :
  bit_loop w jval ediffs = Some ediffs' → length ediffs' = length ediffs.
Proof.
  unfold bit_loop.
  apply (for_each_invariant (λ e, length e = length ediffs)); [|done].
  intros a k b _ Ha Hb. unfold bit_step in Hb.
  destruct (a !! k); [|done]. simpl in Hb.
  destruct (negb _); apply aset_length in Hb; congruence.
Qed.

Lemma ms_nb_loop_length svec sidx row ediffs ediffs' :
  for_each (ms_nb_step svec sidx) row ediffs = Some ediffs' →
  length ediffs' = length ediffs.
Proof.
  apply (for_each_invariant (λ e, length e = length ediffs)); [|done].
  intros a nb b _ Ha Hb. unfold ms_nb_step in Hb.
  destruct (svec !! sidx); [|by case_decide]. simpl in Hb.
  case_decide.
  - apply bit_loop_length in Hb. congruence.
  - destruct (aget svec _); [|done]. simpl in Hb.
    apply bit_loop_length in Hb. congruence.
Qed.

(** The body of the loop over spins, the accumulators at zero, is the
    update of the words, a fresh batch and accumulators at zero again. *)
Lemma ms_spin_update nbs temp svec rands (rng : R) sidx :
  ms_spin nbs temp (svec, replicate 64 0, rands, rng) sidx =
    svec' ← ms_update nbs svec (temp, sidx, rands);
    Some (svec', replicate 64 0, (rand rng 64).1, (rand rng 64).2).
Proof.
  unfold ms_spin, ms_update.
  destruct (nbs !! sidx) as [row|]; [|done]. cbn [mbind option_bind].
  destruct (for_each (ms_nb_step svec sidx) row (replicate 64 0))
    as [ediffs|] eqn:Hloop; [|done]. cbn [mbind option_bind].
  apply ms_nb_loop_length in Hloop. rewrite length_replicate in Hloop.
  destruct (build_mask _) as [fm|]; [|done]. cbn [mbind option_bind].
  destruct (svec !! sidx) as [w|]; [|done]. cbn [mbind option_bind].
  destruct (aset svec sidx _) as [svec'|]; [|done]. cbn [mbind option_bind].
  destruct (rand rng 64) as [rands' rng']. simpl.
  by rewrite fmap_const_replicate, Hloop.
Qed.

Lemma sweep_flatten nbs temp shuff svec rands (rng : R) :
  for_each (ms_spin nbs temp) shuff (svec, replicate 64 0, rands, rng) =
    svec' ← for_each (ms_update nbs) (sweep_tape temp shuff rands rng).1 svec;
    Some (svec', replicate 64 0, (sweep_tape temp shuff rands rng).2.1,
          (sweep_tape temp shuff rands rng).2.2).
Proof.
  revert svec rands rng. induction shuff as [|sidx shuff IH];
    intros svec rands rng; [done|].
  cbn [for_each sweep_tape]. rewrite ms_spin_update.
  destruct (rand rng 64) as [rands' rng'].
  destruct (sweep_tape temp shuff rands' rng') as [t fin] eqn:Ht.
  cbn [fst snd for_each].
  destruct (ms_update nbs svec (temp, sidx, rands)) as [svec1|];
    [|done]. cbn [mbind option_bind].
  by rewrite IH, Ht.
Qed.

Lemma ms_step_unfold nbs temp (st : list Z * list Qc * list Qc * R)
    shuff a :
  ms_step nbs temp (st, shuff) a =
    '(svec, ediffs, rands, rng) ← for_each (ms_spin nbs temp) shuff st;
    let '(shuff', rng') := permutation rng shuff in
    Some (svec, ediffs, rands, rng', shuff').
Proof. done. Qed.

Lemma steps_flatten nbs temp n a shuff svec rands (rng : R) :
  for_each (ms_step nbs temp) (seq a n)
      (svec, replicate 64 0, rands, rng, shuff) =
    svec' ← for_each (ms_update nbs)
               (steps_tape temp n shuff rands rng).1 svec;
    Some (svec', replicate 64 0,
          (steps_tape temp n shuff rands rng).2.2.1,
          (steps_tape temp n shuff rands rng).2.2.2,
          (steps_tape temp n shuff rands rng).2.1).
Proof.
  revert a shuff svec rands rng. induction n as [|n IH];
    intros a shuff svec rands rng; [done|].
  cbn [seq for_each steps_tape]. rewrite ms_step_unfold, sweep_flatten.
  destruct (sweep_tape temp shuff rands rng) as [t1 [rands1 rng1]].
  cbn [fst snd].
  destruct (permutation rng1 shuff) as [shuff' rng2] eqn:Hp.
  destruct (steps_tape temp n shuff' rands1 rng2) as [t2 fin] eqn:Ht2.
  cbn [fst snd]. rewrite for_each_app.
  destruct (for_each (ms_update nbs) t1 svec) as [svec1|];
    [|done]. cbn [mbind option_bind]. rewrite Hp. cbn [mbind option_bind].
  by rewrite IH, Ht2.
Qed.

Lemma ms_temp_unfold nbs mcsteps
    (st : list Z * list Qc * list Qc * R * list nat) temp :
  ms_temp nbs mcsteps st temp =
    for_each (ms_step nbs temp) (seq 0 (Z.to_nat mcsteps)) st.
Proof. done. Qed.

Lemma sched_flatten nbs mcsteps sched shuff svec rands (rng : R) :
  (λ st : list Z * list Qc * list Qc * R * list nat, st.1.1.1.1) <$>
    for_each (ms_temp nbs mcsteps) sched
      (svec, replicate 64 0, rands, rng, shuff) =
  for_each (ms_update nbs)
    (sched_tape sched (Z.to_nat mcsteps) shuff rands rng) svec.
Proof.
  revert shuff svec rands rng. induction sched as [|temp sched IH];
    intros shuff svec rands rng; [done|].
  cbn [for_each sched_tape]. rewrite ms_temp_unfold, steps_flatten.
  destruct (steps_tape temp (Z.to_nat mcsteps) shuff rands rng)
    as [t1 [shuff' [rands' rng']]].
  cbn [fst snd]. rewrite for_each_app.
  destruct (for_each (ms_update nbs) t1 svec) as [svec1|];
    [|done]. cbn [mbind option_bind]. apply IH.
Qed.

(** The multispin run is the packing followed by the updates of its tape. *)
Lemma ms_run_flatten sched mcsteps (m : matrix) nbs (rng : R) :
  ms_run sched mcsteps m nbs rng =
    svec ← pack m (replicate (shape1 m) 0%Z);
    for_each (ms_update nbs) (ms_tape sched mcsteps (shape1 m) rng) svec.
Proof.
  unfold ms_run, ms_tape.
  destruct (rand rng 64) as [rands rng1].
  destruct (permutation rng1 _) as [shuff rng2].
  destruct (pack m _) as [svec|]; [|done]. cbn [mbind option_bind].
  rewrite <- sched_flatten.
  by destruct (for_each _ sched _) as [[[[[? ?] ?] ?] ?]|].
Qed.

(** *** The tape is made of valid visits *)

Lemma rand_valid (rng : R) :
  generator_laws (R:=R) → valid_batch (rand rng 64).1.
Proof.
  intros (_ & Hlen & Hlt). split; [apply Hlen|].
  apply list.Forall_forall. intros u. apply Hlt.
Qed.

Lemma sweep_tape_valid cols temp shuff rands (rng : R) :
  generator_laws (R:=R) → 0 < temp →
  Forall (λ i, i < cols)%nat shuff → valid_batch rands →
  Forall (valid_visit cols) (sweep_tape temp shuff rands rng).1
  ∧ valid_batch (sweep_tape temp shuff rands rng).2.1.
Proof.
  intros Hlaws Htemp Hshuff. revert rands rng.
  induction Hshuff as [|sidx shuff Hsidx Hshuff IH]; intros rands rng Hr.
  - by split.
  - cbn [sweep_tape]. pose proof (rand_valid rng Hlaws) as Hr'.
    destruct (rand rng 64) as [rands' rng'].
    specialize (IH rands' rng' Hr').
    destruct (sweep_tape temp shuff rands' rng') as [t fin].
    destruct IH as [Ht Hfin]. split; [|done].
    constructor; [|done]. by destruct Hr.
Qed.

Lemma steps_tape_valid cols temp n shuff rands (rng : R) :
  generator_laws (R:=R) → 0 < temp →
  Forall (λ i, i < cols)%nat shuff → valid_batch rands →
  Forall (valid_visit cols) (steps_tape temp n shuff rands rng).1
  ∧ Forall (λ i, i < cols)%nat (steps_tape temp n shuff rands rng).2.1
  ∧ valid_batch (steps_tape temp n shuff rands rng).2.2.1.
Proof.
  intros Hlaws Htemp. revert shuff rands rng.
  induction n as [|n IH]; intros shuff rands rng Hshuff Hr; [by split_and!|].
  cbn [steps_tape].
  pose proof (sweep_tape_valid cols temp shuff rands rng Hlaws Htemp Hshuff Hr)
    as [Ht1 Hr1].
  destruct (sweep_tape temp shuff rands rng) as [t1 [rands1 rng1]].
  pose proof (proj1 Hlaws rng1 shuff) as Hperm.
  destruct (permutation rng1 shuff) as [shuff' rng2].
  assert (Forall (λ i, i < cols)%nat shuff') as Hshuff'
    by (by rewrite Hperm).
  specialize (IH shuff' rands1 rng2 Hshuff' Hr1).
  destruct (steps_tape temp n shuff' rands1 rng2) as [t2 fin].
  destruct IH as (Ht2 & Hs2 & Hr2). split_and!; [|done..].
  by apply Forall_app.
Qed.

Lemma sched_tape_valid cols sched n shuff rands (rng : R) :
  generator_laws (R:=R) → Forall (λ temp, 0 < temp) sched →
  Forall (λ i, i < cols)%nat shuff → valid_batch rands →
  Forall (valid_visit cols) (sched_tape sched n shuff rands rng).
Proof.
  intros Hlaws Hsched. revert shuff rands rng.
  induction Hsched as [|temp sched Htemp Hsched IH];
    intros shuff rands rng Hshuff Hr; [done|].
  cbn [sched_tape].
  pose proof (steps_tape_valid cols temp n shuff rands rng Hlaws Htemp Hshuff Hr)
    as (Ht1 & Hs1 & Hr1).
  destruct (steps_tape temp n shuff rands rng) as [t1 [shuff' [rands' rng']]].
  apply Forall_app. split; [done|]. by apply IH.
Qed.

Lemma ms_tape_valid cols sched mcsteps (rng : R) :
  generator_laws (R:=R) → Forall (λ temp, 0 < temp) sched →
  Forall (valid_visit cols) (ms_tape sched mcsteps cols rng).
Proof.
  intros Hlaws Hsched. unfold ms_tape.
  pose proof (rand_valid rng Hlaws) as Hr.
  destruct (rand rng 64) as [rands rng1].
  pose proof (proj1 Hlaws rng1 (seq 0 cols)) as Hperm.
  destruct (permutation rng1 _) as [shuff rng2].
  apply sched_tape_valid; [done..| |done].
  simpl in Hperm. rewrite Hperm. apply list.Forall_forall.
  intros i Hi%elem_of_seq. lia.
Qed.

(** *** The run along a tape, replica by replica *)

Lemma tape_simulation cols nbs tape svec :
  exp_law → valid_graph cols nbs → Forall (valid_visit cols) tape →
  length svec = cols → Forall is_word svec →
  ∃ svec', for_each (ms_update nbs) tape svec = Some svec'
    ∧ length svec' = cols ∧ Forall is_word svec'
    ∧ ∀ k, (k < 64)%nat →
        for_each (anneal_logic nbs) (replica_tape k tape) (replica k svec)
          = Some (replica k svec').
Proof.
  intros Hexp Hnbs Htape. revert svec.
  induction Htape as [|[[temp sidx] rands] tape Hev Htape IH];
    intros svec Hlen Hwords.
  - exists svec. by split_and!.
  - destruct Hev as (Htemp & Hsidx & Hrl & Hru).
    simpl in Htemp, Hsidx, Hrl, Hru.
    destruct (ms_update_simulation cols nbs svec temp sidx rands)
      as (svec1 & Hup & Hlen1 & Hwords1 & Hsim); [done..|].
    destruct (IH svec1 Hlen1 Hwords1) as (svec2 & Hrun & Hlen2 & Hwords2 & Hsim2).
    exists svec2. split_and!; [|done..|].
    + cbn [for_each]. by rewrite Hup.
    + intros k Hk. unfold replica_tape. rewrite fmap_cons.
      cbn [for_each]. rewrite Hsim by done. cbn [mbind option_bind].
      by apply Hsim2.
Qed.

End Flatten.

Section Encoding.
Context {R C : Type} `{!NumpyRandom R, !LibC C, !LibM}.
Local Open Scope Qc_scope.

(** The sequential kernel is its logic fed with the draw of [crand()]. *)
Lemma anneal_spin_logic nbs temp svec (c : C) sidx :
  fst <$> anneal_spin nbs temp (svec, c) sidx
    = anneal_logic nbs svec (temp, sidx, (cdraw c).1).
Proof.
  unfold anneal_spin, anneal_logic, metropolis.
  destruct (nbs !! sidx) as [row|]; [|done]. simpl.
  destruct (ediff_loop svec sidx row 0) as [ediff|]; [|done]. simpl.
  case_decide; [by destruct (flip svec sidx)|].
  destruct (cdraw c) as [u c']. simpl.
  case_decide; [by destruct (flip svec sidx)|done].
Qed.

Lemma replica_config_decode k svec :
  (k < 64)%nat → replica_config k (decode_words svec) = Some (replica k svec).
Proof.
  intros Hk. unfold replica_config, decode_words.
  rewrite list_lookup_fmap, lookup_seq_lt by done. simpl. f_equal.
  unfold replica. rewrite <- list_fmap_compose. apply list_fmap_ext.
  intros i w _. simpl. apply spin_of_entry_digit.
Qed.

Lemma replica_config_packed cols (m : matrix) k :
  has_shape 64 cols m → (k < 64)%nat →
  replica_config k m = Some (replica k (packed m cols)).
Proof.
  intros Hm Hk. destruct (decode_pack cols m Hm) as (_ & _ & _ & Hdec).
  rewrite <- (replica_config_decode k) by done. rewrite Hdec.
  unfold replica_config, roundtrip.
  rewrite list_lookup_fmap.
  destruct (has_shape_lookup _ _ _ k Hm Hk) as (row & -> & _). simpl.
  f_equal. rewrite <- list_fmap_compose. apply list_fmap_ext.
  intros i x _. simpl. unfold roundtrip_entry. by rewrite spin_of_entry_digit.
Qed.

(** The encoding equivalence, replica by replica, for any 64 initial
    configurations. *)
Lemma multispin_replicas sched mcsteps (m : matrix) cols nbs (rng : R) :
  generator_laws (R:=R) → exp_law → Forall (λ temp, 0 < temp) sched →
  has_shape 64 cols m → valid_graph cols nbs →
  ∃ svec, Anneal_multispin sched mcsteps m nbs rng
            = OutOfRange (decode_words svec)
    ∧ ∀ k, (k < 64)%nat →
        for_each (anneal_logic nbs)
          (replica_tape k (ms_tape sched mcsteps cols rng))
          (replica k (packed m cols)) = Some (replica k svec).
Proof.
  intros Hlaws Hexp Hsched Hm Hnbs.
  destruct (decode_pack cols m Hm) as (Hpack & Hlen & Hwords & _).
  destruct (tape_simulation cols nbs (ms_tape sched mcsteps cols rng)
              (packed m cols))
    as (svec & Hrun & Hlen' & Hwords' & Hsim);
    [done|done|by apply ms_tape_valid|done..|].
  exists svec. split; [|done].
  unfold Anneal_multispin. rewrite ms_run_flatten, Hpack.
  cbn [mbind option_bind].
  rewrite (has_shape_shape1 64 cols) by (done || lia).
  rewrite Hrun. by apply (unpack_spec cols).
Qed.

End Encoding.

Section Examples.
Local Open Scope Qc_scope.

Lemma unit_draw_lt u : unit_draw u < 1.
Proof. unfold unit_draw. case_decide as Hu; [by destruct Hu|done]. Qed.

Lemma script_generator_laws : generator_laws (R:=list Qc).
Proof.
  split_and!.
  - intros r l. simpl. apply reverse_Permutation.
  - intros r n. simpl. unfold script_take.
    rewrite length_fmap, length_take, length_app, length_replicate. lia.
  - intros r n u. simpl. unfold script_take.
    intros (v & -> & _)%list_elem_of_fmap. apply unit_draw_lt.
Qed.

Lemma exp_q_law : exp_law.
Proof.
  intros x Hx. simpl. unfold exp_q. rewrite decide_True by done.
  rewrite <- (Qcplus_0_r 1) at 1. rewrite <- Qcplus_assoc.
  apply Qcplus_le_mono_l. apply Qcplus_nonneg_nonneg; [done|].
  apply Qcmult_nonneg_nonneg; [|done].
  apply Qcmult_nonneg_nonneg; done.
Qed.

Lemma ex_graph_valid : valid_graph 2 ex_graph.
Proof.
  split; [done|]. repeat apply Forall_cons_2; try apply Forall_nil_2;
    vm_compute; split; congruence.
Qed.

End Examples.

(** ** The unpacking loop in memory *)

Lemma loop_o_foldl {I S} (P : S → Prop) (body : S → I → outcome S)
    (g : S → I → S) l s :
  P s →
  (∀ a i, i ∈ l → P a → body a i = Finished (g a i) ∧ P (g a i)) →
  loop_o body l s = Finished (foldl g s l) ∧ P (foldl g s l).
Proof.
  revert s. induction l as [|i l IH]; intros s Hs Hbody; [done|].
  destruct (Hbody s i) as [Hb HP]; [left|done|]. cbn [loop_o foldl].
  rewrite Hb. apply IH; [done|]. intros a j Hj. apply Hbody. by right.
Qed.

Lemma foldl_ext_in {I S} (f g : S → I → S) l s :
  (∀ a i, i ∈ l → f a i = g a i) → foldl f s l = foldl g s l.
Proof.
  revert s. induction l as [|i l IH]; intros s Hfg; [done|].
  cbn [foldl]. rewrite Hfg by left. apply IH. intros a j Hj. apply Hfg.
  by right.
Qed.

Section Contiguous.
Context {R : Type} `{!NumpyRandom R, !LibM}.
Local Open Scope Qc_scope.

Lemma alter_insert {A} (f : A → A) (l : list A) i x :
  l !! i = Some x → alter f i l = <[i := f x]> l.
Proof.
  intros Hx. apply list_eq. intros j. destruct (decide (j = i)) as [->|Hne].
  - rewrite list_lookup_alter_eq, Hx.
    rewrite list_lookup_insert_eq; [done|by eapply lookup_lt_Some].
  - rewrite list_lookup_alter_ne by done.
    by rewrite list_lookup_insert_ne.
Qed.

(** Inside the matrix the store is the checked one. *)
Lemma store_contiguous_in_range rows cols (m : matrix) k j x :
  has_shape rows cols m → (k < rows)%nat → (j < cols)%nat →
  aset2 m k j x = Some (store_contiguous cols m k j x).
Proof.
  intros Hm Hk Hj.
  destruct (has_shape_lookup _ _ _ k Hm Hk) as (row & Hrow & Hl).
  unfold aset2, store_contiguous. rewrite Hrow. cbn [mbind option_bind].
  rewrite aset_Some by lia. cbn [mbind option_bind]. f_equal.
  rewrite Nat.div_add_l, Nat.div_small, Nat.add_0_r by lia.
  rewrite Nat.add_comm, Nat.Div0.mod_add, Nat.mod_small by lia.
  symmetry. by apply alter_insert.
Qed.

(** One column behind the last one the store lands in column 0 of the next
    row. *)
Lemma store_contiguous_next_row cols (m : matrix) k x :
  (1 ≤ cols)%nat →
  store_contiguous cols m k cols x
    = alter (λ row : list Qc, <[0%nat := x]> row) (S k) m.
Proof.
  intros Hc. unfold store_contiguous.
  replace (k * cols + cols)%nat with (S k * cols)%nat by lia.
  by rewrite Nat.div_mul, Nat.Div0.mod_mul by lia.
Qed.

Lemma unpack_col_in_range behind cols svec (m : matrix) sidx w :
  has_shape 64 cols m → (sidx < cols)%nat →
  svec !! sidx = Some w → is_word w →
  unpack_col svec m sidx
    = Finished (unpack_col_contiguous behind cols svec m sidx)
  ∧ has_shape 64 cols (unpack_col_contiguous behind cols svec m sidx).
Proof.
  intros Hm Hsidx Hw Hword. unfold unpack_col, unpack_col_contiguous.
  unfold load_contiguous. rewrite Hw. cbn [default from_option id].
  destruct (bin_state w Hword) as [Hlen Hdig]. rewrite Hlen.
  apply (loop_o_foldl (has_shape 64 cols)); [done|].
  intros a k Hk%elem_of_seq Ha.
  unfold unpack_cell, unpack_cell_contiguous. rewrite Hdig by lia.
  rewrite (store_contiguous_in_range 64 cols) by (done || lia).
  split; [done|].
  destruct (has_shape_lookup _ _ _ k Ha) as (row & Hrow & Hl); [lia|].
  unfold store_contiguous.
  rewrite Nat.div_add_l, Nat.div_small, Nat.add_0_r by lia.
  rewrite (alter_insert _ _ _ row) by done.
  apply has_shape_insert; [done|]. by rewrite length_insert.
Qed.

(** The iterations over the columns of the matrix. *)
Lemma unpack_columns_contiguous behind cols svec (m : matrix) :
  length svec = cols → Forall is_word svec → has_shape 64 cols m →
  foldl (unpack_col_contiguous behind cols svec) m (seq 0 cols)
    = decode_words svec.
Proof.
  intros Hlen Hwords Hm.
  destruct (loop_o_foldl (has_shape 64 cols) (unpack_col svec)
              (unpack_col_contiguous behind cols svec) (seq 0 cols) m)
    as [Hloop _]; [done| |].
  { intros a i Hi%elem_of_seq Ha.
    destruct (lookup_lt_is_Some_2 svec i) as [w Hw]; [lia|].
    apply (unpack_col_in_range behind cols svec a i w); [done|lia|done|].
    by eapply (Forall_lookup_1 _ _ _ _ Hwords). }
  pose proof (unpack_spec cols svec m Hlen Hwords Hm) as Hspec.
  unfold unpack, unpack_range, xrange in Hspec.
  replace (Z.to_nat (Z.of_nat (length svec) + 1)) with (cols + 1)%nat
    in Hspec by lia.
  rewrite seq_app, loop_o_app, Hloop in Hspec. cbn [seq loop_o] in Hspec.
  unfold unpack_col in Hspec at 1.
  rewrite lookup_ge_None_2 in Hspec by (simpl; lia).
  by injection Hspec.
Qed.

Lemma foldl_alter_next_rows (f : nat → list Qc → list Qc) n (m : matrix) :
  foldl (λ a k, alter (f k) (S k) a) m (seq 0 n)
    = imap (λ r row, match r with
                     | O => row
                     | S r' => if decide (r' < n)%nat then f r' row else row
                     end) m.
Proof.
  induction n as [|n IH].
  - cbn [seq foldl]. apply list_eq. intros r. rewrite list_lookup_imap.
    destruct (m !! r) as [row|]; [|done].
    cbn [fmap option_fmap option_map]. f_equal.
    destruct r as [|r']; [done|]. by rewrite decide_False by lia.
  - rewrite seq_S, foldl_app, IH. cbn [foldl Nat.add].
    apply list_eq. intros r. rewrite list_lookup_imap.
    destruct (decide (r = S n)) as [->|Hne].
    + rewrite list_lookup_alter_eq, list_lookup_imap.
      destruct (m !! S n) as [row|]; [|done].
      cbn [fmap option_fmap option_map].
      rewrite decide_False by lia. by rewrite decide_True by lia.
    + rewrite list_lookup_alter_ne, list_lookup_imap by done.
      destruct (m !! r) as [row|]; [|done].
      cbn [fmap option_fmap option_map]. f_equal.
      destruct r as [|r']; [done|].
      destruct (decide (r' < n)%nat); [by rewrite decide_True by lia|].
      by rewrite decide_False by lia.
Qed.

(** The iteration behind the last column. *)
Lemma unpack_extra_column behind cols svec (m : matrix) :
  (1 ≤ cols)%nat → length svec = cols → is_word behind →
  (length m ≤ 65)%nat →
  unpack_col_contiguous behind cols svec m cols = overwritten behind m.
Proof.
  intros Hc Hlen Hword Hrows. unfold unpack_col_contiguous, load_contiguous.
  rewrite lookup_ge_None_2 by lia. cbn [default from_option].
  destruct (bin_state behind Hword) as [Hl Hdig]. rewrite Hl.
  rewrite (foldl_ext_in _
    (λ a k, alter (λ row : list Qc,
                     <[0%nat := float_of_digit
                                  (Z.testbit behind (63 - Z.of_nat k))]> row)
                  (S k) a)).
  - rewrite (foldl_alter_next_rows
      (λ k row, <[0%nat := float_of_digit
                             (Z.testbit behind (63 - Z.of_nat k))]> row)).
    unfold overwritten. apply imap_ext. intros [|r] row Hr; [done|].
    apply lookup_lt_Some in Hr. by rewrite decide_True by lia.
  - intros a k Hk%elem_of_seq. unfold unpack_cell_contiguous.
    rewrite Hdig by lia. by apply store_contiguous_next_row.
Qed.

(** What the unpacking loop leaves in a C-contiguous matrix of 64 rows. *)
Lemma unpack_contiguous_spec behind cols svec (m : matrix) :
  has_shape 64 cols m → (1 ≤ cols)%nat → length svec = cols →
  Forall is_word svec → is_word behind →
  unpack_contiguous behind svec m = overwritten behind (decode_words svec).
Proof.
  intros Hm Hc Hlen Hwords Hword. unfold unpack_contiguous.
  rewrite (has_shape_shape1 64 cols) by (done || lia).
  unfold unpack_range, xrange.
  replace (Z.to_nat (Z.of_nat (length svec) + 1)) with (cols + 1)%nat by lia.
  rewrite seq_app, foldl_app, unpack_columns_contiguous by done.
  cbn [seq foldl Nat.add]. apply unpack_extra_column; [done..|].
  destruct (decode_words_shape svec) as [-> _]. lia.
Qed.

Lemma overwritten_lookup w (m : matrix) k j :
  overwritten w m !! k ≫= (.!! j) =
    match k with
    | O => m !! k ≫= (.!! j)
    | S k' =>
        row ← m !! k;
        <[0%nat := float_of_digit (Z.testbit w (63 - Z.of_nat k'))]> row !! j
    end.
Proof.
  unfold overwritten. rewrite list_lookup_imap.
  destruct k as [|k']; by destruct (m !! _).
Qed.

Lemma overwritten_rest w (m : matrix) k j :
  k = 0%nat ∨ (0 < j)%nat →
  overwritten w m !! k ≫= (.!! j) = m !! k ≫= (.!! j).
Proof.
  intros Hkj. rewrite overwritten_lookup. destruct k as [|k']; [done|].
  destruct (m !! S k') as [row|]; [|done]. simpl.
  apply list_lookup_insert_ne. lia.
Qed.

Lemma overwritten_column_0 rows cols w (m : matrix) k :
  has_shape rows cols m → (1 ≤ cols)%nat → (S k < rows)%nat →
  overwritten w m !! S k ≫= (.!! 0%nat)
    = Some (float_of_digit (Z.testbit w (63 - Z.of_nat k))).
Proof.
  intros Hm Hc Hk. rewrite overwritten_lookup.
  destruct (has_shape_lookup _ _ _ (S k) Hm Hk) as (row & -> & Hl). simpl.
  apply list_lookup_insert_eq. lia.
Qed.

(** The packed words a run computes simulate every replica. *)
Lemma ms_run_replicas sched mcsteps (m : matrix) cols nbs (rng : R) :
  generator_laws (R:=R) → exp_law → Forall (λ temp, 0 < temp) sched →
  has_shape 64 cols m → valid_graph cols nbs →
  ∃ svec, ms_run sched mcsteps m nbs rng = Some svec
    ∧ length svec = cols ∧ Forall is_word svec
    ∧ ∀ k, (k < 64)%nat →
        for_each (anneal_logic nbs)
          (replica_tape k (ms_tape sched mcsteps cols rng))
          (replica k (packed m cols)) = Some (replica k svec).
Proof.
  intros Hlaws Hexp Hsched Hm Hnbs.
  destruct (decode_pack cols m Hm) as (Hpack & Hlen & Hwords & _).
  destruct (tape_simulation cols nbs (ms_tape sched mcsteps cols rng)
              (packed m cols))
    as (svec & Hrun & Hlen' & Hwords' & Hsim);
    [done|done|by apply ms_tape_valid|done..|].
  exists svec. split; [|done].
  rewrite ms_run_flatten, Hpack. cbn [mbind option_bind].
  by rewrite (has_shape_shape1 64 cols) by (done || lia).
Qed.

(** What a call leaves in a C-contiguous matrix of 64 rows. *)
Lemma multispin_contiguous behind sched mcsteps (m : matrix) cols nbs
    (rng : R) :
  generator_laws (R:=R) → exp_law → Forall (λ temp, 0 < temp) sched →
  has_shape 64 cols m → (1 ≤ cols)%nat → valid_graph cols nbs →
  is_word behind →
  ∃ svec,
    Anneal_multispin_contiguous behind sched mcsteps m nbs rng
      = Some (overwritten behind (decode_words svec))
    ∧ ∀ k, (k < 64)%nat →
        for_each (anneal_logic nbs)
          (replica_tape k (ms_tape sched mcsteps cols rng))
          (replica k (packed m cols)) = Some (replica k svec).
Proof.
  intros Hlaws Hexp Hsched Hm Hc Hnbs Hword.
  destruct (ms_run_replicas sched mcsteps m cols nbs rng)
    as (svec & Hrun & Hlen & Hwords & Hsim); [done..|].
  exists svec. split; [|done].
  unfold Anneal_multispin_contiguous. rewrite Hrun. cbn [mbind option_bind].
  by rewrite (unpack_contiguous_spec behind cols).
Qed.

Lemma multispin_contiguous_empty_schedule behind cols mcsteps (m : matrix)
    nbs (rng : R) :
  has_shape 64 cols m → (1 ≤ cols)%nat → is_word behind →
  Anneal_multispin_contiguous behind [] mcsteps m nbs rng
    = Some (overwritten behind (roundtrip m)).
Proof.
  intros Hm Hc Hword. unfold Anneal_multispin_contiguous.
  destruct (decode_pack cols m Hm) as (Hpack & Hlen & Hwords & Hdec).
  rewrite ms_run_empty_schedule, Hpack. cbn [mbind option_bind].
  by rewrite (unpack_contiguous_spec behind cols), Hdec.
Qed.

End Contiguous.

Section ContiguousClaims.
Context {R C : Type} `{!NumpyRandom R, !LibC C, !LibM}.
Local Open Scope Qc_scope.

Lemma ex_ones_shape : has_shape 64 2 ex_ones.
Proof. split; [reflexivity|]. by apply Forall_replicate. Qed.

Lemma ex_ones_binary : binary ex_ones.
Proof.
  apply Forall_replicate.
  repeat apply Forall_cons_2; [by right|by right|apply Forall_nil_2].
Qed.

Lemma ex_ones_overwritten : overwritten 0 ex_ones ≠ ex_ones.
Proof. apply (bool_decide_eq_false_1 _). by vm_compute. Qed.

(** C5, where the code departs from it.  With a zero-length schedule
    [Anneal], [Anneal_parallel] and [QuantumAnneal] return the configuration
    they were given.  [Anneal_multispin] packs and unpacks even then, and
    its unpacking loop runs one column too far (C6): in a C-contiguous
    matrix of 64 rows whose entries are 0 or 1 the call leaves column 0 of
    rows 1 to 63 overwritten by the leading digits of the word behind the
    packed array.  With that word 0, the matrix of ones comes back with
    zeros there. *)
Theorem C5_empty_schedule :
  (∀ mcsteps svec nbs (rng : R) (c : C),
     ∃ rng', Anneal [] mcsteps svec nbs rng c = Some (svec, c, rng'))
  ∧ (∀ mcsteps svec nbs nthreads (c : C),
       Anneal_parallel [] mcsteps svec nbs nthreads c = Some (svec, c))
  ∧ (∀ mcSteps trotterSlices T nSpins configurations neighbors (rng : R),
       QuantumAnneal [] mcSteps trotterSlices T nSpins configurations
         neighbors rng = Some (configurations, rng))
  ∧ (∀ behind cols mcsteps (m : matrix) nbs (rng : R),
       has_shape 64 cols m → (1 ≤ cols)%nat → binary m → is_word behind →
       Anneal_multispin_contiguous behind [] mcsteps m nbs rng
         = Some (overwritten behind m))
  ∧ (∀ (rng : R),
       Anneal_multispin_contiguous 0 [] 1 ex_ones two_free_spins rng
         = Some (overwritten 0 ex_ones)
       ∧ overwritten 0 ex_ones !! 1%nat = Some [fl 0 1; fl 1 1]
       ∧ overwritten 0 ex_ones ≠ ex_ones).
Proof.
  assert (∀ behind cols mcsteps (m : matrix) nbs (rng : R),
            has_shape 64 cols m → (1 ≤ cols)%nat → binary m →
            is_word behind →
            Anneal_multispin_contiguous behind [] mcsteps m nbs rng
              = Some (overwritten behind m)) as Hgen.
  { intros behind cols mcsteps m nbs rng Hm Hc Hbin Hword.
    rewrite (multispin_contiguous_empty_schedule behind cols) by done.
    by rewrite (proj2 (roundtrip_fixed m) Hbin). }
  split_and!.
  - intros. unfold Anneal. simpl.
    destruct (permutation rng _) as [shuff rng']. by exists rng'.
  - done.
  - done.
  - exact Hgen.
  - intros rng. split_and!.
    + apply (Hgen 0%Z 2%nat); [apply ex_ones_shape|lia|apply ex_ones_binary|].
      unfold is_word. lia.
    + by vm_compute.
    + apply ex_ones_overwritten.
Qed.

(** C10, where the code departs from it.  For a matrix of 64 rows the
    packing succeeds and sets bit [63 - k] of word [i], the bit of replica
    [k], exactly when entry [k, i] is non-zero.  The unpacking loop writes
    the digits back but runs one column too far (C6): a C-contiguous matrix
    is left as what packing and unpacking make of its entries (0 of 0, 1 of
    anything else) with column 0 of rows 1 to 63 overwritten by the leading
    digits of the word behind the packed array.  With that word 0, the
    matrix of ones is not restored. *)
Theorem C10_pack_unpack :
  (∀ cols (m : matrix), has_shape 64 cols m →
     ∃ words, pack m (replicate (shape1 m) 0%Z) = Some words
       ∧ ∀ k i x, (k < 64)%nat → m !! k ≫= (.!! i) = Some x →
           ∃ w, words !! i = Some w ∧
                (Z.testbit w (63 - Z.of_nat k) = true ↔ x ≠ 0))
  ∧ (∀ behind cols (m : matrix),
       has_shape 64 cols m → (1 ≤ cols)%nat → is_word behind →
       ∃ words, pack m (replicate (shape1 m) 0%Z) = Some words
         ∧ unpack_contiguous behind words m
             = overwritten behind (roundtrip m))
  ∧ (∃ words, pack ex_ones (replicate (shape1 ex_ones) 0%Z) = Some words
       ∧ unpack_contiguous 0 words ex_ones = overwritten 0 ex_ones
       ∧ overwritten 0 ex_ones !! 1%nat = Some [fl 0 1; fl 1 1]
       ∧ unpack_contiguous 0 words ex_ones ≠ ex_ones).
Proof.
  assert (∀ behind cols (m : matrix),
            has_shape 64 cols m → (1 ≤ cols)%nat → is_word behind →
            ∃ words, pack m (replicate (shape1 m) 0%Z) = Some words
              ∧ unpack_contiguous behind words m
                  = overwritten behind (roundtrip m)) as Hgen.
  { intros behind cols m Hm Hc Hword.
    destruct (decode_pack cols m Hm) as (Hpack & Hlen & Hwords & Hdec).
    exists (packed m cols). split; [done|].
    by rewrite (unpack_contiguous_spec behind cols), Hdec. }
  split_and!.
  - intros cols m Hm.
    destruct (decode_pack cols m Hm) as (Hpack & Hlen & Hwords & Hdec).
    exists (packed m cols). split; [done|].
    intros k i x Hk Hx.
    destruct (m !! k) as [row|] eqn:Hrow; [|done]. simpl in Hx.
    assert (i < cols)%nat as Hi.
    { destruct Hm as [_ Hrows]. apply lookup_lt_Some in Hx.
      by rewrite (Forall_lookup_1 _ _ _ _ Hrows Hrow) in Hx. }
    exists (word_of_bits (column_bits m i)). split.
    + unfold packed. by rewrite list_lookup_fmap, lookup_seq_lt.
    + pose proof (word_of_bits_replica (column_bits m i) k) as Hbit.
      rewrite (column_bits_lookup _ _ _ _ _ Hrow Hx) in Hbit.
      rewrite column_bits_length in Hbit.
      destruct Hm as [Hl _]. specialize (Hbit Hl Hk).
      apply (inj Some) in Hbit. rewrite <- Hbit. unfold entry_bit.
      apply bool_decide_eq_true.
  - exact Hgen.
  - destruct (Hgen 0%Z 2%nat ex_ones) as (words & Hpack & Hun);
      [apply ex_ones_shape|lia|unfold is_word; lia|].
    rewrite (proj2 (roundtrip_fixed ex_ones) ex_ones_binary) in Hun.
    exists words. split_and!; [done|done|by vm_compute|].
    rewrite Hun. apply ex_ones_overwritten.
Qed.

End ContiguousClaims.

Section ContiguousRuns.
Local Open Scope Qc_scope.

(** C3, where the code departs from it.  For every graph with valid
    neighbour indices, every schedule of positive temperatures and every
    generator with draws below 1, the words that [Anneal_multispin] computes
    decode, in every replica [k], to the configuration that the per-spin
    logic of [Anneal] produces from row [k] over the same visits with the
    draws of replica [k]; but the matrix that the call leaves is that
    decoding with column 0 of rows 1 to 63 overwritten (C6).  On 64
    identical replicas of two spins -1 with a ferromagnetic bond, at
    temperature 1/1000 with draws 1/2 and the word 0 behind the packed
    array, the logic leaves both spins at -1 and replica 1 of the matrix
    reads +1, -1. *)
Theorem C3_multispin_encoding :
  (∀ (R : Type) `{!NumpyRandom R, !LibM} behind sched mcsteps (m : matrix)
     cols nbs (rng : R),
     generator_laws (R:=R) → exp_law → Forall (λ temp, 0 < temp) sched →
     has_shape 64 cols m → (1 ≤ cols)%nat → valid_graph cols nbs →
     is_word behind →
     ∃ svec,
       Anneal_multispin_contiguous behind sched mcsteps m nbs rng
         = Some (overwritten behind (decode_words svec))
       ∧ ∀ k, (k < 64)%nat →
           ∃ init, replica_config k m = Some init
             ∧ for_each (anneal_logic nbs)
                 (replica_tape k (ms_tape sched mcsteps cols rng)) init
               = Some (replica k svec)
             ∧ replica_config k (decode_words svec) = Some (replica k svec))
  ∧ replica_config 1 ex_ones = Some [fl (-1) 1; fl (-1) 1]
  ∧ for_each (anneal_logic ex_graph)
      (replica_tape 1 (ms_tape [fl 1 1000] 1 2 half_script))
      [fl (-1) 1; fl (-1) 1]
    = Some [fl (-1) 1; fl (-1) 1]
  ∧ Anneal_multispin_contiguous 0 [fl 1 1000] 1 ex_ones ex_graph half_script
      ≫= replica_config 1
    = Some [fl 1 1; fl (-1) 1].
Proof.
  split_and!.
  - intros R HR HM behind sched mcsteps m cols nbs rng Hlaws Hexp Hsched Hm
      Hc Hnbs Hword.
    destruct (multispin_contiguous behind sched mcsteps m cols nbs rng)
      as (svec & Hrun & Hsim); [done..|].
    exists svec. split; [done|]. intros k Hk.
    exists (replica k (packed m cols)). split_and!.
    + by apply replica_config_packed.
    + by apply Hsim.
    + by apply replica_config_decode.
  - by vm_compute.
  - by vm_compute.
  - by vm_compute.
Qed.

End ContiguousRuns.

(** * Further properties of the code *)

Section SignOnly.
Local Open Scope Qc_scope.

Lemma same_up_to_sign_refl a : same_up_to_sign a a.
Proof. apply Forall2_same_length_lookup_2; [done|]. intros i x y ??. left. congruence. Qed.

Lemma same_up_to_sign_trans a b c :
  same_up_to_sign a b → same_up_to_sign b c → same_up_to_sign a c.
Proof.
  intros Hab Hbc. unfold same_up_to_sign in *.
  revert c Hbc. induction Hab as [|x y a b Hxy Hab IH]; intros c Hbc.
  - by inversion Hbc.
  - inversion Hbc as [|y' z b' c' Hyz Hbc']; subst. constructor; [|by apply IH].
    destruct Hxy as [->| ->], Hyz as [->| ->]; auto.
    left. apply Qcopp_involutive.
Qed.

Lemma same_up_to_sign_length a b : same_up_to_sign a b → length b = length a.
Proof. intros H. symmetry. by eapply Forall2_length. Qed.

Lemma flip_or_keep_sign a b : flip_or_keep a b → same_up_to_sign a b.
Proof.
  intros [->|(i & s & Hs & ->)]; [apply same_up_to_sign_refl|].
  apply Forall2_same_length_lookup_2; [by rewrite length_insert|].
  intros j x y Hx Hy. destruct (decide (j = i)) as [->|Hne].
  - rewrite list_lookup_insert_eq in Hy by (by eapply lookup_lt_Some).
    simplify_eq. right. ring.
  - rewrite list_lookup_insert_ne in Hy by done. left. congruence.
Qed.




End SignOnly.

Section ClassicalSafety.
Context {R C : Type} `{!NumpyRandom R, !LibC C, !LibM}.
Local Open Scope Qc_scope.

Lemma flip_total svec sidx :
  (sidx < length svec)%nat → ∃ svec', flip svec sidx = Some svec'.
Proof.
  intros Hlt. destruct (lookup_lt_is_Some_2 svec sidx Hlt) as [s Hs].
  rewrite (flip_Some _ _ s Hs). eauto.
Qed.

(** On a valid graph the sequential kernel stays in range. *)
Lemma anneal_spin_total nbs temp svec (c : C) sidx :
  valid_graph (length svec) nbs → (sidx < length svec)%nat →
  ∃ svec' c', anneal_spin nbs temp (svec, c) sidx = Some (svec', c').
Proof.
  intros [Hlen Hrows] Hsidx. unfold anneal_spin.
  destruct (lookup_lt_is_Some_2 nbs sidx) as [row Hrow]; [lia|].
  destruct (lookup_lt_is_Some_2 svec sidx Hsidx) as [s Hs].
  rewrite Hrow. simpl.
  rewrite (ediff_loop_sum _ _ s) by
    (done || by eapply (Forall_lookup_1 _ _ _ _ Hrows)).
  simpl. unfold metropolis. rewrite !(flip_Some _ _ s Hs).
  case_decide; [by eauto|]. destruct (cdraw c) as [u c'].
  case_decide; by eauto.
Qed.

(** On a valid graph the parallel kernel stays in range. *)
Lemma par_spin_total nbs temp svec (c : C) ediffs sidx :
  valid_graph (length svec) nbs → length ediffs = length svec →
  (sidx < length svec)%nat →
  ∃ svec' c' ediffs',
    par_spin nbs temp (svec, c, ediffs) sidx = Some (svec', c', ediffs')
    ∧ length ediffs' = length ediffs.
Proof.
  intros [Hlen Hrows] Hel Hsidx. unfold par_spin.
  destruct (lookup_lt_is_Some_2 nbs sidx) as [row Hrow]; [lia|].
  destruct (lookup_lt_is_Some_2 svec sidx Hsidx) as [s Hs].
  rewrite aset_Some by lia. simpl. rewrite Hrow. simpl.
  rewrite (par_nb_loop_spec _ _ s _ _ 0);
    [|done|by eapply (Forall_lookup_1 _ _ _ _ Hrows)
     |by rewrite list_lookup_insert_eq by lia].
  simpl. rewrite list_lookup_insert_eq by (rewrite length_insert; lia). simpl.
  unfold par_metropolis. rewrite !(flip_Some _ _ s Hs).
  case_decide; simpl;
    [eexists _, _, _; split; [done|by rewrite !length_insert]|].
  destruct (cdraw c) as [u c']. case_decide; simpl;
    eexists _, _, _; (split; [done|by rewrite !length_insert]).
Qed.

Lemma par_spin_flip_or_keep nbs temp svec (c : C) ediffs sidx svec' c' ediffs' :
  par_spin nbs temp (svec, c, ediffs) sidx = Some (svec', c', ediffs') →
  flip_or_keep svec svec'.
Proof.
  unfold par_spin. intros Hup.
  destruct (aset ediffs sidx 0) as [e0|]; [|done]. simpl in Hup.
  destruct (nbs !! sidx) as [row|]; [|done]. simpl in Hup.
  destruct (for_each _ row e0) as [e1|]; [|done]. simpl in Hup.
  destruct (e1 !! sidx) as [e|]; [|done]. simpl in Hup.
  destruct (par_metropolis temp e svec sidx c) as [[sv cc]|] eqn:Hm; [|done].
  simpl in Hup. simplify_eq. unfold par_metropolis in Hm.
  case_decide.
  - destruct (flip svec sidx) as [a'|] eqn:Hf; [|done]. simpl in Hm.
    simplify_eq. by eapply flip_flip_or_keep.
  - destruct (cdraw c) as [u c1]. case_decide.
    + destruct (flip svec sidx) as [a'|] eqn:Hf; [|done]. simpl in Hm.
      simplify_eq. by eapply flip_flip_or_keep.
    + simplify_eq. by left.
Qed.

Lemma anneal_sweep_total nbs temp svec0 shuff svec (c : C) :
  valid_graph (length svec0) nbs → Forall (λ i, i < length svec0)%nat shuff →
  same_up_to_sign svec0 svec →
  ∃ svec' c', for_each (anneal_spin nbs temp) shuff (svec, c) = Some (svec', c')
    ∧ same_up_to_sign svec0 svec'.
Proof.
  intros Hnbs Hshuff Hs.
  destruct (for_each_total (λ st : list Qc * C, same_up_to_sign svec0 st.1)
              (anneal_spin nbs temp) shuff (svec, c))
    as ([svec' c'] & Hrun & Hinv); [done| |by eauto].
  intros [a ca] sidx Hin Ha. simpl in Ha.
  pose proof (same_up_to_sign_length _ _ Ha) as Hl.
  destruct (anneal_spin_total nbs temp a ca sidx) as (b & cb & Hb).
  { by rewrite Hl. }
  { rewrite Hl. apply (proj1 (list.Forall_forall _ _) Hshuff _ Hin). }
  exists (b, cb). split; [done|]. simpl.
  eapply same_up_to_sign_trans; [done|]. apply flip_or_keep_sign.
  apply (spin_update_flip_or_keep (C:=C) nbs). by exists temp, sidx, ca, cb.
Qed.

(** X1.  On a coupling graph with one row per spin whose neighbour indices all
    name spins of the
    configuration, [Anneal] and [Anneal_parallel] access no array out of
    range: for every schedule, sweep count and state of the random sources
    the run returns, and the configuration it leaves differs from the
    initial one by the signs of its entries only. *)
Theorem X1_classical_engines_stay_in_range (sched : list Qc) (mcsteps : Z)
    (svec : list Qc) (nbs : graph) (nthreads : Z) (rng : R) (c : C) :
  valid_graph (length svec) nbs → permutation_law (R:=R) →
  (∃ svec' c' rng',
     Anneal sched mcsteps svec nbs rng c = Some (svec', c', rng')
     ∧ same_up_to_sign svec svec')
  ∧ (∃ svec' c',
       Anneal_parallel sched mcsteps svec nbs nthreads c = Some (svec', c')
       ∧ same_up_to_sign svec svec').
Proof.
  intros Hnbs Hperm. split.
  - unfold Anneal.
    pose proof (Hperm rng (seq 0 (length svec))) as Hp0.
    destruct (permutation rng (seq 0 (length svec))) as [shuff0 rng0].
    simpl in Hp0.
    destruct (for_each_total
      (λ st : list Qc * C * (list nat * R),
         same_up_to_sign svec st.1.1
         ∧ Forall (λ i, i < length svec)%nat st.2.1)
      (anneal_temp nbs mcsteps) sched (svec, c, (shuff0, rng0)))
      as ([[svec' c'] [shuff' rng']] & Hrun & Hinv & _).
    + split; [apply same_up_to_sign_refl|]. simpl. rewrite Hp0.
      apply list.Forall_forall. intros i Hi%elem_of_seq. lia.
    + intros st temp _ Hst. unfold anneal_temp.
      apply for_each_total; [done|]. clear st Hst.
      intros [[a ca] [shuff rg]] step _ [Ha Hsh]. simpl in Ha, Hsh.
      unfold anneal_step.
      destruct (anneal_sweep_total nbs temp svec shuff a ca)
        as (b & cb & -> & Hb); [done..|]. simpl.
      eexists. split; [done|]. split; [done|].
      pose proof (Hperm rg shuff) as Hp.
      destruct (permutation rg shuff) as [shuff1 rg1]. simpl in *.
      by rewrite Hp.
    + rewrite Hrun. simpl. by eauto.
  - unfold Anneal_parallel.
    destruct (for_each_total
      (λ st : list Qc * C * list Qc,
         same_up_to_sign svec st.1.1 ∧ length st.2 = length svec)
      (par_temp nbs mcsteps (length svec)) sched
      (svec, c, replicate (length svec) 0))
      as ([[svec' c'] ediffs'] & Hrun & Hinv & _).
    + split; [apply same_up_to_sign_refl|]. simpl. apply length_replicate.
    + intros st temp _ Hst. unfold par_temp.
      apply for_each_total; [done|]. clear st Hst.
      intros st step _ Hst. unfold par_step.
      apply for_each_total; [done|]. clear st Hst.
      intros [[a ca] ea] sidx Hin%elem_of_seq [Ha Hea]. simpl in Ha, Hea.
      pose proof (same_up_to_sign_length _ _ Ha) as Hl.
      destruct (par_spin_total nbs temp a ca ea sidx)
        as (b & cb & eb & Hb & Heb); [by rewrite Hl|lia|lia|].
      exists (b, cb, eb). split; [done|]. simpl. split; [|lia].
      eapply same_up_to_sign_trans; [done|]. apply flip_or_keep_sign.
      by eapply par_spin_flip_or_keep.
    + rewrite Hrun. simpl. by eauto.
Qed.

End ClassicalSafety.

Section QuantumSafety.
Context {R : Type} `{!NumpyRandom R, !LibM}.
Local Open Scope Qc_scope.





(** *** A single Trotter slice *)

Lemma q_ediff_single_slice svec tvec sidx tidx nb_pairs jperp :
  (length tvec ≤ 1)%nat → q_ediff svec tvec sidx tidx nb_pairs jperp = None.
Proof.
  intros Hl. unfold q_ediff.
  destruct (for_each _ nb_pairs 0) as [e|]; [|done]. simpl.
  destruct (trotter_neighbours _ _) as [tl tr] eqn:Hn.
  assert (aget tvec tr = None) as Hr.
  { unfold trotter_neighbours in Hn. unfold aget.
    repeat case_decide; simplify_eq; try done;
      apply lookup_ge_None_2; lia. }
  destruct (svec !! sidx) as [s|]; [|done]. simpl.
  destruct (aget tvec tl); simpl; [|done]. by rewrite Hr.
Qed.

Lemma qa_spin_single_slice neighbors T perpJ islice (conf : matrix) (rng : R)
    ispin :
  Forall (λ row, length row ≤ 1)%nat conf →
  qa_spin neighbors T perpJ islice (conf, rng) ispin = None.
Proof.
  intros Hconf. unfold qa_spin.
  destruct (column conf islice) as [svec|]; [|done]. simpl.
  destruct (conf !! ispin) as [tvec|] eqn:Ht; [|done]. simpl.
  destruct (neighbors !! ispin) as [nb|]; [|done]. simpl.
  unfold QuantumMetropolisAccept.
  rewrite q_ediff_single_slice; [done|].
  by eapply (Forall_lookup_1 _ _ _ _ Hconf).
Qed.

Lemma for_each_first_fails {I S} (body : S → I → option S) l s :
  l ≠ [] → (∀ a i, body a i = None) → for_each body l s = None.
Proof. destruct l as [|i l]; [done|]. intros _ Hb. simpl. by rewrite Hb. Qed.

Lemma permutation_nonempty (r : R) l :
  permutation_law (R:=R) → l ≠ [] → (permutation r l).1 ≠ [].
Proof.
  intros Hperm Hl Hnil. specialize (Hperm r l). rewrite Hnil in Hperm.
  symmetry in Hperm. by apply Permutation_nil_r in Hperm.
Qed.

Lemma xrange_nonempty n : (0 < n)%Z → xrange n ≠ [].
Proof.
  intros Hn. unfold xrange. destruct (Z.to_nat n) eqn:E; [lia|done].
Qed.

Lemma qa_slice_single_slice neighbors T perpJ nSpins (conf : matrix)
    (rng : R) islice :
  permutation_law (R:=R) → Forall (λ row, length row ≤ 1)%nat conf →
  (0 < nSpins)%Z →
  qa_slice neighbors T perpJ nSpins (conf, rng) islice = None.
Proof.
  intros Hperm Hconf Hn. unfold qa_slice.
  pose proof (permutation_nonempty rng (xrange nSpins) Hperm
                (xrange_nonempty _ Hn)) as Ho.
  destruct (permutation rng (xrange nSpins)) as [order rng1].
  destruct order as [|ispin order]; [done|].
  cbn [for_each]. by rewrite qa_spin_single_slice.
Qed.

Lemma qa_step_single_slice neighbors T perpJ trotterSlices nSpins
    (conf : matrix) (rng : R) step :
  permutation_law (R:=R) → Forall (λ row, length row ≤ 1)%nat conf →
  (0 < trotterSlices)%Z → (0 < nSpins)%Z →
  qa_step neighbors T perpJ trotterSlices nSpins (conf, rng) step = None.
Proof.
  intros Hperm Hconf HP Hn. unfold qa_step.
  pose proof (permutation_nonempty rng (xrange trotterSlices) Hperm
                (xrange_nonempty _ HP)) as Ho.
  destruct (permutation rng (xrange trotterSlices)) as [order rng1].
  destruct order as [|islice order]; [done|].
  cbn [for_each]. by rewrite qa_slice_single_slice.
Qed.

(** X3.  With a single Trotter slice the quantum kernel reads the slice of
    index 1, which does not exist: on a matrix of at most one column every
    run of [QuantumAnneal] that visits a spin (a schedule value, a sweep, a
    slice and a spin to visit) goes out of range. *)
Theorem X3_single_slice_goes_out_of_range (sched : list Qc) (mcSteps : Z)
    (trotterSlices : Z) (T : Qc) (nSpins : Z) (conf : matrix)
    (neighbors : graph) (rng : R) :
  permutation_law (R:=R) →
  Forall (λ row, length row ≤ 1)%nat conf →
  sched ≠ [] → (0 < mcSteps)%Z → (0 < trotterSlices)%Z → (0 < nSpins)%Z →
  QuantumAnneal sched mcSteps trotterSlices T nSpins conf neighbors rng = None.
Proof.
  intros Hperm Hconf Hsched Hmc HP Hn. unfold QuantumAnneal.
  destruct sched as [|field sched]; [done|]. cbn [for_each].
  assert (qa_field neighbors mcSteps trotterSlices T nSpins (conf, rng) field
          = None) as ->; [|done].
  unfold qa_field.
  destruct (xrange mcSteps) as [|step steps] eqn:Hx;
    [by apply xrange_nonempty in Hx|].
  cbn [for_each]. by rewrite qa_step_single_slice.
Qed.

(** *** Two Trotter slices *)

(** X4.  With two Trotter slices the left and the right neighbour of a slice
    are both the other slice, and the kernel adds the coupling to the other
    slice twice. *)
Theorem X4_two_slices_count_the_other_slice_twice (svec tvec : list Qc)
    (sidx tidx : nat) (s v : Qc) (nb_pairs : list (Qc * Qc)) (jperp : Qc) :
  length tvec = 2%nat → (tidx < 2)%nat →
  svec !! sidx = Some s → valid_row (length svec) nb_pairs →
  tvec !! (1 - tidx)%nat = Some v →
  trotter_neighbours 2 (Z.of_nat tidx)
    = (1 - Z.of_nat tidx, 1 - Z.of_nat tidx)%Z
  ∧ q_ediff svec tvec sidx tidx nb_pairs jperp =
      Some (neighbour_sum (value svec) sidx s nb_pairs
            + 2 * ((-2) * s * (jperp * v))).
Proof.
  intros Hl Ht Hs Hrow Hv.
  assert (trotter_neighbours 2 (Z.of_nat tidx)
          = (1 - Z.of_nat tidx, 1 - Z.of_nat tidx)%Z) as Hn.
  { destruct tidx as [|[|tidx]]; [done|done|lia]. }
  split; [done|]. unfold q_ediff. rewrite Hl.
  change (Z.of_nat 2) with 2%Z. rewrite Hn.
  change (for_each (q_nb_step svec sidx) nb_pairs 0)
    with (ediff_loop svec sidx nb_pairs 0).
  rewrite (ediff_loop_sum _ _ s) by done. simpl. rewrite Hs. simpl.
  assert (aget tvec (1 - Z.of_nat tidx) = Some v) as ->.
  { unfold aget. rewrite decide_True by lia.
    by replace (Z.to_nat (1 - Z.of_nat tidx)) with (1 - tidx)%nat by lia. }
  simpl. f_equal. ring.
Qed.

End QuantumSafety.

Section VisitFrames.
Context {R C : Type} `{!NumpyRandom R, !LibC C, !LibM}.
Local Open Scope Qc_scope.

Lemma flip_frame svec sidx svec' j :
  flip svec sidx = Some svec' → j ≠ sidx → svec' !! j = svec !! j.
Proof.
  unfold flip, aset. intros Hf Hj.
  destruct (svec !! sidx); [|done]. simpl in Hf.
  case_decide; [|done]. simplify_eq. by apply list_lookup_insert_ne.
Qed.

Lemma anneal_spin_frame nbs temp a (c : C) sidx b c' j :
  anneal_spin nbs temp (a, c) sidx = Some (b, c') → j ≠ sidx →
  b !! j = a !! j.
Proof.
  intros Hup Hj. unfold anneal_spin in Hup.
  destruct (nbs !! sidx) as [row|]; [|done]. simpl in Hup.
  destruct (ediff_loop a sidx row 0) as [ediff|]; [|done]. simpl in Hup.
  unfold metropolis in Hup. case_decide.
  - destruct (flip a sidx) as [a'|] eqn:Hf; [|done]. simpl in Hup.
    simplify_eq. by eapply flip_frame.
  - destruct (cdraw c) as [u c1]. case_decide.
    + destruct (flip a sidx) as [a'|] eqn:Hf; [|done]. simpl in Hup.
      simplify_eq. by eapply flip_frame.
    + by simplify_eq.
Qed.

Lemma par_spin_frame nbs temp a (c : C) ediffs sidx b c' ediffs' j :
  par_spin nbs temp (a, c, ediffs) sidx = Some (b, c', ediffs') → j ≠ sidx →
  b !! j = a !! j.
Proof.
  unfold par_spin. intros Hup Hj.
  destruct (aset ediffs sidx 0) as [e0|]; [|done]. simpl in Hup.
  destruct (nbs !! sidx) as [row|]; [|done]. simpl in Hup.
  destruct (for_each _ row e0) as [e1|]; [|done]. simpl in Hup.
  destruct (e1 !! sidx) as [e|]; [|done]. simpl in Hup.
  destruct (par_metropolis temp e a sidx c) as [[sv cc]|] eqn:Hm; [|done].
  simpl in Hup. simplify_eq. unfold par_metropolis in Hm.
  case_decide.
  - destruct (flip a sidx) as [a'|] eqn:Hf; [|done]. simpl in Hm.
    simplify_eq. by eapply flip_frame.
  - destruct (cdraw c) as [u c1]. case_decide.
    + destruct (flip a sidx) as [a'|] eqn:Hf; [|done]. simpl in Hm.
      simplify_eq. by eapply flip_frame.
    + by simplify_eq.
Qed.

Lemma qa_spin_frame neighbors T perpJ islice (a : matrix) (rng : R) ispin
    b rng' i j :
  qa_spin neighbors T perpJ islice (a, rng) ispin = Some (b, rng') →
  (i, j) ≠ (ispin, islice) →
  b !! i ≫= (.!! j) = a !! i ≫= (.!! j).
Proof.
  intros Hup Hij. unfold qa_spin in Hup.
  destruct (column a islice) as [svec|]; [|done]. simpl in Hup.
  destruct (a !! ispin) as [tvec|] eqn:Ht; [|done]. simpl in Hup.
  destruct (neighbors !! ispin) as [nb|]; [|done]. simpl in Hup.
  destruct (QuantumMetropolisAccept _ _ _ _ _ _ _ _) as [[acc rng1]|];
    [|done]. simpl in Hup. destruct acc; [|by simplify_eq].
  destruct (tvec !! islice) as [x|] eqn:Hx; [|done]. simpl in Hup.
  unfold aset2 in Hup. rewrite Ht in Hup. simpl in Hup.
  unfold aset in Hup. case_decide; [|done]. simpl in Hup. simplify_eq.
  destruct (decide (i = ispin)) as [->|Hne].
  - rewrite list_lookup_insert_eq by (by eapply lookup_lt_Some).
    rewrite Ht. simpl. apply list_lookup_insert_ne. congruence.
  - by rewrite list_lookup_insert_ne.
Qed.

Lemma ms_spin_frame nbs temp svec ediffs rands (rng : R) sidx svec' ediffs'
    rands' rng' j :
  ms_spin nbs temp (svec, ediffs, rands, rng) sidx
    = Some (svec', ediffs', rands', rng') →
  j ≠ sidx → svec' !! j = svec !! j.
Proof.
  unfold ms_spin. intros Hup Hj.
  destruct (nbs !! sidx) as [row|]; [|done]. cbn [mbind option_bind] in Hup.
  destruct (for_each _ row _) as [e1|]; [|done].
  cbn [mbind option_bind] in Hup.
  destruct (build_mask _) as [fm|]; [|done]. cbn [mbind option_bind] in Hup.
  destruct (svec !! sidx) as [w|]; [|done]. cbn [mbind option_bind] in Hup.
  unfold aset in Hup. case_decide; [|done]. cbn [mbind option_bind] in Hup.
  destruct (rand rng 64) as [r1 g1]. simplify_eq.
  by apply list_lookup_insert_ne.
Qed.

(** X5.  A visit changes no entry but the visited one: the sequential and
    the parallel kernel leave every other spin of the configuration as it
    was, the quantum kernel every other entry of the matrix, the multispin
    kernel every other packed word. *)
Theorem X5_a_visit_touches_one_entry :
  (∀ nbs temp a (c : C) sidx b c' j,
     anneal_spin nbs temp (a, c) sidx = Some (b, c') → j ≠ sidx →
     b !! j = a !! j)
  ∧ (∀ nbs temp a (c : C) ediffs sidx b c' ediffs' j,
       par_spin nbs temp (a, c, ediffs) sidx = Some (b, c', ediffs') →
       j ≠ sidx → b !! j = a !! j)
  ∧ (∀ neighbors T perpJ islice (a : matrix) (rng : R) ispin b rng' i j,
       qa_spin neighbors T perpJ islice (a, rng) ispin = Some (b, rng') →
       (i, j) ≠ (ispin, islice) →
       b !! i ≫= (.!! j) = a !! i ≫= (.!! j))
  ∧ (∀ nbs temp svec ediffs rands (rng : R) sidx svec' ediffs' rands' rng' j,
       ms_spin nbs temp (svec, ediffs, rands, rng) sidx
         = Some (svec', ediffs', rands', rng') →
       j ≠ sidx → svec' !! j = svec !! j).
Proof.
  split_and!.
  - apply anneal_spin_frame.
  - apply par_spin_frame.
  - apply qa_spin_frame.
  - apply ms_spin_frame.
Qed.

(** *** The energy difference after a flip *)

Lemma neighbour_sum_flipped svec sidx s row :
  svec !! sidx = Some s →
  neighbour_sum (value (<[sidx := s * (-1)]> svec)) sidx (s * (-1)) row
    = - neighbour_sum (value svec) sidx s row.
Proof.
  intros Hs. unfold neighbour_sum.
  induction row as [|nb row IH]; [done|].
  rewrite !fmap_cons, !sum_list_cons, IH.
  assert (pair_contribution (value (<[sidx := s * (-1)]> svec)) sidx
            (s * (-1)) nb
          = - pair_contribution (value svec) sidx s nb) as ->; [|ring].
  unfold pair_contribution. case_decide as Hself; [ring|].
  assert (value (<[sidx := s * (-1)]> svec) (int_of_float nb.1)
          = value svec (int_of_float nb.1)) as ->; [|ring].
  unfold value, aget. case_decide; [|done].
  rewrite list_lookup_insert_ne; [done|]. lia.
Qed.

(** X7.  Flipping the visited spin negates its energy difference, and
    flipping it once more restores the configuration. *)
Theorem X7_a_flip_negates_the_energy_difference (svec : list Qc)
    (sidx : nat) (s : Qc) (row : list (Qc * Qc)) :
  svec !! sidx = Some s → valid_row (length svec) row →
  ∃ e svec',
    ediff_loop svec sidx row 0 = Some e
    ∧ flip svec sidx = Some svec'
    ∧ ediff_loop svec' sidx row 0 = Some (- e)
    ∧ flip svec' sidx = Some svec.
Proof.
  intros Hs Hrow.
  assert (sidx < length svec)%nat as Hlt by (by eapply lookup_lt_Some).
  exists (neighbour_sum (value svec) sidx s row), (<[sidx := s * (-1)]> svec).
  split_and!.
  - rewrite (ediff_loop_sum _ _ s) by done. by rewrite Qcplus_0_l.
  - by apply flip_Some.
  - rewrite (ediff_loop_sum _ _ (s * (-1)));
      [|by rewrite list_lookup_insert_eq|by rewrite length_insert].
    rewrite Qcplus_0_l. by rewrite neighbour_sum_flipped.
  - rewrite (flip_Some _ _ (s * (-1))) by (by rewrite list_lookup_insert_eq).
    rewrite list_insert_insert_eq. f_equal.
    replace (s * (-1) * (-1)) with s by ring. by apply list_insert_id.
Qed.

End VisitFrames.

(** X8.  For a 64-bit word [s] and a bit index [0 <= k < 64], [getbit s k]
    is the binary digit of weight [2^k] of [s]. *)
Theorem X8_getbit_is_the_binary_digit (s k : Z) :
  is_word s → 0 ≤ k < 64 →
  getbit s k = Z.testbit s k
  ∧ (getbit s k = true ↔ (s `div` 2 ^ k) `mod` 2 = 1).
Proof.
  intros _ [Hk _]. rewrite getbit_testbit by done. split; [done|].
  by rewrite Z.testbit_true by done.
Qed.

Section Words.
Local Open Scope Qc_scope.

Lemma spin_of_bit_inj a b : spin_of_bit a = spin_of_bit b → a = b.
Proof. by destruct a, b. Qed.

Lemma entry_bit_digit b : entry_bit (float_of_digit b) = b.
Proof.
  unfold entry_bit. destruct b; cbn [float_of_digit].
  - by rewrite bool_decide_true.
  - by rewrite bool_decide_false by (by intros []).
Qed.

Lemma testbit_above w n j :
  (0 ≤ w < 2 ^ n → 0 ≤ n ≤ j → Z.testbit w j = false)%Z.
Proof.
  intros Hw Hj. rewrite <- (Z.mod_small w (2 ^ n)) by lia.
  apply Z.mod_pow2_bits_high. lia.
Qed.

(** The word made of the 64 digits of a word is the word. *)
Lemma word_of_its_digits w :
  is_word w →
  word_of_bits ((λ k, Z.testbit w (63 - Z.of_nat k)) <$> seq 0 64) = w.
Proof.
  intros Hw. set (bits := _ <$> seq 0 64).
  assert (length bits = 64%nat) as Hlen by done.
  destruct (word_of_bits_spec bits) as [_ Hbits]; [lia|].
  pose proof (word_of_bits_word bits ltac:(lia)) as HW.
  apply Z.bits_inj'. intros j Hj.
  destruct (decide (j < 64)%Z) as [Hlt|Hge].
  - specialize (Hbits (Z.to_nat j) ltac:(lia)).
    rewrite Z2Nat.id, Hlen in Hbits by done. apply (inj Some).
    rewrite <- Hbits. unfold bits.
    rewrite list_lookup_fmap, lookup_seq_lt by lia.
    simpl. do 2 f_equal. lia.
  - by rewrite !testbit_word_high by (done || lia).
Qed.

Lemma column_bits_decode svec i w :
  svec !! i = Some w →
  column_bits (decode_words svec) i
    = (λ k, Z.testbit w (63 - Z.of_nat k)) <$> seq 0 64.
Proof.
  intros Hw. unfold column_bits, decode_words.
  rewrite <- list_fmap_compose. apply list_fmap_ext. intros j k _. simpl.
  rewrite list_lookup_fmap, Hw. cbn [fmap option_fmap option_map default].
  apply entry_bit_digit.
Qed.

Lemma packed_decode svec :
  Forall is_word svec → packed (decode_words svec) (length svec) = svec.
Proof.
  intros Hwords. apply list_eq. intros i. unfold packed.
  rewrite list_lookup_fmap.
  destruct (svec !! i) as [w|] eqn:Hw.
  - rewrite lookup_seq_lt by (by eapply lookup_lt_Some).
    cbn [fmap option_fmap option_map Nat.add].
    rewrite (column_bits_decode _ _ w) by done. f_equal.
    apply word_of_its_digits. by eapply (Forall_lookup_1 _ _ _ _ Hwords).
  - by rewrite lookup_seq_ge by (by apply lookup_ge_None).
Qed.

End Words.

Section Replicas.
Context {R : Type} `{!NumpyRandom R, !LibM}.
Local Open Scope Qc_scope.

(** X9.  The packing loop undoes the unpacking loop: for 64-bit words, one
    per column of a matrix of 64 rows, packing the matrix that the in-range
    iterations of the unpacking loop leave gives the words back. *)
Theorem X9_packing_what_was_unpacked (cols : nat) (svec : list Z)
    (m : matrix) :
  has_shape 64 cols m → length svec = cols → Forall is_word svec →
  pack (buffer (unpack svec m))
       (replicate (shape1 (buffer (unpack svec m))) 0%Z) = Some svec.
Proof.
  intros Hm Hlen Hwords. rewrite (unpack_spec cols) by done. cbn [buffer].
  pose proof (decode_words_shape svec) as Hshape.
  destruct (decode_pack (length svec) (decode_words svec) Hshape) as (-> & _).
  f_equal. by apply packed_decode.
Qed.

(** X10.  The replicas of a multispin run do not interact: with the
    schedule, the graph and the random source fixed, row [k] of the matrix
    that a call leaves in a C-contiguous array is determined by row [k] of
    the initial matrix, apart from its entry in column 0 when [k >= 1],
    which the last iteration of the unpacking loop takes from the word
    behind the packed array. *)
Theorem X10_replicas_do_not_interact (sched : list Qc) (mcsteps : Z)
    (m1 m2 : matrix) (cols : nat) (nbs : graph) (rng : R)
    (behind1 behind2 : Z) (k j : nat) :
  generator_laws (R:=R) → exp_law → Forall (λ temp, 0 < temp) sched →
  has_shape 64 cols m1 → has_shape 64 cols m2 → (1 ≤ cols)%nat →
  valid_graph cols nbs → is_word behind1 → is_word behind2 →
  (k < 64)%nat → m1 !! k = m2 !! k → k = 0%nat ∨ (0 < j)%nat →
  ∃ f1 f2,
    Anneal_multispin_contiguous behind1 sched mcsteps m1 nbs rng = Some f1
    ∧ Anneal_multispin_contiguous behind2 sched mcsteps m2 nbs rng = Some f2
    ∧ f1 !! k ≫= (.!! j) = f2 !! k ≫= (.!! j).
Proof.
  intros Hlaws Hexp Hsched Hm1 Hm2 Hc Hnbs Hw1 Hw2 Hk Hrow Hkj.
  destruct (multispin_contiguous behind1 sched mcsteps m1 cols nbs rng)
    as (svec1 & Hrun1 & Hsim1); [done..|].
  destruct (multispin_contiguous behind2 sched mcsteps m2 cols nbs rng)
    as (svec2 & Hrun2 & Hsim2); [done..|].
  eexists _, _. split; [exact Hrun1|]. split; [exact Hrun2|].
  rewrite !overwritten_rest by done.
  specialize (Hsim1 k Hk). specialize (Hsim2 k Hk).
  assert (replica k (packed m1 cols) = replica k (packed m2 cols)) as Heq.
  { apply (inj Some). rewrite <- !replica_config_packed by done.
    unfold replica_config. by rewrite Hrow. }
  rewrite Heq, Hsim2 in Hsim1. apply (inj Some) in Hsim1.
  rewrite !decode_words_lookup by done.
  apply (f_equal (λ l, l !! j)) in Hsim1. unfold replica in Hsim1.
  rewrite !list_lookup_fmap in Hsim1.
  destruct (svec1 !! j), (svec2 !! j); simplify_eq/=; [|done].
  f_equal. f_equal. unfold replica_spin in Hsim1.
  by apply spin_of_bit_inj in Hsim1.
Qed.

(** *** Fewer than 64 rows *)

Lemma unpack_col_short rows cols svec (m : matrix) sidx w :
  has_shape rows cols m → (rows < 64)%nat → (sidx < cols)%nat →
  svec !! sidx = Some w → is_word w →
  unpack_col svec m sidx =
    OutOfRange (imap (λ k row,
      <[sidx := float_of_digit (Z.testbit w (63 - Z.of_nat k))]> row) m).
Proof.
  intros Hm Hrows Hsidx Hw Hword. unfold unpack_col. rewrite Hw.
  destruct (bin_state w Hword) as [Hlen Hstate]. rewrite Hlen.
  set (state := rjust 64 false (bin w)) in *.
  set (f := λ (k : nat) (row : list Qc),
         <[sidx := float_of_digit (Z.testbit w (63 - Z.of_nat k))]> row).
  replace 64%nat with (rows + (64 - rows))%nat at 1 by lia.
  rewrite seq_app, loop_o_app.
  assert (loop_o (unpack_cell state sidx) (seq 0 rows) m
          = Finished (imap f m)) as ->.
  { apply (loop_o_for_each _
             (λ m k, b ← state !! k; aset2 m k sidx (float_of_digit b))).
    { intros a i. unfold unpack_cell. destruct (state !! i); simpl; [|done].
      by destruct (aset2 _ _ _ _). }
    destruct (for_each_update f 0 rows m) as (m' & Hrun & Hlen' & Hlook).
    { destruct Hm; lia. }
    rewrite (for_each_ext_inv (has_shape rows cols) _
               (λ l k, x ← l !! k; aset l k (f k x))).
    - rewrite Hrun. f_equal. apply list_eq. intros k.
      rewrite Hlook, list_lookup_imap.
      destruct (m !! k) eqn:Hk; simpl; [|done].
      apply lookup_lt_Some in Hk. destruct Hm.
      by rewrite decide_True by lia.
    - done.
    - intros a i b _ Ha Hb. destruct (a !! i) as [row|] eqn:Hrow; [|done].
      cbn [mbind option_bind] in Hb.
      unfold aset in Hb. case_decide; [|done]. apply (inj Some) in Hb as <-.
      apply has_shape_insert; [done|]. unfold f. rewrite length_insert.
      destruct Ha as [_ Ha]. by eapply (Forall_lookup_1 _ _ _ _ Ha).
    - intros a i Hi%elem_of_seq Ha.
      rewrite Hstate by lia. simpl. unfold aset2.
      destruct (has_shape_lookup _ _ _ i Ha) as (row & -> & Hrow); [lia|].
      simpl. rewrite !aset_Some by (destruct Ha; lia). done. }
  destruct (64 - rows)%nat as [|n] eqn:E; [lia|].
  cbn [seq loop_o]. unfold unpack_cell. rewrite Hstate by lia.
  unfold aset2. rewrite lookup_ge_None_2; [done|].
  rewrite length_imap. destruct Hm. lia.
Qed.

(** X11.  A matrix of 1 to 32 rows is not decoded: with an empty schedule the
    unpacking loop overwrites column 0 of every row with 0 and then writes
    to the row after the last one, out of range. *)
Theorem X11_fewer_rows_are_not_decoded (rows cols : nat) (mcsteps : Z)
    (m : matrix) (nbs : graph) (rng : R) :
  (1 ≤ rows ≤ 32)%nat → (1 ≤ cols)%nat → has_shape rows cols m →
  Anneal_multispin [] mcsteps m nbs rng
    = OutOfRange ((λ row, <[0%nat := 0]> row) <$> m).
Proof.
  intros Hrows Hcols Hm. unfold Anneal_multispin.
  rewrite ms_run_empty_schedule, (pack_spec rows cols) by (done || lia).
  set (svec := _ <$> seq 0 cols).
  assert (svec !! 0%nat = Some (word_of_bits (column_bits m 0))) as Hw.
  { unfold svec. by rewrite list_lookup_fmap, lookup_seq_lt by lia. }
  destruct (word_of_bits_spec (column_bits m 0)) as [Hrange _].
  { rewrite column_bits_length. destruct Hm. lia. }
  rewrite column_bits_length in Hrange.
  assert (length m = rows) as Hl by (by destruct Hm). rewrite Hl in Hrange.
  unfold unpack, unpack_range, xrange.
  replace (Z.to_nat (Z.of_nat (length svec) + 1))
    with (S (length svec)) by lia.
  cbn [seq loop_o].
  rewrite (unpack_col_short rows cols _ _ _ _ Hm) by
    (done || lia || apply word_of_bits_word; rewrite column_bits_length; lia).
  f_equal. apply list_eq. intros k. rewrite list_lookup_imap, list_lookup_fmap.
  destruct (m !! k) as [row|] eqn:Hrow; [|done]. simpl. do 3 f_equal.
  apply lookup_lt_Some in Hrow.
  rewrite (testbit_above _ (Z.of_nat rows)) by lia. done.
Qed.

End Replicas.

(** *** Neighbour indices outside the configuration *)

Lemma for_each_elem_fails {I S} (P : S → Prop) (body : S → I → option S)
    l s x :
  P s → (∀ a i b, P a → body a i = Some b → P b) →
  x ∈ l → (∀ a, P a → body a x = None) → for_each body l s = None.
Proof.
  intros Hs Hpres Hin Hfail. revert s Hs.
  induction l as [|i l IH]; intros s Hs; [by apply elem_of_nil in Hin|].
  simpl. destruct (body s i) as [s1|] eqn:Hb; [|done]. simpl.
  apply elem_of_cons in Hin as [->|Hin].
  - by rewrite Hfail in Hb.
  - apply IH; [done|]. by eapply Hpres.
Qed.

Lemma for_each_head_fails {I S} (body : S → I → option S) l s :
  l ≠ [] → (∀ i, body s i = None) → for_each body l s = None.
Proof. destruct l as [|i l]; [done|]. intros _ Hb. simpl. by rewrite Hb. Qed.

Section Outside.
Context {R C : Type} `{!NumpyRandom R, !LibC C, !LibM}.
Local Open Scope Qc_scope.

Lemma aget_outside (svec : list Qc) i :
  ¬ (0 ≤ i < Z.of_nat (length svec))%Z → aget svec i = None.
Proof.
  intros Hi. unfold aget. case_decide; [|done].
  apply lookup_ge_None_2. lia.
Qed.

Lemma nb_step_outside svec sidx e nb :
  ¬ (0 ≤ int_of_float nb.1 < Z.of_nat (length svec))%Z →
  nb_step svec sidx e nb = None.
Proof.
  intros Hnb. unfold nb_step. case_decide as Heq.
  - rewrite lookup_ge_None_2 by lia. done.
  - destruct (svec !! sidx); [|done]. simpl.
    by rewrite aget_outside.
Qed.

Lemma par_nb_step_outside svec sidx ediffs nb :
  ¬ (0 ≤ int_of_float nb.1 < Z.of_nat (length svec))%Z →
  par_nb_step svec sidx ediffs nb = None.
Proof.
  intros Hnb. unfold par_nb_step. case_decide as Heq.
  - destruct (ediffs !! sidx); [|done]. simpl.
    rewrite lookup_ge_None_2 by lia. done.
  - destruct (ediffs !! sidx); [|done]. simpl.
    destruct (svec !! sidx); [|done]. simpl.
    by rewrite aget_outside.
Qed.


Lemma anneal_spin_outside nbs temp svec (c : C) sidx row nb :
  nbs !! sidx = Some row → nb ∈ row →
  ¬ (0 ≤ int_of_float nb.1 < Z.of_nat (length svec))%Z →
  anneal_spin nbs temp (svec, c) sidx = None.
Proof.
  intros Hrow Hin Hnb. unfold anneal_spin. rewrite Hrow. simpl.
  unfold ediff_loop.
  rewrite (for_each_elem_fails (λ _, True) _ row 0 nb); try done.
  intros a _. by apply nb_step_outside.
Qed.

Lemma par_spin_outside nbs temp svec (c : C) ediffs sidx row nb :
  nbs !! sidx = Some row → nb ∈ row →
  ¬ (0 ≤ int_of_float nb.1 < Z.of_nat (length svec))%Z →
  par_spin nbs temp (svec, c, ediffs) sidx = None.
Proof.
  intros Hrow Hin Hnb. unfold par_spin.
  destruct (aset ediffs sidx 0) as [e0|]; [|done]. simpl.
  rewrite Hrow. simpl.
  rewrite (for_each_elem_fails (λ _, True) _ row e0 nb); try done.
  intros a _. by apply par_nb_step_outside.
Qed.

Lemma anneal_spin_length nbs temp a (c : C) sidx b c' :
  anneal_spin nbs temp (a, c) sidx = Some (b, c') → length b = length a.
Proof.
  intros Hup. apply same_up_to_sign_length, flip_or_keep_sign.
  apply (spin_update_flip_or_keep (C:=C) nbs). by exists temp, sidx, c, c'.
Qed.

Lemma par_spin_length nbs temp a (c : C) ea sidx b c' eb :
  par_spin nbs temp (a, c, ea) sidx = Some (b, c', eb) → length b = length a.
Proof.
  intros Hup. apply same_up_to_sign_length, flip_or_keep_sign.
  by eapply par_spin_flip_or_keep.
Qed.



(** X12.  A neighbour index outside the configuration is read out of range:
    if the row of some spin holds a neighbour index that is negative or not
    below the number of spins, every run of [Anneal] and of
    [Anneal_parallel] with a non-empty schedule and a positive sweep count
    goes out of range. *)
Theorem X12_a_neighbour_outside_the_configuration (sched : list Qc)
    (mcsteps : Z) (svec : list Qc) (nbs : graph) (nthreads : Z) (rng : R)
    (c : C) (sidx : nat) (row : list (Qc * Qc)) (nb : Qc * Qc) :
  permutation_law (R:=R) → sched ≠ [] → (0 < mcsteps)%Z →
  (sidx < length svec)%nat → nbs !! sidx = Some row → nb ∈ row →
  ¬ (0 ≤ int_of_float nb.1 < Z.of_nat (length svec))%Z →
  Anneal sched mcsteps svec nbs rng c = None
  ∧ Anneal_parallel sched mcsteps svec nbs nthreads c = None.
Proof.
  intros Hperm Hsched Hmc Hsidx Hrow Hin Hnb. split.
  - unfold Anneal.
    pose proof (Hperm rng (seq 0 (length svec))) as Hp0.
    destruct (permutation rng (seq 0 (length svec))) as [shuff0 rng0].
    simpl in Hp0.
    rewrite for_each_head_fails; [done..|].
    intros temp. unfold anneal_temp.
    apply for_each_head_fails; [by apply xrange_nonempty|].
    intros step. unfold anneal_step.
    rewrite (for_each_elem_fails
               (λ st : list Qc * C, length st.1 = length svec)
               _ shuff0 (svec, c) sidx); [done|done| | |].
    + intros [a ca] i [b cb] Ha Hb. simpl in *.
      rewrite <- Ha. by eapply anneal_spin_length.
    + rewrite Hp0. apply elem_of_seq. lia.
    + intros [a ca] Ha. simpl in Ha.
      eapply anneal_spin_outside; [done..|]. by rewrite Ha.
  - unfold Anneal_parallel.
    rewrite for_each_head_fails; [done..|].
    intros temp. unfold par_temp.
    apply for_each_head_fails; [by apply xrange_nonempty|].
    intros step. unfold par_step.
    apply (for_each_elem_fails
             (λ st : list Qc * C * list Qc, length st.1.1 = length svec)
             _ _ _ sidx); [done| | |].
    + intros [[a ca] ea] i [[b cb] eb] Ha Hb. simpl in *.
      rewrite <- Ha. by eapply par_spin_length.
    + apply elem_of_seq. lia.
    + intros [[a ca] ea] Ha. simpl in Ha.
      eapply par_spin_outside; [done..|]. by rewrite Ha.
Qed.


End Outside.

Section Sums.
Local Open Scope Qc_scope.

Lemma sum_list_snoc l x : sum_list (l ++ [x]) = sum_list l + x.
Proof.
  induction l as [|y l IH].
  - unfold sum_list. cbn. ring.
  - rewrite <- app_comm_cons, !sum_list_cons, IH. ring.
Qed.

Lemma bigsum_S n f : bigsum (S n) f = bigsum n f + f n.
Proof.
  unfold bigsum. rewrite seq_S, fmap_app. apply sum_list_snoc.
Qed.

Lemma bigsum_0 n : bigsum n (λ _, 0) = 0.
Proof. induction n; [done|]. rewrite bigsum_S, IHn. ring. Qed.

Lemma bigsum_ext n f g :
  (∀ i, (i < n)%nat → f i = g i) → bigsum n f = bigsum n g.
Proof.
  induction n as [|n IH]; intros Hfg; [done|].
  rewrite !bigsum_S, IH, Hfg by (intros; try apply Hfg; lia). done.
Qed.

Lemma bigsum_plus n f g :
  bigsum n (λ i, f i + g i) = bigsum n f + bigsum n g.
Proof. induction n; [done|]. rewrite !bigsum_S, IHn. ring. Qed.

Lemma bigsum_scal n c f : bigsum n (λ i, c * f i) = c * bigsum n f.
Proof.
  induction n; [unfold bigsum, sum_list; simpl; ring|].
  rewrite !bigsum_S, IHn. ring.
Qed.

Lemma bigsum_opp n f : bigsum n (λ i, - f i) = - bigsum n f.
Proof.
  induction n; [done|]. rewrite !bigsum_S, IHn. ring.
Qed.

Lemma bigsum_single n i f :
  (i < n)%nat → bigsum n (λ j, if decide (j = i) then f j else 0) = f i.
Proof.
  induction n as [|n IH]; intros Hi; [lia|]. rewrite bigsum_S.
  destruct (decide (n = i)) as [->|Hne].
  - rewrite (bigsum_ext _ _ (λ _, 0)), bigsum_0.
    + ring.
    + intros j Hj. by rewrite decide_False by lia.
  - rewrite IH by lia. ring.
Qed.

Lemma bigsum_le n f g :
  (∀ i, (i < n)%nat → f i ≤ g i) → bigsum n f ≤ bigsum n g.
Proof.
  induction n as [|n IH]; intros Hfg; [done|].
  rewrite !bigsum_S. apply Qcplus_le_compat; [apply IH|apply Hfg]; intros;
    try apply Hfg; lia.
Qed.

Lemma sum_list_imap {A} (f : nat → A → Qc) (l : list A) (d : A) :
  sum_list (imap f l) = bigsum (length l) (λ i, f i (default d (l !! i))).
Proof.
  unfold bigsum. f_equal. apply list_eq. intros i.
  rewrite list_lookup_imap, list_lookup_fmap.
  destruct (l !! i) as [x|] eqn:Hx.
  - rewrite lookup_seq_lt by (by eapply lookup_lt_Some). simpl.
    by rewrite Hx.
  - by rewrite lookup_seq_ge by (by apply lookup_ge_None).
Qed.

Lemma sum_list_zip a b :
  length a = length b →
  sum_list (zip_with Qcmult a b)
    = bigsum (length a) (λ i, at_index a i * at_index b i).
Proof.
  intros Hl. unfold bigsum. f_equal. apply list_eq. intros i.
  rewrite lookup_zip_with, list_lookup_fmap. unfold at_index.
  destruct (a !! i) as [x|] eqn:Hx; simpl.
  - rewrite lookup_seq_lt by (by eapply lookup_lt_Some). simpl.
    destruct (lookup_lt_is_Some_2 b i) as [y Hy];
      [rewrite <- Hl; by eapply lookup_lt_Some|].
    by rewrite Hx, Hy.
  - by rewrite lookup_seq_ge by (by apply lookup_ge_None).
Qed.

End Sums.

Section EnergyForm.
Local Open Scope Qc_scope.

Lemma dot_vv_Some a b :
  length a = length b →
  dot_vv a b = Some (bigsum (length a) (λ i, at_index a i * at_index b i)).
Proof.
  intros Hl. unfold dot_vv. rewrite decide_True by done.
  by rewrite sum_list_zip.
Qed.

Lemma dot_mv_Some n (m : matrix) v :
  has_shape n (length v) m →
  dot_mv m v
    = Some ((λ i, bigsum (length v) (λ j, entry m i j * at_index v j))
              <$> seq 0 n).
Proof.
  intros [Hlen Hrows]. unfold dot_mv. apply mapM_Some.
  apply Forall2_same_length_lookup_2.
  - by rewrite length_fmap, length_seq.
  - intros i row y Hrow Hy.
    rewrite list_lookup_fmap, lookup_seq_lt in Hy
      by (rewrite <- Hlen; by eapply lookup_lt_Some).
    simpl in Hy. simplify_eq.
    pose proof (Forall_lookup_1 _ _ _ _ Hrows Hrow) as Hl. simpl in Hl.
    rewrite dot_vv_Some, Hl by done. f_equal. apply bigsum_ext.
    intros j Hj. unfold entry, at_index. by rewrite Hrow.
Qed.

Lemma fill_diagonal_shape n c (m : matrix) x :
  has_shape n c m → has_shape n c (fill_diagonal m x).
Proof.
  intros [Hlen Hrows]. split; [unfold fill_diagonal; by rewrite length_imap|].
  apply Forall_lookup_2. intros i row. unfold fill_diagonal.
  rewrite list_lookup_imap. destruct (m !! i) as [r|] eqn:Hr; [|done].
  simpl. intros [= <-]. rewrite length_insert.
  by eapply (Forall_lookup_1 _ _ _ _ Hrows).
Qed.

Lemma fill_diagonal_entry n (m : matrix) x i j :
  has_shape n n m → (i < n)%nat → (j < n)%nat →
  entry (fill_diagonal m x) i j = if decide (i = j) then x else entry m i j.
Proof.
  intros Hm Hi Hj. unfold entry, fill_diagonal.
  rewrite list_lookup_imap.
  destruct (has_shape_lookup _ _ _ i Hm Hi) as (row & -> & Hl). simpl.
  case_decide as Hij; [subst|].
  - by rewrite list_lookup_insert_eq by lia.
  - by rewrite list_lookup_insert_ne.
Qed.

Lemma diag_of_square n (m : matrix) :
  has_shape n n m → diag_of m = (λ i, entry m i i) <$> seq 0 n.
Proof.
  intros Hm. unfold diag_of.
  assert (imap (λ i (row : list Qc), row !! i) m
          = Some <$> ((λ i, entry m i i) <$> seq 0 n)) as ->.
  { apply list_eq. intros i. rewrite list_lookup_imap, !list_lookup_fmap.
    destruct (decide (i < n)%nat) as [Hi|Hi].
    - destruct (has_shape_lookup _ _ _ i Hm Hi) as (row & Hrow & Hl).
      rewrite Hrow, lookup_seq_lt by done. simpl.
      destruct (lookup_lt_is_Some_2 row i) as [x Hx]; [lia|].
      unfold entry. rewrite Hrow. simpl. by rewrite Hx.
    - destruct Hm as [Hlen _].
      by rewrite lookup_ge_None_2, lookup_seq_ge by lia. }
  generalize ((λ i, entry m i i) <$> seq 0 n). intros l.
  induction l as [|x l IH]; [done|].
  rewrite !fmap_cons. cbn [omap list_omap id]. by rewrite IH.
Qed.

Lemma diag_matrix_shape v : has_shape (length v) (length v) (diag_matrix v).
Proof.
  split; [unfold diag_matrix; by rewrite length_imap|].
  apply Forall_lookup_2. intros i row. unfold diag_matrix.
  rewrite list_lookup_imap. destruct (v !! i); [|done]. simpl.
  intros [= <-]. by rewrite length_insert, length_replicate.
Qed.

Lemma diag_matrix_entry v i j :
  (i < length v)%nat → (j < length v)%nat →
  entry (diag_matrix v) i j = if decide (j = i) then at_index v i else 0.
Proof.
  intros Hi Hj. unfold entry, diag_matrix, at_index.
  rewrite list_lookup_imap.
  destruct (lookup_lt_is_Some_2 v i Hi) as [x ->]. simpl.
  case_decide as Hij; [subst|].
  - by rewrite list_lookup_insert_eq by (by rewrite length_replicate).
  - rewrite list_lookup_insert_ne by done.
    by rewrite lookup_replicate_2.
Qed.

(** The energy of a square matrix and a vector of its size, as a sum. *)
Lemma energy_closed_form n (J : matrix) (s : list Qc) :
  has_shape n n J → length s = n →
  ClassicalIsingEnergy s J = Some (ising_sum n J s).
Proof.
  intros HJ Hs. unfold ClassicalIsingEnergy. cbv zeta.
  rewrite (dot_mv_Some n (fill_diagonal J 0) s)
    by (rewrite Hs; by apply fill_diagonal_shape).
  cbn [mbind option_bind].
  rewrite dot_vv_Some by (by rewrite length_fmap, length_seq).
  cbn [mbind option_bind].
  rewrite (diag_of_square n) by done.
  set (dv := (λ i, entry J i i) <$> seq 0 n).
  assert (length dv = n) as Hdv by (unfold dv; by rewrite length_fmap, length_seq).
  rewrite (dot_mv_Some n (diag_matrix dv) s)
    by (rewrite Hs; rewrite <- Hdv at 1 2; apply diag_matrix_shape).
  cbn [mbind option_bind]. f_equal. unfold ising_sum. rewrite Hs. f_equal.
  - f_equal. apply bigsum_ext. intros i Hi.
    unfold at_index at 2.
    rewrite list_lookup_fmap, lookup_seq_lt by done.
    cbn [fmap option_fmap option_map default Nat.add id].
    rewrite <- bigsum_scal. apply bigsum_ext. intros j Hj.
    rewrite (fill_diagonal_entry n) by done.
    case_decide; [ring|done].
  - f_equal. fold (bigsum n (λ i, bigsum n (λ j, entry (diag_matrix dv) i j * at_index s j))).
    apply bigsum_ext. intros i Hi.
    rewrite (bigsum_ext _ _ (λ j, if decide (j = i)
                                  then entry J i i * at_index s j else 0)).
    + by rewrite bigsum_single.
    + intros j Hj. rewrite diag_matrix_entry by lia.
      case_decide; [|ring]. f_equal. unfold at_index, dv.
      by rewrite list_lookup_fmap, lookup_seq_lt.
Qed.

End EnergyForm.

Section EnergyProps.
Local Open Scope Qc_scope.

Lemma int_of_float_of_int z : int_of_float (float_of_int z) = z.
Proof.
  unfold int_of_float, float_of_int, Qc_of_Z. cbn. apply Z.quot_1_r.
Qed.

Lemma value_at_index s (j : nat) : value s (Z.of_nat j) = at_index s j.
Proof.
  unfold value, at_index, aget. rewrite decide_True by lia.
  by rewrite Nat2Z.id.
Qed.

Lemma bigsum_minus n f g :
  bigsum n f - bigsum n g = bigsum n (λ i, f i - g i).
Proof.
  unfold Qcminus. rewrite <- bigsum_opp, <- bigsum_plus. done.
Qed.

Lemma at_index_insert s i y a :
  (i < length s)%nat →
  at_index (<[i := y]> s) a = if decide (a = i) then y else at_index s a.
Proof.
  intros Hi. unfold at_index. case_decide as Ha; [subst|].
  - by rewrite list_lookup_insert_eq.
  - by rewrite list_lookup_insert_ne.
Qed.

Lemma at_index_opp s a : at_index (Qcopp <$> s) a = - at_index s a.
Proof.
  unfold at_index. rewrite list_lookup_fmap.
  destruct (s !! a); simpl; [done|ring].
Qed.

(** What a flip of spin [i] changes in the sum. *)
Lemma ising_sum_flip n J s i x :
  length s = n → s !! i = Some x →
  ising_sum n J s - ising_sum n J (<[i := x * (-1)]> s)
    = bigsum n (λ j, if decide (j = i) then (-2) * x * entry J i i
                     else (-2) * x * (entry J i j + entry J j i)
                          * at_index s j).
Proof.
  intros Hs Hx.
  assert (i < n)%nat as Hi by (rewrite <- Hs; by eapply lookup_lt_Some).
  assert (at_index s i = x) as Hxi by (unfold at_index; by rewrite Hx).
  unfold ising_sum.
  set (Q := bigsum n (λ a, bigsum n (λ b, if decide (a = b) then 0
             else at_index s a * (entry J a b * at_index s b)))).
  set (Q' := bigsum n (λ a, bigsum n (λ b, if decide (a = b) then 0
             else at_index (<[i := x * (-1)]> s) a
                  * (entry J a b * at_index (<[i := x * (-1)]> s) b)))).
  set (L := bigsum n (λ a, entry J a a * at_index s a)).
  set (L' := bigsum n (λ a, entry J a a * at_index (<[i := x * (-1)]> s) a)).
  assert (L - L' = 2 * x * entry J i i) as HL.
  { unfold L, L'. rewrite bigsum_minus.
    rewrite (bigsum_ext _ _ (λ a, if decide (a = i)
                                  then 2 * x * entry J a a else 0)).
    - rewrite (bigsum_single n i (λ a, 2 * x * entry J a a)) by done. done.
    - intros a Ha. rewrite at_index_insert by lia.
      destruct (decide (a = i)) as [->|Hai]; [rewrite Hxi|]; ring. }
  assert (Q - Q' = bigsum n (λ j, if decide (j = i) then 0
            else 2 * x * (entry J i j + entry J j i) * at_index s j)) as HQ.
  { unfold Q, Q'. rewrite bigsum_minus.
    rewrite (bigsum_ext _ _ (λ a,
      (if decide (a = i)
       then bigsum n (λ b, if decide (b = i) then 0
                           else 2 * x * entry J i b * at_index s b)
       else 0)
      + (if decide (a = i) then 0
         else 2 * x * entry J a i * at_index s a))).
    - rewrite bigsum_plus.
      rewrite (bigsum_single n i (λ _, bigsum n (λ b, if decide (b = i) then 0
                 else 2 * x * entry J i b * at_index s b))) by done.
      rewrite <- bigsum_plus. apply bigsum_ext. intros j Hj.
      case_decide; ring.
    - intros a Ha. rewrite bigsum_minus.
      rewrite (bigsum_ext _ _ (λ b,
        (if decide (a = i)
         then (if decide (b = i) then 0
               else 2 * x * entry J i b * at_index s b)
         else 0)
        + (if decide (b = i)
           then (if decide (a = i) then 0
                 else 2 * x * entry J a i * at_index s a)
           else 0))).
      + rewrite bigsum_plus. f_equal.
        * case_decide; [done|apply bigsum_0].
        * by rewrite (bigsum_single n i (λ _, if decide (a = i) then 0
                        else 2 * x * entry J a i * at_index s a)).
      + intros b Hb. rewrite !at_index_insert by lia.
        destruct (decide (a = b)) as [->|Hab].
        * repeat case_decide; ring.
        * destruct (decide (a = i)) as [->|Hai];
            destruct (decide (b = i)) as [->|Hbi];
            rewrite ?Hxi; try done; ring. }
  transitivity (- (Q - Q') - (L - L')); [ring|]. rewrite HQ, HL.
  rewrite <- bigsum_opp.
  rewrite <- (bigsum_single n i (λ a, 2 * x * entry J a a)) by done.
  rewrite bigsum_minus. apply bigsum_ext. intros j Hj.
  destruct (decide (j = i)) as [->|Hji]; ring.
Qed.

Lemma coupling_row_valid n (J : matrix) i :
  has_shape n n J → valid_row n (coupling_row J i).
Proof.
  intros HJ. unfold valid_row, coupling_row. apply Forall_lookup_2.
  intros j nb. rewrite list_lookup_imap.
  destruct (default [] (J !! i) !! j) as [y|] eqn:Hy; [|done].
  simpl. intros [= <-]. simpl. rewrite int_of_float_of_int.
  apply lookup_lt_Some in Hy.
  destruct (J !! i) as [row|] eqn:Hrow; simpl in Hy; [|lia].
  destruct HJ as [_ Hrows].
  pose proof (Forall_lookup_1 _ _ _ _ Hrows Hrow) as Hl. simpl in Hl. lia.
Qed.

Lemma coupling_row_sum n (J : matrix) s i x :
  has_shape n n J → (i < n)%nat →
  neighbour_sum (value s) i x (coupling_row J i)
    = bigsum n (λ j, if decide (j = i) then (-2) * x * entry J i i
                     else (-2) * x * (entry J i j + entry J j i)
                          * at_index s j).
Proof.
  intros HJ Hi. unfold neighbour_sum, coupling_row.
  destruct (has_shape_lookup _ _ _ i HJ Hi) as (row & Hrow & Hl).
  rewrite Hrow. cbn [default from_option id]. rewrite fmap_imap.
  rewrite (sum_list_imap _ _ 0), Hl. apply bigsum_ext. intros j Hj.
  unfold compose, pair_contribution. cbn [fst snd].
  rewrite int_of_float_of_int, value_at_index.
  assert (default 0 (row !! j) = entry J i j) as ->
    by (unfold entry; by rewrite Hrow).
  destruct (decide (j = i)) as [->|Hji].
  - by rewrite decide_True by done.
  - by rewrite decide_False by lia.
Qed.

Lemma ising_sum_opp n J s :
  (∀ i, (i < n)%nat → entry J i i = 0) →
  ising_sum n J (Qcopp <$> s) = ising_sum n J s.
Proof.
  intros Hd. unfold ising_sum. f_equal; [f_equal|].
  - apply bigsum_ext. intros i Hi. apply bigsum_ext. intros j Hj.
    rewrite !at_index_opp. case_decide; ring.
  - apply bigsum_ext. intros i Hi. rewrite Hd by done. ring.
Qed.

Lemma spin_product_le c t : 0 ≤ c → is_spin t → c * t ≤ c.
Proof.
  intros Hc [-> | ->].
  - rewrite Qcmult_1_r. apply Qcle_refl.
  - apply Qcle_minus_iff.
    replace (c + - (c * - (1))) with (c + c) by ring.
    replace 0 with (0 + 0) by ring. by apply Qcplus_le_compat.
Qed.

Lemma is_spin_mult a b : is_spin a → is_spin b → is_spin (a * b).
Proof.
  intros [-> | ->] [-> | ->]; [left|right|right|left]; ring.
Qed.

Lemma at_index_spin s i : spins s → (i < length s)%nat → is_spin (at_index s i).
Proof.
  intros Hs Hi. unfold at_index.
  destruct (lookup_lt_is_Some_2 s i Hi) as [x Hx]. rewrite Hx. simpl.
  by eapply (Forall_lookup_1 _ _ _ _ Hs).
Qed.

Lemma at_index_ones n i : (i < n)%nat → at_index (replicate n 1) i = 1.
Proof. intros Hi. unfold at_index. by rewrite lookup_replicate_2. Qed.

Lemma ising_sum_ones_le n J s :
  (∀ i j, (i < n)%nat → (j < n)%nat → 0 ≤ entry J i j) →
  spins s → length s = n →
  ising_sum n J (replicate n 1) ≤ ising_sum n J s.
Proof.
  intros HJ Hs Hl. unfold ising_sum, Qcminus.
  apply Qcplus_le_compat; apply Qcopp_le_compat.
  - apply bigsum_le. intros i Hi. apply bigsum_le. intros j Hj.
    case_decide; [apply Qcle_refl|]. rewrite !at_index_ones by done.
    replace (1 * (entry J i j * 1)) with (entry J i j) by ring.
    replace (at_index s i * (entry J i j * at_index s j))
      with (entry J i j * (at_index s i * at_index s j)) by ring.
    apply spin_product_le; [by apply HJ|].
    apply is_spin_mult; apply at_index_spin; (done || lia).
  - apply bigsum_le. intros i Hi. rewrite at_index_ones by done.
    rewrite Qcmult_1_r. apply spin_product_le; [by apply HJ|].
    apply at_index_spin; (done || lia).
Qed.

Lemma dot_mv_first_row (m : matrix) v row :
  m !! 0%nat = Some row → length row ≠ length v → dot_mv m v = None.
Proof.
  intros Hrow Hl. destruct m as [|r m]; [done|]. simpl in Hrow.
  simplify_eq. assert (dot_vv row v = None) as Hd.
  { unfold dot_vv. by rewrite decide_False by done. }
  unfold dot_mv. cbn [mapM]. by rewrite Hd.
Qed.

(** X14.  For a square coupling matrix [J] of size [n >= 1] and a
    configuration of [n] entries, [ClassicalIsingEnergy] returns minus the
    sum of [s_i * J[i,j] * s_j] over the ordered pairs [i <> j], minus the
    sum of the biases [J[i,i] * s_i]; for a configuration of any other size
    the products are not defined and the call fails. *)
Theorem X14_energy_is_the_ising_sum (n : nat) (J : matrix) (s : list Qc) :
  has_shape n n J → (1 ≤ n)%nat →
  (length s = n → ClassicalIsingEnergy s J = Some (ising_sum n J s))
  ∧ (length s ≠ n → ClassicalIsingEnergy s J = None).
Proof.
  intros HJ Hn. split; [by apply energy_closed_form|].
  intros Hs. unfold ClassicalIsingEnergy. cbv zeta.
  destruct (has_shape_lookup _ _ _ 0%nat HJ Hn) as (row & Hrow & Hl).
  rewrite (dot_mv_first_row (fill_diagonal J 0) s (<[0%nat := 0]> row)).
  - reflexivity.
  - unfold fill_diagonal. by rewrite list_lookup_imap, Hrow.
  - rewrite length_insert. lia.
Qed.

(** X15.  Without biases (a zero diagonal) a configuration and its opposite
    have the same energy. *)
Theorem X15_energy_of_the_opposite_configuration (n : nat) (J : matrix)
    (s : list Qc) :
  has_shape n n J → length s = n →
  (∀ i, (i < n)%nat → entry J i i = 0) →
  ∃ e, ClassicalIsingEnergy s J = Some e
       ∧ ClassicalIsingEnergy (Qcopp <$> s) J = Some e.
Proof.
  intros HJ Hs Hd. exists (ising_sum n J s). split.
  - by apply energy_closed_form.
  - rewrite (energy_closed_form n) by (by rewrite ?length_fmap).
    by rewrite ising_sum_opp.
Qed.

(** X16.  The energy difference of the kernels is the change of
    [ClassicalIsingEnergy]: when the neighbour row of spin [i] lists every
    other spin [j] with [J[i,j] + J[j,i]] and [i] itself with [J[i,i]], the
    loop over the row returns the energy before the flip of spin [i] minus
    the energy after it. *)
Theorem X16_energy_difference_is_the_energy_change (n : nat) (J : matrix)
    (s : list Qc) (i : nat) (x : Qc) :
  has_shape n n J → length s = n → s !! i = Some x →
  ∃ e e' s', ClassicalIsingEnergy s J = Some e
    ∧ flip s i = Some s'
    ∧ ClassicalIsingEnergy s' J = Some e'
    ∧ ediff_loop s i (coupling_row J i) 0 = Some (e - e').
Proof.
  intros HJ Hs Hx.
  assert (i < n)%nat as Hi by (rewrite <- Hs; by eapply lookup_lt_Some).
  exists (ising_sum n J s), (ising_sum n J (<[i := x * (-1)]> s)),
    (<[i := x * (-1)]> s).
  split; [by apply energy_closed_form|]. split.
  { unfold flip. rewrite Hx. cbn [mbind option_bind]. unfold aset.
    by rewrite decide_True by lia. }
  split; [apply energy_closed_form; by rewrite ?length_insert|].
  rewrite (ediff_loop_sum _ _ x) by (rewrite ?Hs; by try apply coupling_row_valid).
  f_equal. rewrite (coupling_row_sum n), (ising_sum_flip n) by done. ring.
Qed.

(** X17.  With non-negative couplings and biases no configuration of spins
    has a lower energy than the one with all spins +1. *)
Theorem X17_aligned_spins_minimise_the_energy (n : nat) (J : matrix)
    (s : list Qc) :
  has_shape n n J → length s = n → spins s →
  (∀ i j, (i < n)%nat → (j < n)%nat → 0 ≤ entry J i j) →
  ∃ e0 e, ClassicalIsingEnergy (replicate n 1) J = Some e0
          ∧ ClassicalIsingEnergy s J = Some e ∧ e0 ≤ e.
Proof.
  intros HJ Hs Hsp Hpos.
  exists (ising_sum n J (replicate n 1)), (ising_sum n J s).
  split; [apply energy_closed_form; by rewrite ?length_replicate|].
  split; [by apply energy_closed_form|]. by apply ising_sum_ones_le.
Qed.

End EnergyProps.

Section KernelExamples.
Local Open Scope Qc_scope.

Lemma script_permutation_law : permutation_law (R:=list Qc).
Proof. intros r l. simpl. apply reverse_Permutation. Qed.

Lemma ex_row_valid : valid_row 2 ex_row.
Proof. repeat constructor; vm_compute; congruence. Qed.


Lemma ex_bonds_shape : has_shape 2 2 ex_bonds.
Proof. split; [reflexivity|]. repeat constructor. Qed.

Lemma ex_couplings_shape : has_shape 2 2 ex_couplings.
Proof. split; [reflexivity|]. repeat constructor. Qed.

Lemma ex_svec_spins : spins ex_svec.
Proof. repeat apply Forall_cons_2; [by left|by right|apply Forall_nil_2]. Qed.

(** X1 on two ferromagnetic spins at temperature 1/1000. *)
Lemma X1_classical_engines_stay_in_range_witness :
  (∃ svec' c' rng',
     Anneal [fl 1 1000] 1 ex_svec ex_graph ([] : list Qc) ([] : list Z)
       = Some (svec', c', rng')
     ∧ same_up_to_sign ex_svec svec')
  ∧ (∃ svec' c',
       Anneal_parallel [fl 1 1000] 1 ex_svec ex_graph 1 ([] : list Z)
         = Some (svec', c')
       ∧ same_up_to_sign ex_svec svec').
Proof.
  apply (X1_classical_engines_stay_in_range (R:=list Qc) (C:=list Z)).
  - apply ex_graph_valid.
  - apply script_permutation_law.
Defined.


(** X3 on one spin in one slice. *)
Lemma X3_single_slice_goes_out_of_range_witness :
  QuantumAnneal [fl 1 1] 1 1 (fl 1 1) 1 [[fl 1 1]] free_spin half_script
    = None.
Proof.
  apply (X3_single_slice_goes_out_of_range (R:=list Qc)).
  - apply script_permutation_law.
  - repeat constructor.
  - discriminate.
  - lia.
  - lia.
  - lia.
Defined.

(** X4 on the first of two slices. *)
Lemma X4_two_slices_count_the_other_slice_twice_witness :
  trotter_neighbours 2 (Z.of_nat 0) = (1 - Z.of_nat 0, 1 - Z.of_nat 0)%Z
  ∧ q_ediff ex_svec [fl 1 1; fl (-1) 1] 0 0 ex_row half =
      Some (neighbour_sum (value ex_svec) 0 (fl 1 1) ex_row
            + 2 * ((-2) * fl 1 1 * (half * fl (-1) 1))).
Proof.
  apply (X4_two_slices_count_the_other_slice_twice ex_svec
           [fl 1 1; fl (-1) 1] 0 0 (fl 1 1) (fl (-1) 1) ex_row half).
  - reflexivity.
  - lia.
  - reflexivity.
  - apply ex_row_valid.
  - reflexivity.
Defined.

(** X5 on the sequential visit of the first of two ferromagnetic spins. *)
Lemma X5_a_visit_touches_one_entry_witness :
  [fl (-1) 1; fl (-1) 1] !! 1%nat = ex_svec !! 1%nat.
Proof.
  refine (proj1 (X5_a_visit_touches_one_entry (R:=list Qc) (C:=list Z))
            ex_graph (fl 1 1000) ex_svec [] 0%nat _ [] 1%nat _ _).
  - vm_compute. reflexivity.
  - lia.
Defined.

(** X7 on a spin with a bias and one neighbour. *)
Lemma X7_a_flip_negates_the_energy_difference_witness :
  ∃ e svec',
    ediff_loop ex_svec 0 ex_row 0 = Some e
    ∧ flip ex_svec 0 = Some svec'
    ∧ ediff_loop svec' 0 ex_row 0 = Some (- e)
    ∧ flip svec' 0 = Some ex_svec.
Proof.
  apply (X7_a_flip_negates_the_energy_difference ex_svec 0 (fl 1 1) ex_row).
  - reflexivity.
  - apply ex_row_valid.
Defined.

End KernelExamples.

(** X8 on bit 2 of the word 5. *)
Lemma X8_getbit_is_the_binary_digit_witness :
  getbit 5 2 = Z.testbit 5 2
  ∧ (getbit 5 2 = true ↔ (5 `div` 2 ^ 2) `mod` 2 = 1).
Proof.
  apply (X8_getbit_is_the_binary_digit 5 2); [unfold is_word|]; lia.
Defined.

Section EngineExamples.
Local Open Scope Qc_scope.

Lemma ex_matrix_shape : has_shape 64 2 ex_matrix.
Proof. split; [reflexivity|]. by apply Forall_replicate. Qed.

Lemma ex_matrix'_shape : has_shape 64 2 ex_matrix'.
Proof.
  split; [reflexivity|]. unfold ex_matrix'.
  apply Forall_insert; [by apply Forall_replicate|reflexivity].
Qed.

(** X9 on the words 5 and 2^63. *)
Lemma X9_packing_what_was_unpacked_witness :
  pack (buffer (unpack [5; 2 ^ 63]%Z ex_matrix))
       (replicate (shape1 (buffer (unpack [5; 2 ^ 63]%Z ex_matrix))) 0%Z)
    = Some [5; 2 ^ 63]%Z.
Proof.
  apply (X9_packing_what_was_unpacked 2 [5; 2 ^ 63]%Z ex_matrix).
  - apply ex_matrix_shape.
  - reflexivity.
  - repeat constructor; unfold is_word; lia.
Defined.

(** X10 on entry [2, 1] of two matrices that differ in row 1, with
    different words behind the packed array. *)
Lemma X10_replicas_do_not_interact_witness :
  ∃ f1 f2,
    Anneal_multispin_contiguous 0 [fl 1 1000] 1 ex_matrix ex_graph
      half_script = Some f1
    ∧ Anneal_multispin_contiguous 1 [fl 1 1000] 1 ex_matrix' ex_graph
        half_script = Some f2
    ∧ f1 !! 2%nat ≫= (.!! 1%nat) = f2 !! 2%nat ≫= (.!! 1%nat).
Proof.
  apply (X10_replicas_do_not_interact [fl 1 1000] 1 ex_matrix ex_matrix' 2
           ex_graph half_script 0 1 2 1).
  - apply script_generator_laws.
  - apply exp_q_law.
  - repeat constructor.
  - apply ex_matrix_shape.
  - apply ex_matrix'_shape.
  - lia.
  - apply ex_graph_valid.
  - unfold is_word. lia.
  - unfold is_word. lia.
  - lia.
  - reflexivity.
  - right. lia.
Defined.

(** X11 on a matrix of one row and one column. *)
Lemma X11_fewer_rows_are_not_decoded_witness :
  Anneal_multispin [] 1 [[fl 1 1]] free_spin ([] : list Qc)
    = OutOfRange ((λ row, <[0%nat := 0]> row) <$> [[fl 1 1]]).
Proof.
  apply (X11_fewer_rows_are_not_decoded (R:=list Qc) 1 1 1 [[fl 1 1]]
           free_spin []).
  - lia.
  - lia.
  - split; [reflexivity|]. repeat constructor.
Defined.

Lemma ex_stray_index :
  ¬ (0 ≤ int_of_float (fl 1 1, fl 1 1).1 < Z.of_nat 1)%Z.
Proof. vm_compute. intros [_ H]. discriminate H. Qed.

(** X12 on one spin whose neighbour slot names a second spin. *)
Lemma X12_a_neighbour_outside_the_configuration_witness :
  Anneal [fl 1 1] 1 [fl 1 1] ex_stray_graph ([] : list Qc) ([] : list Z) = None
  ∧ Anneal_parallel [fl 1 1] 1 [fl 1 1] ex_stray_graph 1 ([] : list Z) = None.
Proof.
  apply (X12_a_neighbour_outside_the_configuration (R:=list Qc) (C:=list Z)
           [fl 1 1] 1 [fl 1 1] ex_stray_graph 1 [] [] 0
           [(fl 1 1, fl 1 1)] (fl 1 1, fl 1 1)).
  - apply script_permutation_law.
  - discriminate.
  - lia.
  - simpl. lia.
  - reflexivity.
  - apply list_elem_of_here.
  - apply ex_stray_index.
Defined.


(** X14 on two bonded spins. *)
Lemma X14_energy_is_the_ising_sum_witness :
  (length ex_svec = 2%nat →
   ClassicalIsingEnergy ex_svec ex_bonds = Some (ising_sum 2 ex_bonds ex_svec))
  ∧ (length ex_svec ≠ 2%nat → ClassicalIsingEnergy ex_svec ex_bonds = None).
Proof.
  apply (X14_energy_is_the_ising_sum 2 ex_bonds ex_svec).
  - apply ex_bonds_shape.
  - lia.
Defined.

(** X15 on two bonded spins. *)
Lemma X15_energy_of_the_opposite_configuration_witness :
  ∃ e, ClassicalIsingEnergy ex_svec ex_bonds = Some e
       ∧ ClassicalIsingEnergy (Qcopp <$> ex_svec) ex_bonds = Some e.
Proof.
  apply (X15_energy_of_the_opposite_configuration 2 ex_bonds ex_svec).
  - apply ex_bonds_shape.
  - reflexivity.
  - intros [|[|i]] Hi; [reflexivity|reflexivity|lia].
Defined.

(** X16 on the first of two bonded spins, which carries a bias. *)
Lemma X16_energy_difference_is_the_energy_change_witness :
  ∃ e e' s', ClassicalIsingEnergy ex_svec ex_couplings = Some e
    ∧ flip ex_svec 0 = Some s'
    ∧ ClassicalIsingEnergy s' ex_couplings = Some e'
    ∧ ediff_loop ex_svec 0 (coupling_row ex_couplings 0) 0 = Some (e - e').
Proof.
  apply (X16_energy_difference_is_the_energy_change 2 ex_couplings ex_svec 0
           (fl 1 1)).
  - apply ex_couplings_shape.
  - reflexivity.
  - reflexivity.
Defined.

(** X17 on two bonded spins. *)
Lemma X17_aligned_spins_minimise_the_energy_witness :
  ∃ e0 e, ClassicalIsingEnergy (replicate 2 1) ex_couplings = Some e0
          ∧ ClassicalIsingEnergy ex_svec ex_couplings = Some e ∧ e0 ≤ e.
Proof.
  apply (X17_aligned_spins_minimise_the_energy 2 ex_couplings ex_svec).
  - apply ex_couplings_shape.
  - reflexivity.
  - apply ex_svec_spins.
  - intros [|[|i]] [|[|j]] Hi Hj; try lia; by vm_compute.
Defined.

End EngineExamples.
